(** * Spotify recommender: a shallow embedding of the core scripts

    The development follows three scripts of the repository:
    - [make_recs.py]     (module [MakeRecs]): seed expansion, de-duplication,
      ownership filter, ranking and truncation of candidate tracks;
    - [build_catalog.py] (module [BuildCatalog]): weighting of listening
      records, the canonical catalogue and the artist / genre accumulators;
    - [compare_recs.py]  (module [CompareRecs]): the artist-to-genre lookup.

    Python values are modelled as follows.  A JSON field or a data-frame cell
    that may be absent, [None] or NaN is an [option]; Python integers are [Z];
    text is [string] (bytes, so the text helpers are exact on ASCII input);
    a weight, which the scripts only create from a decimal literal, is the
    rational [Q] the literal denotes, and a score, the float that adding
    weights gives, is the rational that float is; a Python [set] is a
    [gset]; a [Counter] is an association list in insertion order. *)

From Stdlib Require Import ZArith QArith Ascii String List Sorting.Sorted.
From stdpp Require Import base option list sorting gmap sets strings.

Open Scope Z_scope.

(** ** Python helpers *)

(** [l[:n]] for an arbitrary integer [n]: a negative bound counts from the
    end of the list. *)
Definition slice_to {A : Type} (n : Z) (l : list A) : list A :=
  if 0 <=? n then take (Z.to_nat n) l
  else take (length l - Z.to_nat (- n)) l.

(** Truth value of an optional string: [None] and [""] are falsy. *)
Definition truthy (o : option string) : bool :=
  match o with
  | Some s => negb (String.eqb s "")
  | None => false
  end.

(** [str(o or "")]. *)
Definition str_or_empty (o : option string) : string :=
  match o with
  | Some s => s
  | None => ""
  end.

(** [str.isspace] on an ASCII character: tab to carriage return, the four
    separators 28 to 31, and the space. *)
Definition is_space (c : ascii) : bool :=
  let n := nat_of_ascii c in
  ((9 <=? n)%nat && (n <=? 13)%nat) || ((28 <=? n)%nat && (n <=? 32)%nat).

Fixpoint lstrip (s : string) : string :=
  match s with
  | EmptyString => EmptyString
  | String c s' => if is_space c then lstrip s' else s
  end.

Fixpoint rstrip (s : string) : string :=
  match s with
  | EmptyString => EmptyString
  | String c s' =>
      match rstrip s' with
      | EmptyString => if is_space c then EmptyString else String c EmptyString
      | r => String c r
      end
  end.

(** [s.strip()] *)
Definition strip (s : string) : string := rstrip (lstrip s).

(** A text is blank when nothing is left of it once stripped. *)
Definition blank (g : string) : Prop := strip g = EmptyString.

(** [s.split(sep)] for a one-character separator: never an empty list. *)
Fixpoint split (sep : ascii) (s : string) : list string :=
  match s with
  | EmptyString => [EmptyString]
  | String c s' =>
      if Ascii.eqb c sep then EmptyString :: split sep s'
      else match split sep s' with
           | [] => [String c EmptyString]
           | w :: ws => String c w :: ws
           end
  end.

Definition lower_ascii (c : ascii) : ascii :=
  let n := nat_of_ascii c in
  if (65 <=? n)%nat && (n <=? 90)%nat then ascii_of_nat (n + 32) else c.

(** [s.lower()] *)
Fixpoint lower (s : string) : string :=
  match s with
  | EmptyString => EmptyString
  | String c s' => String (lower_ascii c) (lower s')
  end.

(** *** Floats

    A finite Python float is a binary64 number: an integer of at most 53
    bits times a power of two that is at least [2^-1074].  It is modelled by
    the rational it is, in lowest terms. *)

(** The integer nearest to [n / d], the even one of the two when [n / d] is
    half-way between them. *)
Definition round_half_even (n : Z) (d : positive) : Z :=
  let q := n / Z.pos d in
  let r := n mod Z.pos d in
  match 2 * r ?= Z.pos d with
  | Lt => q
  | Gt => q + 1
  | Eq => if Z.even q then q else q + 1
  end.

(** [x / 2^e] *)
Definition scale2 (x : Q) (e : Z) : Q :=
  if 0 <=? e then Qnum x # (Qden x * Z.to_pos (2 ^ e))
  else (Qnum x * 2 ^ (- e)) # Qden x.

(** The exponent of the last place of the float nearest to [x], [x] not
    zero: the [e] with [2^52 <= |x| / 2^e < 2^53], and [-1074] where that
    would be lower. *)
Definition ulp_exponent (x : Q) : Z :=
  let a := Z.abs (Qnum x) in
  let e0 := Z.log2 a - Z.log2 (Z.pos (Qden x)) - 52 in
  let y := scale2 (a # Qden x) e0 in
  let e := if Qnum y <? 2 ^ 52 * Z.pos (Qden y) then e0 - 1 else e0 in
  Z.max e (-1074).

(** The float nearest to [x], ties to even: the float a decimal literal of
    value [x] is read as, and [x] itself when [x] is a float.  This is the
    finite range: beyond the largest float, about 1.8e308, Python gives
    [inf], which no sum of the weights of a catalogue comes near. *)
Definition float_of (x : Q) : Q :=
  if Qnum x =? 0 then 0%Q
  else
    let e := ulp_exponent x in
    let y := scale2 x e in
    Qred (scale2 (round_half_even (Qnum y) (Qden y) # 1) (- e)).

(** [a + b] on floats: the exact sum, rounded to the nearest float. *)
Definition float_add (a b : Q) : Q := float_of (float_of a + float_of b).

(** A [collections.Counter] with floats as counts: the entries in insertion
    order, [c[k] += w] starting from zero for a new key. *)
Definition Counter (K : Type) : Type := list (K * Q).

Fixpoint counter_add {K : Type} `{EqDecision K} (k : K) (w : Q)
    (c : Counter K) : Counter K :=
  match c with
  | [] => [(k, float_add 0 w)]
  | (k', v) :: c' =>
      if decide (k = k') then (k', float_add v w) :: c'
      else (k', v) :: counter_add k w c'
  end.

(** ** A stable sort by key

    [sorted(rows, key=...)] and the multi-column [sort_values] are stable
    sorts; a stable sort is determined by its specification, so insertion
    from the right stands for both. *)
Section StableSort.
Context {A K : Type} (key : A → K) (leb : K → K → bool).

Fixpoint insert_by (x : A) (l : list A) : list A :=
  match l with
  | [] => [x]
  | y :: l' =>
      if leb (key x) (key y) then x :: y :: l' else y :: insert_by x l'
  end.

Fixpoint sorted_by (l : list A) : list A :=
  match l with
  | [] => []
  | x :: l' => insert_by x (sorted_by l')
  end.

Definition key_le (a b : A) : Prop := leb (key a) (key b) = true.

(** Elements whose key compares equal to [k] in the order. *)
Definition same_key (k : K) (a : A) : bool :=
  leb k (key a) && leb (key a) k.
End StableSort.

(** ** make_recs.py *)
Module MakeRecs.

(** *** Data model *)

(** Control parameters (module constants of the script). *)
Record Config := {
  related_per_seed : Z;
  top_per_artist : Z;
  target_tracks : Z;
  market : string;
}.

Definition default_config : Config :=
  {| related_per_seed := 12; top_per_artist := 6; target_tracks := 150;
     market := "PL" |}.

(** Artist, album and track objects of the provider's JSON. *)
Record Artist := { a_id : option string; a_name : option string }.
Record Album := { al_name : option string }.
Record Track := {
  t_id : option string;
  t_name : option string;
  t_artists : list Artist;
  t_album : option Album;
  t_popularity : option Z;
}.

(** A candidate row, as built by [as_row]. *)
Record Row := {
  track_id : option string;
  name : option string;
  artist_id : option string;
  artist_name : option string;
  album : option string;
  popularity : option Z;
  source : string;
}.

#[export] Instance Row_eq_dec : EqDecision Row.
Proof. solve_decision. Defined.

(** *** The provider and its calls

    The client [sp] is an external service: what a call returns may depend
    on every call made before it.  A run is a state transformer over the log
    of calls made so far. *)
Inductive Call :=
  | ArtistTopTracks (artist : string) (country : string)
  | ArtistRelatedArtists (artist : string).

#[export] Instance Call_eq_dec : EqDecision Call.
Proof. solve_decision. Defined.

(** Outcome of one call: a JSON object whose list field may be absent or
    null, or an exception. *)
Inductive Resp (A : Type) :=
  | Ok (payload : option A)
  | RaiseSpotifyException
  | RaiseException.
Arguments Ok {A} payload.
Arguments RaiseSpotifyException {A}.
Arguments RaiseException {A}.

Record Spotify := {
  artist_top_tracks : list Call → string → string → Resp (list Track);
  artist_related_artists : list Call → string → Resp (list Artist);
}.

Definition IO (A : Type) : Type := list Call → A * list Call.

#[export] Instance IO_ret : MRet IO := λ A x log, (x, log).
#[export] Instance IO_bind : MBind IO :=
  λ A B f m log, let '(a, log') := m log in f a log'.

(** Performs call [c] and hands its outcome, computed from the log so far,
    to the handler. *)
Definition call {A B : Type} (c : Call) (outcome : list Call → Resp A)
    (handler : Resp A → B) : IO B :=
  λ log, (handler (outcome log), log ++ [c]).

(** *** Spotify helpers *)

(** [try: return data.get(key, []) or [] except ...: return []] *)
Definition or_empty {A : Type} (r : Resp (list A)) : list A :=
  match r with
  | Ok (Some l) => l
  | Ok None => []
  | RaiseSpotifyException => []
  | RaiseException => []
  end.

Definition get_related (sp : Spotify) (artist : string) : IO (list Artist) :=
  call (ArtistRelatedArtists artist)
       (λ log, artist_related_artists sp log artist) or_empty.

Definition get_top_tracks (sp : Spotify) (artist : string) (mkt : string)
    : IO (list Track) :=
  call (ArtistTopTracks artist mkt)
       (λ log, artist_top_tracks sp log artist mkt) or_empty.

Definition tracks_from_artist (cfg : Config) (sp : Spotify) (artist : string)
    (per_artist : Z) : IO (list Track) :=
  tracks ← get_top_tracks sp artist (market cfg);
  mret (match tracks with
        | [] => []
        | _ => slice_to per_artist tracks
        end).

(** *** Rows and filters *)

Definition as_row (track : Track) (src : string) : Row :=
  let a0 := head (t_artists track) in
  {| track_id := t_id track;
     name := t_name track;
     artist_id := a0 ≫= a_id;
     artist_name := a0 ≫= a_name;
     album := t_album track ≫= al_name;
     popularity := t_popularity track;
     source := src |}.

(** [str(r.get("track_id") or "")] *)
Definition tid (r : Row) : string := str_or_empty (track_id r).

Fixpoint dedup_loop (rows : list Row) (seen : gset string) (out : list Row)
    : list Row :=
  match rows with
  | [] => out
  | r :: rest =>
      if negb (String.eqb (tid r) "") && bool_decide (tid r ∉ seen)
      then dedup_loop rest ({[tid r]} ∪ seen) (out ++ [r])
      else dedup_loop rest seen out
  end.

Definition dedup_rows (rows : list Row) : list Row := dedup_loop rows ∅ [].

(** The owned catalogue is read from [catalog.csv]; only its [track_id]
    column matters here: [None] when the frame has no such column (in
    particular when the file is missing or empty), otherwise the cells, a NaN
    cell being [None]. *)
Definition Catalog : Type := option (list (option string)).

(** [set(catalog_df["track_id"].dropna().astype(str).tolist())] *)
Definition owned_ids (catalog_df : Catalog) : gset string :=
  match catalog_df with
  | None => ∅
  | Some col => list_to_set (omap id col)
  end.

Definition remove_owned (rows : list Row) (catalog_df : Catalog) : list Row :=
  match catalog_df with
  | None => rows
  | Some [] => rows
  | Some _ =>
      let owned := owned_ids catalog_df in
      filter (λ r, tid r ∉ owned) rows
  end.

(** *** Ranking *)

Definition sort_key (r : Row) : Z * Z :=
  let pri := if String.eqb (source r) "seed_top" then 0 else 1 in
  let pop := default 0 (popularity r) in
  (pri, - pop).

(** Python's order on pairs of integers. *)
Definition tuple_leb (a b : Z * Z) : bool :=
  (a.1 <? b.1) || ((a.1 =? b.1) && (a.2 <=? b.2)).

Definition sort_rows (rows : list Row) : list Row :=
  sorted_by sort_key tuple_leb rows.

(** [if len(rows) > TARGET_TRACKS: rows = rows[:TARGET_TRACKS]] *)
Definition truncate (cfg : Config) (rows : list Row) : list Row :=
  if Z.of_nat (length rows) >? target_tracks cfg
  then slice_to (target_tracks cfg) rows
  else rows.

(** Everything [gen_for_seeds] does after the seed loop. *)
Definition post_process (cfg : Config) (catalog_df : Catalog)
    (rows : list Row) : list Row :=
  truncate cfg (sort_rows (remove_owned (dedup_rows rows) catalog_df)).

(** *** The seed loop *)

(** [[a.get("id") for a in related if a.get("id")]] *)
Definition related_ids (related : list Artist) : list string :=
  omap (λ a, if truthy (a_id a) then a_id a else None) related.

Definition tag (src : string) (tracks : list Track) : list Row :=
  map (λ t, as_row t src) tracks.

(** State of the collection: the raw rows and the set [used_artists]. *)
Definition Collected : Type := list Row * gset string.

Fixpoint related_loop (cfg : Config) (sp : Spotify) (rel_ids : list string)
    (st : Collected) : IO Collected :=
  match rel_ids with
  | [] => mret st
  | rid :: rest =>
      if bool_decide (rid ∈ st.2) then related_loop cfg sp rest st
      else
        tracks ← tracks_from_artist cfg sp rid (top_per_artist cfg);
        related_loop cfg sp rest
          (st.1 ++ tag "by_related_top" tracks, {[rid]} ∪ st.2)
  end.

(** One iteration of the loop over the seeds, up to the length check. *)
Definition seed_body (cfg : Config) (sp : Spotify) (seed : string)
    (st : Collected) : IO Collected :=
  tracks ← tracks_from_artist cfg sp seed (top_per_artist cfg);
  let st1 : Collected := (st.1 ++ tag "seed_top" tracks, st.2) in
  if related_per_seed cfg >? 0 then
    related ← get_related sp seed;
    let rel_ids := slice_to (related_per_seed cfg) (related_ids related) in
    related_loop cfg sp rel_ids st1
  else mret st1.

Fixpoint seed_loop (cfg : Config) (sp : Spotify) (seeds : list string)
    (st : Collected) : IO Collected :=
  match seeds with
  | [] => mret st
  | seed :: rest =>
      st' ← seed_body cfg sp seed st;
      if Z.of_nat (length st'.1) >=? target_tracks cfg * 2 then mret st'
      else seed_loop cfg sp rest st'
  end.

Record Meta := {
  meta_seeds : list string;
  collected : nat;
  per_artist_limit : Z;
  meta_related_per_seed : Z;
  meta_market : string;
}.

Definition gen_for_seeds (cfg : Config) (sp : Spotify)
    (seed_artist_ids : list string) (catalog_df : Catalog)
    : IO (list Row * Meta) :=
  st ← seed_loop cfg sp seed_artist_ids ([], ∅);
  let rows := post_process cfg catalog_df st.1 in
  mret (rows,
        {| meta_seeds := seed_artist_ids;
           collected := length rows;
           per_artist_limit := top_per_artist cfg;
           meta_related_per_seed := related_per_seed cfg;
           meta_market := market cfg |}).

(** The candidate list and the log of a run started with an empty log. *)
Definition candidates (cfg : Config) (sp : Spotify) (seeds : list string)
    (catalog_df : Catalog) : list Row :=
  (gen_for_seeds cfg sp seeds catalog_df []).1.1.

Definition calls_made (cfg : Config) (sp : Spotify) (seeds : list string)
    (catalog_df : Catalog) : list Call :=
  (gen_for_seeds cfg sp seeds catalog_df []).2.

(** *** Example inputs *)

(** A track with an id and a popularity, the other fields absent. *)
Definition track (i : string) (p : Z) : Track :=
  {| t_id := Some i; t_name := None; t_artists := []; t_album := None;
     t_popularity := Some p |}.

Definition artist (i : string) : Artist :=
  {| a_id := Some i; a_name := None |}.

(** A provider that answers from two tables whatever was called before, and
    raises for an artist it does not know: a [SpotifyException] for the top
    tracks, another exception for the related artists. *)
Definition table_provider (tops : list (string * list Track))
    (rels : list (string * list Artist)) : Spotify :=
  {| artist_top_tracks := λ _ a _,
       match list_find (λ e, e.1 = a) tops with
       | Some (_, e) => Ok (Some e.2)
       | None => RaiseSpotifyException
       end;
     artist_related_artists := λ _ a,
       match list_find (λ e, e.1 = a) rels with
       | Some (_, e) => Ok (Some e.2)
       | None => RaiseException
       end |}.

(** Scenario 3 of the specification. *)
Definition scenario3_cfg : Config :=
  {| related_per_seed := 0; top_per_artist := 3; target_tracks := 150;
     market := "PL" |}.

Definition scenario3_sp : Spotify :=
  table_provider
    [("a1", [track "t10" 10; track "t50" 50; track "t30" 30])] [].


(** Scenario 3 with a related artist [a0] whose every call fails. *)
Definition partly_failing_sp : Spotify :=
  table_provider
    [("a1", [track "t10" 10; track "t50" 50; track "t30" 30])]
    [("a1", [artist "a0"])].

(** Two seeds that share the related artist [r1]. *)
Definition shared_cfg : Config :=
  {| related_per_seed := 2; top_per_artist := 6; target_tracks := 150;
     market := "PL" |}.

Definition shared_sp : Spotify :=
  table_provider
    [("s1", [track "t1" 1]); ("s2", [track "t2" 2]);
     ("r1", [track "t3" 3]); ("r2", [track "t4" 4]); ("r3", [track "t5" 5])]
    [("s1", [artist "r1"]);
     ("s2", [artist "r1"; artist "r2"; artist "r3"])].

(** A first seed [s1] whose two calls fail, then a seed [s2] with one top
    track and one related artist [r1], which has one top track. *)
Definition failing_seed_sp : Spotify :=
  table_provider
    [("s2", [track "t1" 5]); ("r1", [track "t2" 90])]
    [("s2", [artist "r1"])].

(** The script's constants with the target set to zero. *)
Definition zero_target_cfg : Config :=
  {| related_per_seed := 12; top_per_artist := 6; target_tracks := 0;
     market := "PL" |}.

(** *** Descriptions used in the statements *)

(** The user owns the track [s]: [s] is the text of a cell of the
    [track_id] column of the catalogue. *)
Definition owns (catalog_df : Catalog) (s : string) : Prop :=
  ∃ col, catalog_df = Some col ∧ Some s ∈ col.

(** What a row shows of a track: its id, its popularity and its tag. *)
Definition shown (r : Row) : option string * option Z * string :=
  (track_id r, popularity r, source r).

Definition failed {A : Type} (r : Resp A) : Prop :=
  r = RaiseSpotifyException ∨ r = RaiseException.

(** The provider that answers an explicit empty list wherever [sp] raises,
    and as [sp] everywhere else. *)
Definition quiet {A : Type} (r : Resp (list A)) : Resp (list A) :=
  match r with
  | Ok p => Ok p
  | RaiseSpotifyException => Ok (Some [])
  | RaiseException => Ok (Some [])
  end.

Definition failure_free (sp : Spotify) : Spotify :=
  {| artist_top_tracks := λ log a m, quiet (artist_top_tracks sp log a m);
     artist_related_artists := λ log a,
       quiet (artist_related_artists sp log a) |}.

(** The ids of [ids] that are not in [used], each once, in order. *)
Fixpoint fresh_ids (used : gset string) (ids : list string) : list string :=
  match ids with
  | [] => []
  | rid :: rest =>
      if bool_decide (rid ∈ used) then fresh_ids used rest
      else rid :: fresh_ids ({[rid]} ∪ used) rest
  end.

(** The top tracks of each artist of a list, fetched in order. *)
Fixpoint fetch_each (cfg : Config) (sp : Spotify) (artists : list string)
    : IO (list (list Track)) :=
  match artists with
  | [] => mret []
  | a :: rest =>
      tracks ← tracks_from_artist cfg sp a (top_per_artist cfg);
      more ← fetch_each cfg sp rest;
      mret (tracks :: more)
  end.

(** The selection of related artists as the specification words it: the
    first [related_per_seed] ids among those not yet visited. *)
Definition spec_related_selection (cfg : Config) (visited : gset string)
    (ids : list string) : list string :=
  slice_to (related_per_seed cfg) (filter (λ rid, rid ∉ visited) ids).

End MakeRecs.

(** ** build_catalog.py *)
Module BuildCatalog.

(** *** Data model *)

(** A row of [saved_tracks.csv], [top_tracks.csv] or [recently_played.csv]
    once its text columns went through [astype(str)]; a cell is a text, or
    [None] when it is NaN.  The columns the script only carries along are
    left out. *)
Record RawRow := {
  raw_track_id : option string;
  raw_artist_id : option string;
  raw_artist_name : option string;
  raw_time_range : option string;
}.

(** A row of [artists.csv]. *)
Record ArtistMeta := {
  meta_artist_id : option string;
  meta_artist_name : option string;
  meta_genres : option string;
}.

(** A row of [all_rows]. *)
Record CatRow := {
  track_id : option string;
  artist_id : option string;
  artist_name : option string;
  source : string;
  time_range : option string;
  genres : option string;
  weight : Q;
}.

(** *** Sources and weights *)

Definition tag_saved (r : RawRow) : CatRow :=
  {| track_id := raw_track_id r; artist_id := raw_artist_id r;
     artist_name := raw_artist_name r; source := "saved";
     time_range := raw_time_range r; genres := None; weight := 1 |}.

(** [{"short_term": 2.0, "medium_term": 1.6, "long_term": 1.3}], and 1.5
    for any other or missing bucket. *)
Definition weight_top (bucket : option string) : Q :=
  match bucket with
  | Some b =>
      if String.eqb b "short_term" then 2
      else if String.eqb b "medium_term" then 16 # 10
      else if String.eqb b "long_term" then 13 # 10
      else 15 # 10
  | None => 15 # 10
  end.

Definition tag_top (r : RawRow) : CatRow :=
  {| track_id := raw_track_id r; artist_id := raw_artist_id r;
     artist_name := raw_artist_name r; source := "top";
     time_range := raw_time_range r; genres := None;
     weight := weight_top (raw_time_range r) |}.

Definition tag_recent (r : RawRow) : CatRow :=
  {| track_id := raw_track_id r; artist_id := raw_artist_id r;
     artist_name := raw_artist_name r; source := "recent";
     time_range := raw_time_range r; genres := None; weight := 22 # 10 |}.

(** [pd.concat(frames, ignore_index=True)] over the non-empty frames; every
    frame kept has been given its weights, so the later
    [fillna(1.0)] on the weight column changes nothing. *)
Definition concat_frames (saved top recent : list RawRow) : list CatRow :=
  map tag_saved saved ++ map tag_top top ++ map tag_recent recent.

(** *** Artist metadata: the left join on [artist_id] *)

(** First row of [artists.csv] with the given id, the ids, names and genres
    having been through [fillna("")]. *)
Fixpoint lookup_artist (artists : list ArtistMeta) (aid : string)
    : option ArtistMeta :=
  match artists with
  | [] => None
  | a :: rest =>
      if String.eqb (str_or_empty (meta_artist_id a)) aid then Some a
      else lookup_artist rest aid
  end.

(** The row with the given genres and artist name. *)
Definition set_meta (g n : option string) (r : CatRow) : CatRow :=
  {| track_id := track_id r; artist_id := artist_id r;
     artist_name := n; source := source r;
     time_range := time_range r; genres := g; weight := weight r |}.

(** The row of [artists.csv] a catalogue row is joined with: none for a NaN
    [artist_id], which equals no id of the filled column. *)
Definition artist_of (artists : list ArtistMeta) (r : CatRow)
    : option ArtistMeta :=
  aid ← artist_id r; lookup_artist artists aid.

(** [fillna]: the cell, or the other one where the cell is NaN. *)
Definition fillna (cell other : option string) : option string :=
  match cell with
  | Some s => Some s
  | None => other
  end.

(** The left join: a row takes the genres of its artist, and the artist's
    name where it has none of its own; without [artists.csv] the genres are
    the empty text. *)
Definition merge_artists (artists : list ArtistMeta) (rows : list CatRow)
    : list CatRow :=
  match artists with
  | [] => map (λ r, set_meta (Some EmptyString) (artist_name r) r) rows
  | _ =>
      map (λ r,
             let a := artist_of artists r in
             set_meta
               (str_or_empty ∘ meta_genres <$> a)
               (fillna (artist_name r)
                       (str_or_empty ∘ meta_artist_name <$> a)) r) rows
  end.

(** *** The canonical catalogue *)

(** Order of the [track_id] column, NaN cells last. *)
Definition track_id_compare (a b : option string) : comparison :=
  match a, b with
  | Some x, Some y => String.compare x y
  | Some _, None => Lt
  | None, Some _ => Gt
  | None, None => Eq
  end.

Definition catalog_key (r : CatRow) : option string * Q :=
  (track_id r, weight r).

(** [sort_values(["track_id","weight"], ascending=[True, False])] *)
Definition catalog_leb (a b : option string * Q) : bool :=
  match track_id_compare a.1 b.1 with
  | Lt => true
  | Eq => Qle_bool b.2 a.2
  | Gt => false
  end.

(** [drop_duplicates(subset=["track_id"], keep="first")] *)
Fixpoint drop_duplicates_loop (rows : list CatRow)
    (seen : gset (option string)) : list CatRow :=
  match rows with
  | [] => []
  | r :: rest =>
      if bool_decide (track_id r ∈ seen) then drop_duplicates_loop rest seen
      else r :: drop_duplicates_loop rest ({[track_id r]} ∪ seen)
  end.

Definition drop_duplicates (rows : list CatRow) : list CatRow :=
  drop_duplicates_loop rows ∅.

Definition canonicalize (all_rows : list CatRow) : list CatRow :=
  drop_duplicates (sorted_by catalog_key catalog_leb all_rows).

(** *** The profile *)

Definition split_genres (x : option string) : list string :=
  match x with
  | None => []
  | Some s =>
      if String.eqb (strip s) "" then []
      else
        omap (λ g, if String.eqb (strip g) "" then None else Some (strip g))
             (split "," s)
  end.

(** Truth value of a cell: a text is true unless it is empty; NaN, a float
    other than zero, is true. *)
Definition cell_truthy (c : option string) : bool :=
  match c with
  | Some s => negb (String.eqb s "")
  | None => true
  end.

(** [c or ""] for a cell [c]. *)
Definition cell_or_empty (c : option string) : option string :=
  if cell_truthy c then c else Some EmptyString.

(** The two counters, [artist_counter] and [genre_counter].  A key of the
    first is a pair of cells; the NaN cells of a frame are one and the same
    object, so that two such keys are equal when they are equal here. *)
Definition Counters : Type :=
  Counter (option string * option string) * Counter string.

Definition add_genres (w : Q) (gs : list string) (c : Counter string)
    : Counter string :=
  foldl (λ c g, counter_add g w c) c gs.

(** [float(row.get("weight", 1.0) or 1.0)] *)
Definition row_weight (row : CatRow) : Q :=
  if Qeq_bool (weight row) 0 then 1%Q else weight row.

(** The key [(a_id, a_nm)] of a row in [artist_counter]. *)
Definition artist_key (row : CatRow) : option string * option string :=
  (artist_id row, cell_or_empty (artist_name row)).

(** Body of the loop over the rows of the catalogue. *)
Definition aggregate_row (st : Counters) (row : CatRow) : Counters :=
  let w := row_weight row in
  let artist_counter :=
    if cell_truthy (artist_id row) then counter_add (artist_key row) w st.1
    else st.1 in
  (artist_counter, add_genres w (split_genres (genres row)) st.2).

Definition aggregate (rows : list CatRow) : Counters :=
  foldl aggregate_row ([], []) rows.

(** [Counter.most_common(n)]: by count, largest first, ties in insertion
    order. *)
Definition most_common {K : Type} (n : nat) (c : Counter K) : list (K * Q) :=
  take n (sorted_by snd (λ a b, Qle_bool b a) c).

Record Profile := {
  top_artists : list (option string * option string * Q);
  top_genres : list (string * Q);
}.

(** [main], from the frames read to the catalogue and the profile; [None]
    when all three listening frames are empty. *)
Definition main (saved top recent : list RawRow) (artists : list ArtistMeta)
    : option (list CatRow * Profile) :=
  match concat_frames saved top recent with
  | [] => None
  | all_rows =>
      let catalog := canonicalize (merge_artists artists all_rows) in
      let counters := aggregate catalog in
      Some (catalog,
            {| top_artists := most_common 15 counters.1;
               top_genres := most_common 20 counters.2 |})
  end.


(** *** Example inputs *)

Definition raw_row (t a n : string) : RawRow :=
  {| raw_track_id := Some t; raw_artist_id := Some a;
     raw_artist_name := Some n; raw_time_range := None |}.

(** A catalogue row of weight 1 with the given artist and genres. *)
Definition cat_row (t a n : string) (g : option string) : CatRow :=
  {| track_id := Some t; artist_id := Some a; artist_name := Some n;
     source := "saved"; time_range := None; genres := g; weight := 1 |}.

(** A catalogue row of the given weight. *)
Definition weighted_row (t a n : string) (w : Q) : CatRow :=
  {| track_id := Some t; artist_id := Some a; artist_name := Some n;
     source := "top"; time_range := None; genres := None; weight := w |}.


(** A row of [top_tracks.csv] with its time range. *)
Definition top_row (t a n bucket : string) : RawRow :=
  {| raw_track_id := Some t; raw_artist_id := Some a;
     raw_artist_name := Some n; raw_time_range := Some bucket |}.

(** One saved track and two long-term top tracks of the artist [aY]
    (weights 1.0, 1.3 and 1.3), after them a short-term and a medium-term
    top track of the artist [aX] (weights 2.0 and 1.6). *)
Definition close_scores_saved : list RawRow := [raw_row "t1" "aY" "Y"].

Definition close_scores_top : list RawRow :=
  [top_row "t2" "aY" "Y" "long_term"; top_row "t3" "aY" "Y" "long_term";
   top_row "t4" "aX" "X" "short_term"; top_row "t5" "aX" "X" "medium_term"].

(** [artists.csv] for them: [aY] plays rock, [aX] plays pop. *)
Definition close_scores_artists : list ArtistMeta :=
  [{| meta_artist_id := Some "aY"; meta_artist_name := Some "Y";
      meta_genres := Some "rock" |};
   {| meta_artist_id := Some "aX"; meta_artist_name := Some "X";
      meta_genres := Some "pop" |}].

(** Three listening records of the artist [aY], the first without a name,
    and one of an artist that [artists.csv] does not list. *)
Definition unnamed_rows : list CatRow :=
  [{| track_id := Some "t1"; artist_id := Some "aY"; artist_name := None;
      source := "saved"; time_range := None; genres := None; weight := 1 |};
   weighted_row "t2" "aY" "Z" 1;
   {| track_id := Some "t3"; artist_id := Some "aW"; artist_name := None;
      source := "saved"; time_range := None; genres := None; weight := 1 |}].



(** The floats 3.5999999999999996 and 3.6. *)
Definition float_3_5999999999999996 : Q :=
  2026619832316723 # 562949953421312.

Definition float_3_6 : Q := 8106479329266893 # 2251799813685248.

End BuildCatalog.

(** ** compare_recs.py *)
Module CompareRecs.

(** A row of [artists.csv] as [read_csv] gives it. *)
Record ArtistsRow := {
  artist_id : option string;
  genres : option string;
}.

(** [str(cell)], a NaN cell printing as [nan]. *)
Definition str_cell (o : option string) : string := default "nan" o.

(** The genre list of one row. *)
Definition genre_list (val : option string) : list string :=
  match val with
  | None => []
  | Some s =>
      if String.eqb (strip s) "" then []
      else
        omap (λ g,
                if negb (String.eqb (strip g) "")
                   && negb (String.eqb (lower (strip g)) "nan")
                then Some (strip g) else None)
             (split "," s)
  end.

Definition genres_map_from_artists (artists_df : list ArtistsRow)
    : gmap string (list string) :=
  foldl (λ gm row, <[str_cell (artist_id row) := genre_list (genres row)]> gm)
        ∅ artists_df.

End CompareRecs.

(** ** Further Python helpers *)

(** [sep.join(l)] *)
Fixpoint join (sep : string) (l : list string) : string :=
  match l with
  | [] => EmptyString
  | [x] => x
  | x :: rest => x +:+ sep +:+ join sep rest
  end.

(** [Counter(iterable)]: the number of occurrences of each element, the
    entries in the order the elements first occur. *)
Definition Tally (K : Type) : Type := list (K * nat).

Fixpoint tally_add {K : Type} `{EqDecision K} (k : K) (c : Tally K)
    : Tally K :=
  match c with
  | [] => [(k, 1%nat)]
  | (k', n) :: c' =>
      if decide (k = k') then (k', S n) :: c' else (k', n) :: tally_add k c'
  end.

Definition tally {K : Type} `{EqDecision K} (l : list K) : Tally K :=
  foldl (λ c k, tally_add k c) [] l.

(** How many times [k] occurs in [l]. *)
Definition occurrences {K : Type} `{EqDecision K} (k : K) (l : list K) : nat :=
  length (filter (λ x, x = k) l).

(** [Counter.most_common(n)] for an integer [n]: the [n] entries of largest
    count, ties in insertion order; nothing when [n] is zero or negative. *)
Definition tally_most_common {K : Type} (n : Z) (c : Tally K)
    : list (K * nat) :=
  take (Z.to_nat n) (sorted_by snd (λ a b, Nat.leb b a) c).

(** Whether the character [c] occurs in [s]. *)
Fixpoint has_char (c : ascii) (s : string) : bool :=
  match s with
  | EmptyString => false
  | String d s' => Ascii.eqb d c || has_char c s'
  end.

(** A sum of weights taken from left to right, starting from zero, as a
    loop of [+=] computes it on floats. *)
Definition sum_in_order (ws : list Q) : Q := foldl float_add 0%Q ws.

(** The weights paired with the key [k], in the order of the pairs. *)
Definition weights_of {K : Type} `{EqDecision K} (k : K)
    (pairs : list (K * Q)) : list Q :=
  snd <$> filter (λ p, p.1 = k) pairs.

(** The counter a loop of [c[k] += w] builds from the pairs [(k, w)] it
    meets. *)
Definition counter_of_pairs {K : Type} `{EqDecision K} (pairs : list (K * Q))
    : Counter K :=
  foldl (λ c p, counter_add p.1 p.2 c) [] pairs.

(** ** build_catalog.py: what the loop over the catalogue adds up *)
Module Scores.
Import BuildCatalog.

(** The pair a row adds to [artist_counter], if any. *)
Definition artist_pair (row : CatRow)
    : option (option string * option string * Q) :=
  if cell_truthy (artist_id row) then Some (artist_key row, row_weight row)
  else None.

(** The pairs a row adds to [genre_counter], one for each of its genres. *)
Definition genre_pairs (row : CatRow) : list (string * Q) :=
  map (λ g, (g, row_weight row)) (split_genres (genres row)).

End Scores.

(** ** make_recs.py: the seeds and [main] *)
Module SeedSelection.
Import MakeRecs.

(** [SEEDS_HISTORY_MAX] and [SEEDS_PREFS_MAX]. *)
Record SeedConfig := {
  seeds_history_max : Z;
  seeds_prefs_max : Z;
}.

Definition default_seed_config : SeedConfig :=
  {| seeds_history_max := 12; seeds_prefs_max := 12 |}.

(** What the script reads of [profile.json]: the [artist_id] of each item of
    [top_artists], and [seeds.artist_ids]; [None] for a key that is absent
    or null (both for a missing file). *)
Record ProfileJson := {
  pj_top_artists : option (list (option string));
  pj_seed_artist_ids : option (list string);
}.

(** The stripped text, unless nothing is left of it. *)
Definition nonblank (s : string) : option string :=
  if String.eqb (strip s) "" then None else Some (strip s).

Definition pick_top_artists_from_profile (profile : ProfileJson) (n : Z)
    : list string :=
  let top := default [] (pj_top_artists profile) in
  let out := omap (λ item, nonblank (str_or_empty item)) top in
  let out :=
    match out with
    | [] => omap nonblank (default [] (pj_seed_artist_ids profile))
    | _ => out
    end in
  slice_to n out.

(** The [artist_id] column of [saved_tracks.csv]: [None] when the frame has
    no such column, a NaN cell being [None]. *)
Definition SavedFrame : Type := option (list (option string)).

Definition pick_top_artists_from_saved (saved_df : SavedFrame) (n : Z)
    : list string :=
  match saved_df with
  | None => []
  | Some [] => []
  | Some col => (tally_most_common n (tally (omap id col))).*1
  end.

(** What [main] writes: the two recommendation lists and, in
    [recs_meta.json], the seeds of each. *)
Record Output := {
  recs_history : list Row;
  recs_prefs : list Row;
  out_seeds_history : list string;
  out_seeds_prefs : list string;
}.

Definition main (cfg : Config) (scfg : SeedConfig) (sp : Spotify)
    (profile : ProfileJson) (catalog : Catalog) (saved : SavedFrame)
    : IO Output :=
  let seeds_history :=
    pick_top_artists_from_profile profile (seeds_history_max scfg) in
  let seeds_prefs :=
    pick_top_artists_from_saved saved (seeds_prefs_max scfg) in
  let seeds_prefs :=
    match seeds_prefs with
    | [] => slice_to (seeds_prefs_max scfg) seeds_history
    | _ => seeds_prefs
    end in
  hist ← gen_for_seeds cfg sp seeds_history catalog;
  prefs ← gen_for_seeds cfg sp seeds_prefs catalog;
  mret {| recs_history := hist.1; recs_prefs := prefs.1;
          out_seeds_history := seeds_history;
          out_seeds_prefs := seeds_prefs |}.

End SeedSelection.

(** ** compare_recs.py: flags, diversity and overlap *)
Module CompareMetrics.

(** A row of [recs_history.csv] or [recs_prefs.csv] as read back; the
    columns the script only carries along are left out. *)
Record RecRow := {
  rec_track_id : option string;
  rec_artist_id : option string;
  rec_artist_name : option string;
}.

(** A row with its flags. *)
Record Flagged := {
  which : string;
  track_id : string;
  artist_id : string;
  artist_name : option string;
  in_catalog : bool;
  genres_join : string;
}.

Definition attach_flags (df : list RecRow) (list_name : string)
    (seen_ids : gset string) (gmap : gmap string (list string))
    : list Flagged :=
  match df with
  | [] => []
  | _ =>
      map (λ r,
             let t := CompareRecs.str_cell (rec_track_id r) in
             let a := CompareRecs.str_cell (rec_artist_id r) in
             {| which := list_name;
                track_id := t;
                artist_id := a;
                artist_name := rec_artist_name r;
                in_catalog := bool_decide (t ∈ seen_ids);
                genres_join := join ", " (default [] (gmap !! a)) |}) df
  end.

(** The tokens [diversity_metrics] reads back from one [genres_join]. *)
Definition genre_tokens (s : string) : list string :=
  if String.eqb s "" then []
  else
    omap (λ g,
            if negb (String.eqb (strip g) "")
               && negb (String.eqb (lower (strip g)) "nan")
            then Some (strip g) else None)
         (split "," s).

Record Metrics := {
  tracks : nat;
  unique_artists : nat;
  unique_genres : nat;
  top_artists : list (string * nat);
  top_genres : list (string * nat);
}.

Definition diversity_metrics (df : list Flagged) : Metrics :=
  match df with
  | [] =>
      {| tracks := 0; unique_artists := 0; unique_genres := 0;
         top_artists := []; top_genres := [] |}
  | _ =>
      let genres_all := concat (map (λ r, genre_tokens (genres_join r)) df) in
      let c_gen := tally genres_all in
      let c_art := tally (map (λ r, str_or_empty (artist_name r)) df) in
      {| tracks := length df;
         unique_artists := size (list_to_set (map artist_id df) : gset string);
         unique_genres := length c_gen;
         top_artists := tally_most_common 5 c_art;
         top_genres := tally_most_common 5 c_gen |}
  end.

(** The integer fields of the summary; the ratios the script derives from
    them by a float division are left out. *)
Record Summary := {
  history : Metrics;
  history_new : nat;
  prefs : Metrics;
  prefs_new : nat;
  overlap_tracks : nat;
}.

Record Report := {
  summary : Summary;
  details : list Flagged;
  overlap : list Flagged;
}.

(** The ids of two flagged lists that occur in both. *)
Definition overlap_ids (hist_f prefs_f : list Flagged) : gset string :=
  list_to_set (map track_id hist_f) ∩ list_to_set (map track_id prefs_f).

(** [(~df["in_catalog"]).sum()] *)
Definition count_new (df : list Flagged) : nat :=
  length (filter (λ r, in_catalog r = false) df).

(** [main], from the frames read to what it writes; [None] when both
    recommendation lists are empty.  The catalogue is the [track_id] column
    of [catalog.csv], as in [make_recs.py]. *)
Definition main (hist prefs : list RecRow) (catalog : MakeRecs.Catalog)
    (artists_df : list CompareRecs.ArtistsRow) : option Report :=
  match hist, prefs with
  | [], [] => None
  | _, _ =>
      let seen_ids := MakeRecs.owned_ids catalog in
      let gmap := CompareRecs.genres_map_from_artists artists_df in
      let hist_f := attach_flags hist "history" seen_ids gmap in
      let prefs_f := attach_flags prefs "prefs" seen_ids gmap in
      let ids := overlap_ids hist_f prefs_f in
      Some {| summary :=
                {| history := diversity_metrics hist_f;
                   history_new := count_new hist_f;
                   prefs := diversity_metrics prefs_f;
                   prefs_new := count_new prefs_f;
                   overlap_tracks := size ids |};
              details := hist_f ++ prefs_f;
              overlap := filter (λ r, track_id r ∈ ids) hist_f
                         ++ filter (λ r, track_id r ∈ ids) prefs_f |}
  end.

End CompareMetrics.

(** * Properties *)

(** ** The stable sort *)
Section StableSortFacts.
Context {A K : Type} (key : A → K) (leb : K → K → bool).

Local Abbreviation ins := (insert_by key leb).
Local Abbreviation srt := (sorted_by key leb).
Local Abbreviation le := (key_le key leb).
Local Abbreviation same := (same_key key leb).

Lemma insert_by_perm x l : ins x l ≡ₚ x :: l.
Proof.
  induction l as [|y l IH]; simpl; [done|].
  destruct (leb (key x) (key y)); [done|].
  rewrite IH. apply Permutation_swap.
Qed.

Lemma sorted_by_perm l : srt l ≡ₚ l.
Proof.
  induction l as [|x l IH]; simpl; [done|].
  by rewrite insert_by_perm, IH.
Qed.

Lemma sorted_by_length l : length (srt l) = length l.
Proof. by rewrite sorted_by_perm. Qed.

Lemma elem_of_sorted_by x l : x ∈ srt l ↔ x ∈ l.
Proof. by rewrite sorted_by_perm. Qed.

Hypothesis leb_total : ∀ a b, leb a b = true ∨ leb b a = true.
Hypothesis leb_trans :
  ∀ a b c, leb a b = true → leb b c = true → leb a c = true.

Lemma insert_by_sorted x l : StronglySorted le l → StronglySorted le (ins x l).
Proof.
  induction 1 as [|y l Hl IH Hy]; simpl.
  - repeat constructor.
  - destruct (leb (key x) (key y)) eqn:Hxy.
    + constructor; [by constructor|].
      constructor; [done|].
      eapply Forall_impl; [exact Hy|]. intros z Hz.
      unfold key_le in *. eauto.
    + constructor; [done|].
      rewrite insert_by_perm. constructor; [|done].
      unfold key_le. destruct (leb_total (key x) (key y)); congruence.
Qed.

Lemma sorted_by_sorted l : StronglySorted le (srt l).
Proof.
  induction l; simpl; [constructor|by apply insert_by_sorted].
Qed.

(** Stability: the elements of one key class come out in the order they
    went in. *)
Lemma insert_by_stable k x l :
  filter (λ a, same k a) (ins x l) = filter (λ a, same k a) (x :: l).
Proof.
  induction l as [|y l IH]; simpl; [done|].
  destruct (leb (key x) (key y)) eqn:Hxy; [done|].
  rewrite filter_cons, IH, !filter_cons.
  destruct (decide (same k y)) as [Hy|Hy];
    destruct (decide (same k x)) as [Hx|Hx]; try done.
  unfold same_key in Hx, Hy.
  apply Is_true_true, andb_true_iff in Hx as [_ Hx].
  apply Is_true_true, andb_true_iff in Hy as [Hy _].
  rewrite (leb_trans _ _ _ Hx Hy) in Hxy. done.
Qed.

Lemma sorted_by_stable k l :
  filter (λ a, same k a) (srt l) = filter (λ a, same k a) l.
Proof.
  induction l as [|x l IH]; simpl; [done|].
  by rewrite insert_by_stable, !filter_cons, IH.
Qed.
End StableSortFacts.

(** ** Slices *)
Lemma slice_to_take {A : Type} (n : Z) (l : list A) :
  ∃ k, slice_to n l = take k l.
Proof. unfold slice_to. destruct (0 <=? n); eauto. Qed.

Lemma StronglySorted_mono {A : Type} (R1 R2 : A → A → Prop) (l : list A) :
  (∀ a b, R1 a b → R2 a b) → StronglySorted R1 l → StronglySorted R2 l.
Proof.
  intros HR. induction 1 as [|x l _ IH Hx]; constructor; [done|].
  eapply Forall_impl; [exact Hx|]. auto.
Qed.

Lemma Forall_sublist_of {A : Type} (P : A → Prop) (l k : list A) :
  Forall P k → l `sublist_of` k → Forall P l.
Proof.
  rewrite !Forall_forall. intros HP Hsub x Hx.
  eapply HP, elem_of_sublist; eauto.
Qed.

Lemma Forall_filter_of {A : Type} (P Q : A → Prop) `{∀ x, Decision (Q x)}
    (l : list A) :
  Forall P l → Forall P (filter Q l).
Proof.
  rewrite !Forall_forall. intros HP x [_ Hx]%list_elem_of_filter. auto.
Qed.

Lemma slice_to_length_le {A : Type} (n : Z) (l : list A) :
  0 ≤ n → Z.of_nat (length (slice_to n l)) ≤ n.
Proof.
  intros Hn. unfold slice_to.
  destruct (Z.leb_spec 0 n); [|lia]. rewrite length_take. lia.
Qed.


(** ** make_recs.py: the post-collection pipeline *)
Module MakeRecsFacts.
Import MakeRecs.

Lemma tuple_leb_le a b :
  tuple_leb a b = true ↔ a.1 < b.1 ∨ (a.1 = b.1 ∧ a.2 ≤ b.2).
Proof.
  unfold tuple_leb.
  rewrite orb_true_iff, andb_true_iff, Z.ltb_lt, Z.eqb_eq, Z.leb_le. done.
Qed.

Lemma tuple_leb_total a b : tuple_leb a b = true ∨ tuple_leb b a = true.
Proof. rewrite !tuple_leb_le. lia. Qed.

Lemma tuple_leb_trans a b c :
  tuple_leb a b = true → tuple_leb b c = true → tuple_leb a c = true.
Proof. rewrite !tuple_leb_le. lia. Qed.

Lemma tuple_leb_antisym a b :
  tuple_leb a b && tuple_leb b a ↔ a = b.
Proof.
  rewrite andb_True, !Is_true_true, !tuple_leb_le.
  destruct a, b; simpl. split; [intros; f_equal; lia|].
  intros [= -> ->]. lia.
Qed.

(** *** De-duplication *)

Lemma dedup_loop_out rows seen out :
  dedup_loop rows seen out = out ++ dedup_loop rows seen [].
Proof.
  revert seen out. induction rows as [|r rows IH]; intros seen out; simpl.
  - by rewrite app_nil_r.
  - destruct (negb (String.eqb (tid r) "") && bool_decide (tid r ∉ seen)).
    + rewrite IH, (IH _ [r]). by rewrite <-app_assoc.
    + apply IH.
Qed.

Lemma dedup_loop_cons r rows seen :
  dedup_loop (r :: rows) seen [] =
    if negb (String.eqb (tid r) "") && bool_decide (tid r ∉ seen)
    then r :: dedup_loop rows ({[tid r]} ∪ seen) []
    else dedup_loop rows seen [].
Proof.
  simpl. destruct (negb _ && _); [|done]. by rewrite dedup_loop_out.
Qed.

Lemma dedup_loop_Forall rows seen :
  Forall (λ r, tid r ≠ "" ∧ tid r ∉ seen) (dedup_loop rows seen []).
Proof.
  revert seen. induction rows as [|r rows IH]; intros seen.
  - constructor.
  - rewrite dedup_loop_cons.
    destruct (negb _ && _) eqn:Hc; [|apply IH].
    apply andb_true_iff in Hc as [Hne Hns].
    apply negb_true_iff, String.eqb_neq in Hne.
    apply bool_decide_eq_true in Hns.
    constructor; [done|].
    eapply Forall_impl; [apply IH|]. simpl. intros r' [? Hr'].
    split; [done|]. intros ?. apply Hr', elem_of_union. by right.
Qed.

Lemma dedup_loop_sublist rows seen : dedup_loop rows seen [] `sublist_of` rows.
Proof.
  revert seen. induction rows as [|r rows IH]; intros seen.
  - done.
  - rewrite dedup_loop_cons. destruct (negb _ && _).
    + by apply sublist_skip.
    + by apply sublist_cons.
Qed.

Lemma dedup_loop_NoDup rows seen : NoDup (tid <$> dedup_loop rows seen []).
Proof.
  revert seen. induction rows as [|r rows IH]; intros seen.
  - constructor.
  - rewrite dedup_loop_cons. destruct (negb _ && _); [|apply IH].
    rewrite fmap_cons. constructor; [|apply IH].
    intros (r' & Heq & Hin)%list_elem_of_fmap.
    pose proof (dedup_loop_Forall rows ({[tid r]} ∪ seen)) as HF.
    rewrite Forall_forall in HF. destruct (HF _ Hin) as [_ Hnot].
    apply Hnot, elem_of_union. left. by apply elem_of_singleton.
Qed.

(** Rows with distinct, non-empty, unseen ids all pass. *)
Lemma dedup_loop_id rows seen :
  NoDup (tid <$> rows) →
  Forall (λ r, tid r ≠ "" ∧ tid r ∉ seen) rows →
  dedup_loop rows seen [] = rows.
Proof.
  revert seen. induction rows as [|r rows IH]; intros seen Hnd HF; [done|].
  rewrite dedup_loop_cons.
  apply Forall_cons in HF as [[Hne Hns] HF].
  rewrite fmap_cons in Hnd. apply NoDup_cons in Hnd as [Hnotin Hnd].
  apply String.eqb_neq in Hne. rewrite Hne, bool_decide_eq_true_2 by done.
  simpl. f_equal. apply IH; [done|].
  rewrite Forall_forall in HF |- *. intros r' Hr'.
  destruct (HF _ Hr') as [? ?]. split; [done|].
  assert (tid r' ≠ tid r) as Hne'.
  { intros Heq. apply Hnotin. rewrite <-Heq. by apply list_elem_of_fmap_2. }
  rewrite elem_of_union, elem_of_singleton. tauto.
Qed.

(** *** Ownership filter *)

Lemma filter_all {A : Type} (P : A → Prop) `{∀ x, Decision (P x)} l :
  Forall P l → filter P l = l.
Proof.
  induction 1 as [|x l Hx _ IH]; [done|].
  by rewrite filter_cons_True, IH.
Qed.

Lemma remove_owned_filter rows catalog_df :
  remove_owned rows catalog_df
  = filter (λ r, tid r ∉ owned_ids catalog_df) rows.
Proof.
  destruct catalog_df as [[|c col]|]; unfold remove_owned; [|done|];
    symmetry; apply filter_all, Forall_forall; intros r _; simpl;
    apply not_elem_of_empty.
Qed.

(** *** Truncation *)

Lemma truncate_take cfg rows : ∃ k, truncate cfg rows = take k rows.
Proof.
  unfold truncate. destruct (_ >? _).
  - apply slice_to_take.
  - exists (length rows). by rewrite take_ge.
Qed.

Lemma truncate_length cfg rows :
  0 ≤ target_tracks cfg →
  Z.of_nat (length (truncate cfg rows)) ≤ target_tracks cfg.
Proof.
  intros Ht. unfold truncate.
  destruct (Z.gtb_spec (Z.of_nat (length rows)) (target_tracks cfg)).
  - by apply slice_to_length_le.
  - done.
Qed.

(** *** The pipeline as a whole *)

Lemma sort_rows_perm rows : sort_rows rows ≡ₚ rows.
Proof. apply sorted_by_perm. Qed.

Lemma post_process_sublist cfg catalog_df raw :
  ∃ ranked, post_process cfg catalog_df raw `sublist_of` ranked
            ∧ ranked ≡ₚ remove_owned (dedup_rows raw) catalog_df.
Proof.
  exists (sort_rows (remove_owned (dedup_rows raw) catalog_df)).
  split; [|apply sort_rows_perm].
  unfold post_process. destruct (truncate_take cfg
    (sort_rows (remove_owned (dedup_rows raw) catalog_df))) as [k ->].
  apply sublist_take.
Qed.

Lemma post_process_Forall (P : Row → Prop) cfg catalog_df raw :
  Forall P (dedup_rows raw) → Forall P (post_process cfg catalog_df raw).
Proof.
  intros HP. destruct (post_process_sublist cfg catalog_df raw)
    as (ranked & Hsub & Hperm).
  eapply Forall_sublist_of; [|exact Hsub]. rewrite Hperm.
  rewrite remove_owned_filter. by apply Forall_filter_of.
Qed.

Lemma gen_for_seeds_rows cfg sp seeds catalog_df log :
  (gen_for_seeds cfg sp seeds catalog_df log).1.1
  = post_process cfg catalog_df (seed_loop cfg sp seeds ([], ∅) log).1.1.
Proof.
  unfold gen_for_seeds, mbind, IO_bind.
  by destruct (seed_loop cfg sp seeds ([], ∅) log).
Qed.

Lemma gen_for_seeds_log cfg sp seeds catalog_df log :
  (gen_for_seeds cfg sp seeds catalog_df log).2
  = (seed_loop cfg sp seeds ([], ∅) log).2.
Proof.
  unfold gen_for_seeds, mbind, IO_bind.
  by destruct (seed_loop cfg sp seeds ([], ∅) log).
Qed.

Lemma seed_loop_single cfg sp seed st log :
  seed_loop cfg sp [seed] st log = seed_body cfg sp seed st log.
Proof.
  simpl. unfold mbind, IO_bind.
  destruct (seed_body cfg sp seed st log) as [st' log'].
  by destruct (_ >=? _).
Qed.

Lemma sort_rows_sorted rows :
  StronglySorted (key_le sort_key tuple_leb) (sort_rows rows).
Proof.
  apply sorted_by_sorted; [apply tuple_leb_total|apply tuple_leb_trans].
Qed.

Lemma sort_rows_stable k rows :
  filter (λ r, sort_key r = k) (sort_rows rows)
  = filter (λ r, sort_key r = k) rows.
Proof.
  pose proof (sorted_by_stable sort_key tuple_leb tuple_leb_trans k rows)
    as Hst.
  assert (∀ l : list Row,
    filter (λ r, sort_key r = k) l
    = filter (λ a, same_key sort_key tuple_leb k a) l) as Heq.
  { intros l. apply list_filter_iff. intros r. unfold same_key.
    rewrite tuple_leb_antisym. naive_solver. }
  unfold sort_rows. by rewrite !Heq.
Qed.

(** Scenario 3, for any three tracks of popularity 10, 50 and 30. *)
Lemma scenario3_ranking cfg sp seed catalog_df t10 t50 t30 :
  top_per_artist cfg = 3 → related_per_seed cfg = 0 →
  3 ≤ target_tracks cfg →
  artist_top_tracks sp [] seed (market cfg) = Ok (Some [t10; t50; t30]) →
  t_popularity t10 = Some 10 → t_popularity t50 = Some 50 →
  t_popularity t30 = Some 30 →
  NoDup (str_or_empty ∘ t_id <$> [t10; t50; t30]) →
  Forall (λ t, str_or_empty (t_id t) ≠ ""
               ∧ str_or_empty (t_id t) ∉ owned_ids catalog_df)
         [t10; t50; t30] →
  candidates cfg sp [seed] catalog_df
  = [as_row t50 "seed_top"; as_row t30 "seed_top"; as_row t10 "seed_top"].
Proof.
  intros Htop Hrel Htgt Hsp H10 H50 H30 Hnd Hok.
  unfold candidates. rewrite gen_for_seeds_rows, seed_loop_single.
  unfold seed_body, tracks_from_artist, get_top_tracks, call, mbind, IO_bind,
    mret, IO_ret.
  rewrite Hsp, Htop, Hrel. simpl.
  unfold post_process, dedup_rows.
  rewrite dedup_loop_id; cycle 1.
  { exact Hnd. }
  { apply (Forall_fmap (λ t, as_row t "seed_top") _ [t10; t50; t30]).
    eapply Forall_impl; [exact Hok|].
    intros t [? _]. split; [done|apply not_elem_of_empty]. }
  rewrite remove_owned_filter, filter_all; cycle 1.
  { apply (Forall_fmap (λ t, as_row t "seed_top") _ [t10; t50; t30]).
    eapply Forall_impl; [exact Hok|]. by intros t [_ ?]. }
  assert (sort_key (as_row t10 "seed_top") = (0, -10)) as K10
    by (unfold sort_key; simpl; by rewrite H10).
  assert (sort_key (as_row t50 "seed_top") = (0, -50)) as K50
    by (unfold sort_key; simpl; by rewrite H50).
  assert (sort_key (as_row t30 "seed_top") = (0, -30)) as K30
    by (unfold sort_key; simpl; by rewrite H30).
  unfold sort_rows. cbn [sorted_by insert_by]. rewrite K50, K30.
  cbn [insert_by tuple_leb fst snd Z.ltb Z.eqb Z.leb Z.compare Pos.compare
       Pos.compare_cont Z.opp orb andb CompOpp].
  rewrite K10, K30, K50.
  cbn [insert_by tuple_leb fst snd Z.ltb Z.eqb Z.leb Z.compare Pos.compare
       Pos.compare_cont Z.opp orb andb CompOpp].
  unfold truncate. cbn [length].
  destruct (Z.gtb_spec (Z.of_nat 3) (target_tracks cfg)); [lia|done].
Qed.

(** C1.  The final list is the ranked list cut at the target, and the ranked
    list is the stable sort of the filtered candidates by the key
    (priority of the source, minus popularity): it is a permutation of them,
    ordered by the key, rows with equal keys staying in collection order;
    the priority is 0 for [seed_top] and 1 for [by_related_top], a missing
    popularity counts as 0.  In scenario 3 (one seed, three tracks of
    popularity 10, 50, 30 with distinct non-empty ids none of which is owned,
    [top_per_artist = 3], [related_per_seed = 0], a target of at least 3) the
    output is the tracks of popularity 50, 30, 10, in this order, and each of
    the three rows carries the tag [seed_top]. *)
Theorem C1_rank_is_stable_sort (cfg : Config) (sp : Spotify) (seed : string)
    (catalog_df : Catalog) (raw : list Row) (t10 t50 t30 : Track) :
  let filtered := remove_owned (dedup_rows raw) catalog_df in
  let ranked := sort_rows filtered in
  post_process cfg catalog_df raw = truncate cfg ranked
  ∧ ranked ≡ₚ filtered
  ∧ StronglySorted
      (λ a b, (sort_key a).1 < (sort_key b).1
              ∨ ((sort_key a).1 = (sort_key b).1
                 ∧ (sort_key a).2 ≤ (sort_key b).2)) ranked
  ∧ (∀ k, filter (λ r, sort_key r = k) ranked
          = filter (λ r, sort_key r = k) filtered)
  ∧ (∀ r, (source r = "seed_top" → (sort_key r).1 = 0)
          ∧ (source r = "by_related_top" → (sort_key r).1 = 1)
          ∧ (sort_key r).2 = - default 0 (popularity r))
  ∧ (top_per_artist cfg = 3 → related_per_seed cfg = 0 →
     3 ≤ target_tracks cfg →
     artist_top_tracks sp [] seed (market cfg) = Ok (Some [t10; t50; t30]) →
     t_popularity t10 = Some 10 → t_popularity t50 = Some 50 →
     t_popularity t30 = Some 30 →
     NoDup (str_or_empty ∘ t_id <$> [t10; t50; t30]) →
     Forall (λ t, str_or_empty (t_id t) ≠ ""
                  ∧ str_or_empty (t_id t) ∉ owned_ids catalog_df)
            [t10; t50; t30] →
     candidates cfg sp [seed] catalog_df
     = [as_row t50 "seed_top"; as_row t30 "seed_top";
        as_row t10 "seed_top"]
     ∧ shown <$> candidates cfg sp [seed] catalog_df
       = [(t_id t50, Some 50, "seed_top"%string);
          (t_id t30, Some 30, "seed_top"%string);
          (t_id t10, Some 10, "seed_top"%string)]).
Proof.
  intros filtered ranked. split_and!.
  - done.
  - apply sort_rows_perm.
  - eapply StronglySorted_mono; [|apply sort_rows_sorted].
    intros a b Hab. by apply tuple_leb_le.
  - intros k. apply sort_rows_stable.
  - intros r. unfold sort_key. split_and!; [by intros ->|by intros ->|done].
  - intros Htop Hrel Htgt Hsp H10 H50 H30 Hnd Hok.
    rewrite (scenario3_ranking cfg sp seed catalog_df t10 t50 t30) by done.
    split; [done|]. unfold shown. cbn [fmap list_fmap as_row track_id
      popularity source]. by rewrite H10, H50, H30.
Qed.

Lemma C1_rank_is_stable_sort_witness :
  shown <$> candidates scenario3_cfg scenario3_sp ["a1"%string] None
  = [(Some "t50", Some 50, "seed_top"); (Some "t30", Some 30, "seed_top");
     (Some "t10", Some 10, "seed_top")]%string.
Proof.
  apply (C1_rank_is_stable_sort scenario3_cfg scenario3_sp "a1" None []
           (track "t10" 10) (track "t50" 50) (track "t30" 30));
    try reflexivity; try (vm_compute; discriminate).
  - apply (bool_decide_unpack _). vm_compute. exact I.
  - repeat constructor; try (vm_compute; discriminate);
      apply not_elem_of_empty.
Defined.

Lemma post_process_NoDup cfg catalog_df raw :
  NoDup (tid <$> post_process cfg catalog_df raw).
Proof.
  destruct (post_process_sublist cfg catalog_df raw)
    as (ranked & Hsub & Hperm).
  apply (sublist_NoDup _ (tid <$> ranked)); [|by apply fmap_sublist].
  rewrite Hperm, remove_owned_filter.
  apply (sublist_NoDup _ (tid <$> dedup_rows raw));
    [|apply fmap_sublist, sublist_filter].
  apply dedup_loop_NoDup.
Qed.

(** C2.  Whatever the seeds, the provider's answers, the calls made before
    and the owned catalogue, the candidate list returned by [gen_for_seeds]
    has pairwise distinct [track_id] values, and, the target being a length
    (not negative), it has at most [target_tracks] rows. *)
Theorem C2_unique_ids_and_size_bound (cfg : Config) (sp : Spotify)
    (seeds : list string) (catalog_df : Catalog) (log : list Call) :
  0 ≤ target_tracks cfg →
  let rows := (gen_for_seeds cfg sp seeds catalog_df log).1.1 in
  NoDup (track_id <$> rows)
  ∧ NoDup (tid <$> rows)
  ∧ Z.of_nat (length rows) ≤ target_tracks cfg.
Proof.
  intros Ht rows. subst rows. rewrite gen_for_seeds_rows.
  pose proof (post_process_NoDup cfg catalog_df
                (seed_loop cfg sp seeds ([], ∅) log).1.1) as Hnd.
  split_and!.
  - apply (NoDup_fmap_1 str_or_empty). by rewrite <-list_fmap_compose.
  - done.
  - by apply truncate_length.
Qed.

Lemma C2_unique_ids_and_size_bound_witness :
  let rows :=
    (gen_for_seeds scenario3_cfg scenario3_sp ["a1"%string] None []).1.1 in
  NoDup (track_id <$> rows)
  ∧ NoDup (tid <$> rows)
  ∧ Z.of_nat (length rows) ≤ target_tracks scenario3_cfg.
Proof.
  apply (C2_unique_ids_and_size_bound scenario3_cfg scenario3_sp
           ["a1"%string] None []).
  vm_compute. discriminate.
Defined.

(** The owned ids are the text cells of the catalogue's column. *)
Lemma owned_ids_owns catalog_df s : s ∈ owned_ids catalog_df ↔ owns catalog_df s.
Proof.
  unfold owns. destruct catalog_df as [col|]; simpl.
  - rewrite elem_of_list_to_set, list_elem_of_omap. split.
    + intros ([x|] & Hx & [= <-]). eauto.
    + intros (? & [= <-] & Hs). by exists (Some s).
  - split; [by intros ?%not_elem_of_empty|]. by intros (? & ? & _).
Qed.

Lemma remove_owned_owns rows catalog_df r :
  r ∈ remove_owned rows catalog_df ↔ r ∈ rows ∧ ¬ owns catalog_df (tid r).
Proof.
  rewrite remove_owned_filter, list_elem_of_filter, owned_ids_owns. tauto.
Qed.

Lemma post_process_not_owned cfg catalog_df raw :
  Forall (λ r, ¬ owns catalog_df (tid r)) (post_process cfg catalog_df raw).
Proof.
  destruct (post_process_sublist cfg catalog_df raw)
    as (ranked & Hsub & Hperm).
  eapply Forall_sublist_of; [|exact Hsub]. rewrite Hperm.
  apply Forall_forall. by intros r [_ Hr]%remove_owned_owns.
Qed.

Lemma post_process_has_id cfg catalog_df raw :
  Forall (λ r, tid r ≠ ""%string) (post_process cfg catalog_df raw).
Proof.
  apply post_process_Forall.
  eapply Forall_impl; [apply dedup_loop_Forall|]. by intros x [? _].
Qed.

(** C3.  The owned ids are the text cells of the [track_id] column of the
    catalogue.  No row of the candidate list returned by [gen_for_seeds]
    carries one of them, so the [track_id] cell of a candidate is no cell of
    that column: [remove_owned] keeps exactly the rows whose id is no cell of
    the column, and nothing later brings a row back. *)
Theorem C3_owned_tracks_excluded (cfg : Config) (sp : Spotify)
    (seeds : list string) (catalog_df : Catalog) (log : list Call) :
  (∀ s, s ∈ owned_ids catalog_df
        ↔ ∃ col, catalog_df = Some col ∧ Some s ∈ col)
  ∧ Forall (λ r, ∀ col, catalog_df = Some col →
                        (Some (tid r) ∉ col) ∧ (track_id r ∉ col))
           (gen_for_seeds cfg sp seeds catalog_df log).1.1
  ∧ (∀ rows r, r ∈ remove_owned rows catalog_df
               ↔ r ∈ rows
                 ∧ (∀ col, catalog_df = Some col → Some (tid r) ∉ col)).
Proof.
  split_and!.
  - intros s. apply owned_ids_owns.
  - rewrite gen_for_seeds_rows.
    pose proof (post_process_not_owned cfg catalog_df
                  (seed_loop cfg sp seeds ([], ∅) log).1.1) as Hno.
    pose proof (post_process_has_id cfg catalog_df
                  (seed_loop cfg sp seeds ([], ∅) log).1.1) as Hne.
    rewrite Forall_forall in Hno. rewrite Forall_forall in Hne.
    apply Forall_forall. intros r Hr col ->.
    assert (Some (tid r) ∉ col) as Hcol.
    { intros Hin. apply (Hno r Hr). by exists col. }
    split; [done|].
    pose proof (Hne r Hr) as Hid.
    unfold tid in Hid, Hcol. by destruct (track_id r).
  - intros rows r. rewrite remove_owned_owns. unfold owns. split.
    + intros [Hr Hno]. split; [done|]. intros col -> Hin. apply Hno. eauto.
    + intros [Hr Hno]. split; [done|]. intros (col & -> & Hin).
      by apply (Hno col).
Qed.

(** The owned track [t50] is left out of scenario 3 when the catalogue lists
    it. *)
Lemma C3_owned_tracks_excluded_witness :
  let catalog_df : Catalog := Some [Some "t50"%string; None] in
  shown <$> candidates scenario3_cfg scenario3_sp ["a1"%string] catalog_df
  = [(Some "t30", Some 30, "seed_top"); (Some "t10", Some 10, "seed_top")]%string
  ∧ Forall (λ r, track_id r ∉ [Some "t50"%string; None])
           (candidates scenario3_cfg scenario3_sp ["a1"%string] catalog_df).
Proof.
  intros catalog_df. split; [vm_compute; reflexivity|].
  destruct (C3_owned_tracks_excluded scenario3_cfg scenario3_sp
              ["a1"%string] catalog_df []) as (_ & Hout & _).
  eapply Forall_impl; [exact Hout|].
  intros r Hr. by apply (Hr [Some "t50"%string; None]).
Defined.

(** C10.  De-duplication drops every row whose [track_id] is missing or
    empty, so such a row is neither in the input of the ownership filter, nor
    in the input or the output of the ranking, nor in the list returned by
    [gen_for_seeds]: every row there has a non-empty [track_id]. *)
Theorem C10_track_id_never_empty (cfg : Config) (sp : Spotify)
    (seeds : list string) (catalog_df : Catalog) (log : list Call)
    (raw : list Row) :
  let has_id (r : Row) := ∃ s, track_id r = Some s ∧ s ≠ ""%string in
  Forall has_id (dedup_rows raw)
  ∧ Forall has_id (remove_owned (dedup_rows raw) catalog_df)
  ∧ Forall has_id (sort_rows (remove_owned (dedup_rows raw) catalog_df))
  ∧ Forall has_id (post_process cfg catalog_df raw)
  ∧ Forall has_id (gen_for_seeds cfg sp seeds catalog_df log).1.1.
Proof.
  intros has_id.
  assert (∀ rows, Forall has_id (dedup_rows rows)) as Hd.
  { intros rows. eapply Forall_impl; [apply dedup_loop_Forall|].
    intros r [Hne _]. unfold tid in Hne.
    destruct (track_id r) as [s|] eqn:Hs; [|done]. by exists s. }
  assert (∀ rows, Forall has_id (remove_owned (dedup_rows rows) catalog_df))
    as Hr.
  { intros rows. rewrite remove_owned_filter. by apply Forall_filter_of. }
  split_and!; [done|done| | |].
  - unfold sort_rows. by rewrite sorted_by_perm.
  - by apply post_process_Forall.
  - rewrite gen_for_seeds_rows. by apply post_process_Forall.
Qed.

(** *** Provider failures *)

Lemma or_empty_quiet {A : Type} (r : Resp (list A)) :
  or_empty (quiet r) = or_empty r.
Proof. by destruct r as [[l|]| |]. Qed.

Lemma tracks_from_artist_failure_free cfg sp artist n log :
  tracks_from_artist cfg (failure_free sp) artist n log
  = tracks_from_artist cfg sp artist n log.
Proof.
  unfold tracks_from_artist, get_top_tracks, call, mbind, IO_bind. simpl.
  by rewrite or_empty_quiet.
Qed.

Lemma related_loop_failure_free cfg sp rel_ids st log :
  related_loop cfg (failure_free sp) rel_ids st log
  = related_loop cfg sp rel_ids st log.
Proof.
  revert st log. induction rel_ids as [|rid rest IH]; intros st log; [done|].
  simpl. destruct (bool_decide (rid ∈ st.2)); [apply IH|].
  unfold mbind, IO_bind. rewrite tracks_from_artist_failure_free.
  destruct (tracks_from_artist cfg sp rid (top_per_artist cfg) log).
  apply IH.
Qed.

Lemma seed_body_failure_free cfg sp seed st log :
  seed_body cfg (failure_free sp) seed st log = seed_body cfg sp seed st log.
Proof.
  unfold seed_body, mbind, IO_bind.
  rewrite tracks_from_artist_failure_free.
  destruct (tracks_from_artist cfg sp seed (top_per_artist cfg) log)
    as [tracks log1].
  destruct (related_per_seed cfg >? 0); [|done].
  unfold get_related, call. simpl. rewrite or_empty_quiet.
  apply related_loop_failure_free.
Qed.

Lemma seed_loop_failure_free cfg sp seeds st log :
  seed_loop cfg (failure_free sp) seeds st log = seed_loop cfg sp seeds st log.
Proof.
  revert st log. induction seeds as [|seed rest IH]; intros st log; [done|].
  simpl. unfold mbind, IO_bind. rewrite seed_body_failure_free.
  destruct (seed_body cfg sp seed st log) as [st' log'].
  destruct (_ >=? _); [done|apply IH].
Qed.

(** *** The seed loop *)

Lemma fresh_ids_elem used ids rid :
  rid ∈ fresh_ids used ids ↔ rid ∈ ids ∧ rid ∉ used.
Proof.
  revert used. induction ids as [|x ids IH]; intros used; simpl.
  - rewrite !elem_of_nil. tauto.
  - destruct (bool_decide_reflect (x ∈ used)) as [Hx|Hx].
    + rewrite IH, elem_of_cons. split; [intros [? ?]; auto|].
      intros [[->|?] ?]; done.
    + rewrite !elem_of_cons, IH, elem_of_union, elem_of_singleton.
      destruct (decide (rid = x)) as [->|Hne]; tauto.
Qed.

Lemma fresh_ids_NoDup used ids : NoDup (fresh_ids used ids).
Proof.
  revert used. induction ids as [|x ids IH]; intros used; simpl.
  - constructor.
  - destruct (bool_decide (x ∈ used)); [apply IH|].
    constructor; [|apply IH].
    rewrite fresh_ids_elem, elem_of_union, elem_of_singleton. tauto.
Qed.

Lemma fresh_ids_sublist used ids : fresh_ids used ids `sublist_of` ids.
Proof.
  revert used. induction ids as [|x ids IH]; intros used; simpl; [done|].
  destruct (bool_decide (x ∈ used)).
  - by apply sublist_cons.
  - by apply sublist_skip.
Qed.

Lemma tracks_from_artist_log cfg sp artist n log :
  (tracks_from_artist cfg sp artist n log).2
  = log ++ [ArtistTopTracks artist (market cfg)].
Proof. done. Qed.

Lemma fetch_each_log cfg sp artists log :
  (fetch_each cfg sp artists log).2
  = log ++ ((λ a, ArtistTopTracks a (market cfg)) <$> artists).
Proof.
  revert log. induction artists as [|a rest IH]; intros log; simpl.
  - by rewrite app_nil_r.
  - unfold mbind, IO_bind.
    destruct (tracks_from_artist cfg sp a (top_per_artist cfg) log)
      as [tracks log1] eqn:Ht.
    pose proof (tracks_from_artist_log cfg sp a (top_per_artist cfg) log)
      as Hl. rewrite Ht in Hl. simpl in Hl. subst log1.
    specialize (IH (log ++ [ArtistTopTracks a (market cfg)])).
    destruct (fetch_each cfg sp rest _) as [more log2]. simpl in *.
    by rewrite IH, <-app_assoc.
Qed.

(** The loop over the related ids fetches the fresh ones and marks all of
    them. *)
Lemma related_loop_fetch_each cfg sp rel_ids st log :
  related_loop cfg sp rel_ids st log
  = let fetched := fetch_each cfg sp (fresh_ids st.2 rel_ids) log in
    ((st.1 ++ concat (tag "by_related_top" <$> fetched.1),
      list_to_set rel_ids ∪ st.2), fetched.2).
Proof.
  revert st log. induction rel_ids as [|rid rest IH]; intros [rows used] log.
  - cbn. rewrite app_nil_r. by rewrite (left_id_L ∅ (∪)).
  - cbn [related_loop fresh_ids fst snd].
    destruct (bool_decide_reflect (rid ∈ used)) as [Hin|Hin].
    + rewrite IH. cbn [fst snd].
      assert (list_to_set (rid :: rest) ∪ used
              = list_to_set rest ∪ used :> gset string) as ->; [|done].
      apply set_eq. intros y.
      rewrite list_to_set_cons, !elem_of_union, elem_of_singleton.
      split; [intros [[->|?]|?]; auto|tauto].
    + unfold mbind, IO_bind. cbn [fetch_each].
      unfold mbind, IO_bind.
      destruct (tracks_from_artist cfg sp rid (top_per_artist cfg) log)
        as [tracks log1].
      rewrite IH. cbn [fst snd].
      destruct (fetch_each cfg sp _ log1) as [more log2].
      assert (list_to_set (rid :: rest) ∪ used
              = list_to_set rest ∪ ({[rid]} ∪ used) :> gset string) as ->.
      { apply set_eq. intros y.
        rewrite list_to_set_cons, !elem_of_union. tauto. }
      cbn. by rewrite <-app_assoc.
Qed.

Lemma seed_loop_cons cfg sp seed rest st log :
  seed_loop cfg sp (seed :: rest) st log
  = let r := seed_body cfg sp seed st log in
    if Z.of_nat (length r.1.1) >=? target_tracks cfg * 2 then r
    else seed_loop cfg sp rest r.1 r.2.
Proof.
  simpl. unfold mbind, IO_bind.
  destruct (seed_body cfg sp seed st log) as [st' log']. simpl.
  by destruct (_ >=? _).
Qed.

Lemma seed_body_related cfg sp seed st log :
  related_per_seed cfg > 0 →
  let top := tracks_from_artist cfg sp seed (top_per_artist cfg) log in
  let rel := get_related sp seed top.2 in
  let rel_ids := slice_to (related_per_seed cfg) (related_ids rel.1) in
  let fetched := fetch_each cfg sp (fresh_ids st.2 rel_ids) rel.2 in
  seed_body cfg sp seed st log
  = ((st.1 ++ tag "seed_top" top.1
           ++ concat (tag "by_related_top" <$> fetched.1),
      list_to_set rel_ids ∪ st.2), fetched.2).
Proof.
  intros Hrel. unfold seed_body, mbind, IO_bind.
  destruct (tracks_from_artist cfg sp seed (top_per_artist cfg) log)
    as [tracks log1].
  destruct (Z.gtb_spec (related_per_seed cfg) 0) as [_|?]; [|lia].
  cbn [fst snd].
  destruct (get_related sp seed log1) as [related log2]. cbn [fst snd].
  rewrite related_loop_fetch_each. cbn [fst snd].
  by rewrite <-app_assoc.
Qed.

Lemma seed_body_unrelated cfg sp seed st log :
  related_per_seed cfg ≤ 0 →
  let top := tracks_from_artist cfg sp seed (top_per_artist cfg) log in
  seed_body cfg sp seed st log = ((st.1 ++ tag "seed_top" top.1, st.2), top.2).
Proof.
  intros Hrel. unfold seed_body, mbind, IO_bind.
  destruct (tracks_from_artist cfg sp seed (top_per_artist cfg) log)
    as [tracks log1].
  by destruct (Z.gtb_spec (related_per_seed cfg) 0) as [?|_]; [lia|].
Qed.

Lemma seed_body_related_log cfg sp seed st log :
  related_per_seed cfg > 0 →
  ∃ later, (seed_body cfg sp seed st log).2
           = log ++ ArtistTopTracks seed (market cfg) :: later.
Proof.
  intros Hrel. rewrite seed_body_related by done. cbn [snd].
  rewrite fetch_each_log. unfold get_related, call. cbn [snd].
  rewrite tracks_from_artist_log, <-!app_assoc. simpl. eauto.
Qed.

(** *** A run with failing calls *)

Lemma slice_to_singleton {A : Type} (n : Z) (x : A) :
  n > 0 → slice_to n [x] = [x].
Proof.
  intros Hn. unfold slice_to.
  destruct (Z.leb_spec 0 n) as [_|?]; [|lia].
  destruct (Z.to_nat n) eqn:Hk; [lia|]. simpl. by rewrite take_nil.
Qed.

(** Two seeds: both calls for the first fail, the second has one top track
    and one related artist with one top track. *)
Lemma failing_seed_run cfg sp catalog_df s1 s2 rid r t1 t2 i1 i2 :
  let mkt := market cfg in
  let c1 := ArtistTopTracks s1 mkt in
  let c2 := ArtistRelatedArtists s1 in
  let c3 := ArtistTopTracks s2 mkt in
  let c4 := ArtistRelatedArtists s2 in
  let c5 := ArtistTopTracks rid mkt in
  related_per_seed cfg > 0 → top_per_artist cfg > 0 →
  2 ≤ target_tracks cfg →
  failed (artist_top_tracks sp [] s1 mkt) →
  failed (artist_related_artists sp [c1] s1) →
  artist_top_tracks sp [c1; c2] s2 mkt = Ok (Some [t1]) →
  artist_related_artists sp [c1; c2; c3] s2 = Ok (Some [r]) →
  a_id r = Some rid → rid ≠ ""%string →
  artist_top_tracks sp [c1; c2; c3; c4] rid mkt = Ok (Some [t2]) →
  t_id t1 = Some i1 → t_id t2 = Some i2 →
  i1 ≠ ""%string → i2 ≠ ""%string → i1 ≠ i2 →
  ¬ owns catalog_df i1 → ¬ owns catalog_df i2 →
  candidates cfg sp [s1; s2] catalog_df
  = [as_row t1 "seed_top"; as_row t2 "by_related_top"]
  ∧ calls_made cfg sp [s1; s2] catalog_df = [c1; c2; c3; c4; c5].
Proof.
  intros mkt c1 c2 c3 c4 c5 Hrel Htop Htgt F1 F2 H3 H4 Hr Hrid H6 Ht1 Ht2
    Hi1 Hi2 Hne Ho1 Ho2.
  assert (seed_loop cfg sp [s1; s2] ([], ∅) []
          = (([as_row t1 "seed_top"; as_row t2 "by_related_top"],
              {[rid]} ∪ ∅), [c1; c2; c3; c4; c5])) as Hloop.
  { rewrite seed_loop_cons.
    assert (seed_body cfg sp s1 ([], ∅) [] = (([], ∅), [c1; c2])) as ->.
    { unfold seed_body, tracks_from_artist, get_top_tracks, get_related, call,
        mbind, IO_bind, mret, IO_ret. cbn [app fst snd].
      destruct (Z.gtb_spec (related_per_seed cfg) 0) as [_|?]; [|lia].
      fold mkt. fold c1.
      assert (or_empty (artist_top_tracks sp [] s1 mkt) = []) as ->
        by (by destruct F1 as [-> | ->]).
      assert (or_empty (artist_related_artists sp [c1] s1) = []) as ->
        by (by destruct F2 as [-> | ->]).
      cbn [tag map app related_ids omap list_omap].
      destruct (slice_to_take (related_per_seed cfg) (@nil string))
        as [k ->]. by rewrite take_nil. }
    cbn zeta. cbn [fst snd length].
    destruct (Z.geb_spec (Z.of_nat 0) (target_tracks cfg * 2)) as [?|_];
      [lia|].
    rewrite seed_loop_single.
    unfold seed_body, tracks_from_artist, get_top_tracks, get_related, call,
      mbind, IO_bind, mret, IO_ret. cbn [app fst snd].
    destruct (Z.gtb_spec (related_per_seed cfg) 0) as [_|?]; [|lia].
    fold mkt. fold c1 c2 c3 c4. rewrite H3, H4. cbn [or_empty].
    rewrite (slice_to_singleton _ t1) by done.
    unfold related_ids. cbn [omap list_omap]. rewrite Hr.
    cbn [truthy]. destruct (String.eqb_spec rid "") as [?|_]; [done|].
    cbn [negb]. rewrite (slice_to_singleton _ rid) by done.
    cbn [related_loop fst snd].
    rewrite bool_decide_eq_false_2 by apply not_elem_of_empty.
    unfold tracks_from_artist, get_top_tracks, call, mbind, IO_bind, mret,
      IO_ret. cbn [app fst snd]. fold mkt. fold c5. rewrite H6.
    cbn [or_empty]. rewrite (slice_to_singleton _ t2) by done. done. }
  unfold candidates, calls_made.
  rewrite gen_for_seeds_rows, gen_for_seeds_log, Hloop. cbn [fst snd].
  split; [|done].
  assert (tid (as_row t1 "seed_top") = i1) as Hid1
    by (unfold tid; cbn; by rewrite Ht1).
  assert (tid (as_row t2 "by_related_top") = i2) as Hid2
    by (unfold tid; cbn; by rewrite Ht2).
  unfold post_process, dedup_rows.
  rewrite dedup_loop_id; cycle 1.
  { cbn [fmap list_fmap]. rewrite Hid1, Hid2.
    apply NoDup_cons. split; [|apply NoDup_singleton].
    by intros ->%list_elem_of_singleton. }
  { repeat constructor; rewrite ?Hid1, ?Hid2; try done;
      apply not_elem_of_empty. }
  rewrite remove_owned_filter, filter_all; cycle 1.
  { repeat constructor; rewrite ?Hid1, ?Hid2; by rewrite owned_ids_owns. }
  unfold sort_rows. cbn [sorted_by insert_by]. unfold sort_key, tuple_leb.
  cbn [as_row source fst snd String.eqb Ascii.eqb Bool.eqb Z.ltb Z.compare
       orb].
  unfold truncate. cbn [length].
  destruct (Z.gtb_spec (Z.of_nat 2) (target_tracks cfg)); [lia|done].
Qed.

(** C7.  A provider call that raises, for the top tracks or for the related
    artists of any one artist, yields the empty list at the call site, the
    call being logged like any other, while a call that answers a list hands
    that list on; a whole run is the run it would be had every failing call
    answered an empty list instead.  So the run goes on after a failure and
    its candidate list comes from the calls that succeeded: when both calls
    for a first seed fail and a second seed has a top track and a related
    artist with a top track, the five calls are made and the list is the
    seed's track, tagged [seed_top], followed by the related artist's track,
    tagged [by_related_top]. *)
Theorem C7_provider_failure_isolated (cfg : Config) (sp : Spotify)
    (seeds : list string) (catalog_df : Catalog) (log : list Call)
    (s1 s2 rid i1 i2 : string) (r : Artist) (t1 t2 : Track) :
  (∀ artist mkt lg, failed (artist_top_tracks sp lg artist mkt) →
     get_top_tracks sp artist mkt lg = ([], lg ++ [ArtistTopTracks artist mkt]))
  ∧ (∀ artist lg, failed (artist_related_artists sp lg artist) →
       get_related sp artist lg = ([], lg ++ [ArtistRelatedArtists artist]))
  ∧ (∀ artist mkt lg tracks,
       artist_top_tracks sp lg artist mkt = Ok (Some tracks) →
       get_top_tracks sp artist mkt lg
       = (tracks, lg ++ [ArtistTopTracks artist mkt]))
  ∧ (∀ artist lg related,
       artist_related_artists sp lg artist = Ok (Some related) →
       get_related sp artist lg
       = (related, lg ++ [ArtistRelatedArtists artist]))
  ∧ gen_for_seeds cfg sp seeds catalog_df log
    = gen_for_seeds cfg (failure_free sp) seeds catalog_df log
  ∧ (let mkt := market cfg in
     let c1 := ArtistTopTracks s1 mkt in
     let c2 := ArtistRelatedArtists s1 in
     let c3 := ArtistTopTracks s2 mkt in
     let c4 := ArtistRelatedArtists s2 in
     let c5 := ArtistTopTracks rid mkt in
     related_per_seed cfg > 0 → top_per_artist cfg > 0 →
     2 ≤ target_tracks cfg →
     failed (artist_top_tracks sp [] s1 mkt) →
     failed (artist_related_artists sp [c1] s1) →
     artist_top_tracks sp [c1; c2] s2 mkt = Ok (Some [t1]) →
     artist_related_artists sp [c1; c2; c3] s2 = Ok (Some [r]) →
     a_id r = Some rid → rid ≠ ""%string →
     artist_top_tracks sp [c1; c2; c3; c4] rid mkt = Ok (Some [t2]) →
     t_id t1 = Some i1 → t_id t2 = Some i2 →
     i1 ≠ ""%string → i2 ≠ ""%string → i1 ≠ i2 →
     (∀ col, catalog_df = Some col → (Some i1 ∉ col) ∧ (Some i2 ∉ col)) →
     calls_made cfg sp [s1; s2] catalog_df = [c1; c2; c3; c4; c5]
     ∧ shown <$> candidates cfg sp [s1; s2] catalog_df
       = [(Some i1, t_popularity t1, "seed_top"%string);
          (Some i2, t_popularity t2, "by_related_top"%string)]).
Proof.
  split_and!.
  - intros artist mkt lg Hf. unfold get_top_tracks, call.
    by destruct Hf as [-> | ->].
  - intros artist lg Hf. unfold get_related, call.
    by destruct Hf as [-> | ->].
  - intros artist mkt lg tracks Hok. unfold get_top_tracks, call.
    by rewrite Hok.
  - intros artist lg related Hok. unfold get_related, call. by rewrite Hok.
  - unfold gen_for_seeds, mbind, IO_bind.
    by rewrite seed_loop_failure_free.
  - intros mkt c1 c2 c3 c4 c5 Hrel Htop Htgt F1 F2 H3 H4 Hr Hrid H6 Ht1 Ht2
      Hi1 Hi2 Hne Hown.
    destruct (failing_seed_run cfg sp catalog_df s1 s2 rid r t1 t2 i1 i2)
      as [Hrows Hlog]; try done.
    + intros (col & -> & Hin). by destruct (Hown col eq_refl).
    + intros (col & -> & Hin). by destruct (Hown col eq_refl).
    + split; [done|]. rewrite Hrows. unfold shown.
      cbn [fmap list_fmap as_row track_id popularity source].
      by rewrite Ht1, Ht2.
Qed.

(** The first seed [s1] is unknown to the provider, so both its calls
    raise; the run goes on with [s2], whose related artist [r1] is fetched. *)
Lemma C7_provider_failure_isolated_witness :
  calls_made default_config failing_seed_sp ["s1"; "s2"]%string None
  = [ArtistTopTracks "s1" "PL"; ArtistRelatedArtists "s1";
     ArtistTopTracks "s2" "PL"; ArtistRelatedArtists "s2";
     ArtistTopTracks "r1" "PL"]
  ∧ shown <$> candidates default_config failing_seed_sp ["s1"; "s2"]%string
                None
    = [(Some "t1", Some 5, "seed_top");
       (Some "t2", Some 90, "by_related_top")]%string.
Proof.
  apply (C7_provider_failure_isolated default_config failing_seed_sp [] None
           [] "s1" "s2" "r1" "t1" "t2" (artist "r1") (track "t1" 5)
           (track "t2" 90)); try reflexivity; try (vm_compute; discriminate).
  - left. reflexivity.
  - right. reflexivity.
Defined.

(** C4, as the code has it.  With [related_per_seed > 0], the iteration for
    a seed takes the first [related_per_seed] non-empty related ids, skips
    those of them that are already in the visited set (or occur earlier in
    the same list), fetches the top tracks of the others, in order, tagged
    [by_related_top], and adds all the ids taken to the visited set; the
    iteration for the next seed starts from that very set. *)
Theorem C4_related_expansion (cfg : Config) (sp : Spotify) (seed : string)
    (rest : list string) (st : Collected) (log : list Call) :
  related_per_seed cfg > 0 →
  let top := tracks_from_artist cfg sp seed (top_per_artist cfg) log in
  let rel := get_related sp seed top.2 in
  let rel_ids := slice_to (related_per_seed cfg) (related_ids rel.1) in
  let chosen := fresh_ids st.2 rel_ids in
  let fetched := fetch_each cfg sp chosen rel.2 in
  let st' : Collected :=
    (st.1 ++ tag "seed_top" top.1
          ++ concat (tag "by_related_top" <$> fetched.1),
     list_to_set rel_ids ∪ st.2) in
  seed_body cfg sp seed st log = (st', fetched.2)
  ∧ fetched.2
    = log ++ [ArtistTopTracks seed (market cfg); ArtistRelatedArtists seed]
          ++ ((λ a, ArtistTopTracks a (market cfg)) <$> chosen)
  ∧ (∀ rid, rid ∈ chosen ↔ rid ∈ rel_ids ∧ rid ∉ st.2)
  ∧ NoDup chosen
  ∧ chosen `sublist_of` rel_ids
  ∧ seed_loop cfg sp (seed :: rest) st log
    = if Z.of_nat (length st'.1) >=? target_tracks cfg * 2
      then (st', fetched.2)
      else seed_loop cfg sp rest st' fetched.2.
Proof.
  intros Hrel top rel rel_ids chosen fetched st'.
  pose proof (seed_body_related cfg sp seed st log Hrel) as Hbody.
  cbv zeta in Hbody. fold top rel rel_ids chosen fetched st' in Hbody.
  split_and!.
  - exact Hbody.
  - subst fetched. rewrite fetch_each_log. subst rel top.
    unfold get_related, call. cbn [snd].
    rewrite tracks_from_artist_log. by rewrite <-!app_assoc.
  - intros rid. apply fresh_ids_elem.
  - apply fresh_ids_NoDup.
  - apply fresh_ids_sublist.
  - rewrite seed_loop_cons, Hbody. done.
Qed.

Lemma C4_related_expansion_witness :
  seed_loop shared_cfg shared_sp ["s1"; "s2"]%string ([], ∅) []
  = seed_loop shared_cfg shared_sp ["s2"%string]
      (tag "seed_top" [track "t1" 1] ++ tag "by_related_top" [track "t3" 3],
       {["r1"%string]})
      [ArtistTopTracks "s1" "PL"; ArtistRelatedArtists "s1";
       ArtistTopTracks "r1" "PL"].
Proof.
  pose proof (C4_related_expansion shared_cfg shared_sp "s1" ["s2"%string]
                ([], ∅) []) as H.
  destruct H as (_ & _ & _ & _ & _ & Hloop); [reflexivity|].
  rewrite Hloop. vm_compute. reflexivity.
Defined.

(** The claim C4 as worded picks the ids after the visited ones are left
    out; the code cuts the list first.  With [related_per_seed = 2], [r1]
    visited while the first seed was expanded, and a second seed whose
    related artists are [r1], [r2], [r3], the wording selects [r2] and [r3];
    the run never asks for the top tracks of [r3]. *)
Lemma C4_counterexample :
  related_per_seed shared_cfg > 0
  ∧ (seed_body shared_cfg shared_sp "s1" ([], ∅) []).1.2 = {["r1"%string]}
  ∧ related_ids (get_related shared_sp "s2" []).1 = ["r1"; "r2"; "r3"]%string
  ∧ spec_related_selection shared_cfg {["r1"%string]}
      ["r1"; "r2"; "r3"]%string = ["r2"; "r3"]%string
  ∧ calls_made shared_cfg shared_sp ["s1"; "s2"]%string None
    = [ArtistTopTracks "s1" "PL"; ArtistRelatedArtists "s1";
       ArtistTopTracks "r1" "PL"; ArtistTopTracks "s2" "PL";
       ArtistRelatedArtists "s2"; ArtistTopTracks "r2" "PL"]
  ∧ ArtistTopTracks "r3" "PL"
    ∉ calls_made shared_cfg shared_sp ["s1"; "s2"]%string None.
Proof.
  split_and!; try (vm_compute; reflexivity).
  apply (bool_decide_unpack _). vm_compute. exact I.
Qed.

(** *** No validation of the parameters *)

Lemma seed_body_first_call cfg sp seed st log :
  ∃ later, (seed_body cfg sp seed st log).2
           = log ++ ArtistTopTracks seed (market cfg) :: later.
Proof.
  destruct (Z.le_gt_cases (related_per_seed cfg) 0) as [Hrel|Hrel].
  - rewrite seed_body_unrelated by done. cbn [snd].
    rewrite tracks_from_artist_log. by exists [].
  - destruct (seed_body_related_log cfg sp seed st log) as [later ->];
      [lia|]. by exists later.
Qed.

Lemma seed_loop_log_extends cfg sp seeds st log :
  ∃ later, (seed_loop cfg sp seeds st log).2 = log ++ later.
Proof.
  revert st log. induction seeds as [|seed rest IH]; intros st log.
  - exists []. by rewrite app_nil_r.
  - rewrite seed_loop_cons. cbv zeta.
    destruct (seed_body_first_call cfg sp seed st log) as [l1 Hl1].
    destruct (_ >=? _).
    + rewrite Hl1. eauto.
    + destruct (IH (seed_body cfg sp seed st log).1
                   (seed_body cfg sp seed st log).2) as [l2 ->].
      rewrite Hl1, <-app_assoc. eauto.
Qed.

Lemma seed_loop_first_call cfg sp seed rest st log :
  ∃ later, (seed_loop cfg sp (seed :: rest) st log).2
           = log ++ ArtistTopTracks seed (market cfg) :: later.
Proof.
  rewrite seed_loop_cons. cbv zeta.
  destruct (seed_body_first_call cfg sp seed st log) as [l1 Hl1].
  destruct (_ >=? _).
  - rewrite Hl1. eauto.
  - destruct (seed_loop_log_extends cfg sp rest
                (seed_body cfg sp seed st log).1
                (seed_body cfg sp seed st log).2) as [l2 ->].
    rewrite Hl1, <-app_assoc. simpl. eauto.
Qed.

Lemma seed_loop_nonpos_target cfg sp seed rest st log :
  target_tracks cfg ≤ 0 →
  seed_loop cfg sp (seed :: rest) st log = seed_body cfg sp seed st log.
Proof.
  intros Ht. rewrite seed_loop_cons. cbv zeta.
  destruct (Z.geb_spec (Z.of_nat (length (seed_body cfg sp seed st log).1.1))
              (target_tracks cfg * 2)); [done|lia].
Qed.

Lemma truncate_zero cfg rows : target_tracks cfg = 0 → truncate cfg rows = [].
Proof.
  intros Ht. unfold truncate. rewrite Ht.
  destruct (Z.gtb_spec (Z.of_nat (length rows)) 0); [done|].
  destruct rows; [done|simpl in *; lia].
Qed.

(** C9, as the code has it.  No parameter is checked before the provider is
    called: whatever the configuration, a run over a non-empty seed list
    begins by asking for the top tracks of the first seed, and it returns a
    candidate list.  With a target that is zero or negative the loop stops
    after the first seed; with a target of zero the list returned is
    empty. *)
Theorem C9_no_parameter_check (cfg : Config) (sp : Spotify) (seed : string)
    (rest : list string) (catalog_df : Catalog) :
  (∃ later, calls_made cfg sp (seed :: rest) catalog_df
            = ArtistTopTracks seed (market cfg) :: later)
  ∧ (target_tracks cfg ≤ 0 →
     calls_made cfg sp (seed :: rest) catalog_df
     = calls_made cfg sp [seed] catalog_df
     ∧ candidates cfg sp (seed :: rest) catalog_df
       = candidates cfg sp [seed] catalog_df)
  ∧ (target_tracks cfg = 0 → candidates cfg sp (seed :: rest) catalog_df = []).
Proof.
  unfold calls_made, candidates. split_and!.
  - rewrite gen_for_seeds_log.
    destruct (seed_loop_first_call cfg sp seed rest ([], ∅) [])
      as [later ->]. by exists later.
  - intros Ht.
    rewrite !gen_for_seeds_log, !gen_for_seeds_rows,
      !seed_loop_nonpos_target by done.
    done.
  - intros Ht. rewrite gen_for_seeds_rows. by apply truncate_zero.
Qed.

Lemma C9_no_parameter_check_witness :
  calls_made zero_target_cfg scenario3_sp ["a1"; "a1"]%string None
  = calls_made zero_target_cfg scenario3_sp ["a1"%string] None
  ∧ candidates zero_target_cfg scenario3_sp ["a1"; "a1"]%string None = [].
Proof.
  destruct (C9_no_parameter_check zero_target_cfg scenario3_sp "a1"
              ["a1"%string] None) as (_ & Hstop & Hnil).
  split.
  - apply Hstop. vm_compute. discriminate.
  - apply Hnil. reflexivity.
Defined.

(** The claim C9 fails on a run with [target_tracks = 0]: the provider is
    called twice and the run ends normally, with an empty list. *)
Lemma C9_counterexample :
  target_tracks zero_target_cfg ≤ 0
  ∧ calls_made zero_target_cfg scenario3_sp ["a1"%string] None
    = [ArtistTopTracks "a1" "PL"; ArtistRelatedArtists "a1"]
  ∧ gen_for_seeds zero_target_cfg scenario3_sp ["a1"%string] None []
    = ([],
       {| meta_seeds := ["a1"%string]; collected := 0;
          per_artist_limit := 6; meta_related_per_seed := 12;
          meta_market := "PL" |},
       [ArtistTopTracks "a1" "PL"; ArtistRelatedArtists "a1"]).
Proof.
  split_and!; [vm_compute; discriminate|vm_compute; reflexivity..].
Qed.

End MakeRecsFacts.

(** ** build_catalog.py: the canonical catalogue and the accumulators *)
Module BuildCatalogFacts.
Import BuildCatalog.

(** *** The order of the catalogue sort *)

Lemma string_compare_refl (s : string) : String.compare s s = Eq.
Proof.
  induction s as [|c s IH]; simpl; [done|].
  unfold Ascii.compare. by rewrite N.compare_refl.
Qed.

Lemma string_compare_lt_trans (a b c : string) :
  String.compare a b = Lt → String.compare b c = Lt → String.compare a c = Lt.
Proof.
  intros Hab Hbc.
  assert (String.leb a c = true) as Hac.
  { apply Is_true_true.
    apply (transitivity (R:=String.le) (y:=b)); apply Is_true_true;
      unfold String.leb; by rewrite ?Hab, ?Hbc. }
  unfold String.leb in Hac.
  destruct (String.compare a c) eqn:Hc; [|done|done].
  apply String.compare_eq_iff in Hc. subst c.
  rewrite String.compare_antisym, Hab in Hbc. done.
Qed.

Lemma track_id_compare_eq a b : track_id_compare a b = Eq ↔ a = b.
Proof.
  destruct a as [x|], b as [y|]; simpl; split; try done.
  - by intros ->%String.compare_eq_iff.
  - intros [= ->]. apply string_compare_refl.
Qed.

Lemma track_id_compare_antisym a b :
  track_id_compare a b = CompOpp (track_id_compare b a).
Proof.
  destruct a as [x|], b as [y|]; simpl; try done.
  apply String.compare_antisym.
Qed.

Lemma track_id_compare_lt_trans a b c :
  track_id_compare a b = Lt → track_id_compare b c = Lt →
  track_id_compare a c = Lt.
Proof.
  destruct a as [x|], b as [y|], c as [z|]; simpl; try done.
  apply string_compare_lt_trans.
Qed.

Lemma catalog_leb_total a b : catalog_leb a b = true ∨ catalog_leb b a = true.
Proof.
  unfold catalog_leb. rewrite (track_id_compare_antisym b.1 a.1).
  destruct (track_id_compare a.1 b.1); simpl; auto.
  rewrite !Qle_bool_iff.
  destruct (Qlt_le_dec a.2 b.2); auto using Qlt_le_weak.
Qed.

Lemma catalog_leb_trans a b c :
  catalog_leb a b = true → catalog_leb b c = true → catalog_leb a c = true.
Proof.
  unfold catalog_leb.
  destruct (track_id_compare a.1 b.1) eqn:Hab; [| |done];
    destruct (track_id_compare b.1 c.1) eqn:Hbc; try done.
  - apply track_id_compare_eq in Hab, Hbc. rewrite Hab, Hbc.
    rewrite (proj2 (track_id_compare_eq c.1 c.1)) by done.
    rewrite !Qle_bool_iff. eauto using Qle_trans.
  - apply track_id_compare_eq in Hab. rewrite Hab, Hbc. done.
  - apply track_id_compare_eq in Hbc. rewrite <-Hbc, Hab. done.
  - by rewrite (track_id_compare_lt_trans _ _ _ Hab Hbc).
Qed.

(** Two rows with the same [track_id], the first one sorted before the
    second: the first weighs at least as much. *)
Lemma catalog_key_le_same_id (r1 r2 : CatRow) :
  key_le catalog_key catalog_leb r1 r2 → track_id r1 = track_id r2 →
  (weight r2 <= weight r1)%Q.
Proof.
  unfold key_le, catalog_leb, catalog_key. simpl. intros Hle Heq.
  rewrite (proj2 (track_id_compare_eq _ _) Heq) in Hle.
  by apply Qle_bool_iff.
Qed.

(** *** Dropping duplicates *)

Lemma drop_duplicates_loop_elem rows seen r :
  r ∈ drop_duplicates_loop rows seen → r ∈ rows ∧ track_id r ∉ seen.
Proof.
  revert seen. induction rows as [|x rows IH]; intros seen; simpl.
  - by intros ?%elem_of_nil.
  - destruct (bool_decide_reflect (track_id x ∈ seen)) as [Hx|Hx].
    + intros [? ?]%IH. split; [by right|done].
    + intros [->|Hr]%elem_of_cons; [split; [by left|done]|].
      apply IH in Hr as [? Hn]. split; [by right|].
      intros ?. apply Hn. apply elem_of_union. by right.
Qed.

Lemma drop_duplicates_loop_NoDup rows seen :
  NoDup (track_id <$> drop_duplicates_loop rows seen).
Proof.
  revert seen. induction rows as [|x rows IH]; intros seen; simpl.
  - constructor.
  - destruct (bool_decide (track_id x ∈ seen)); [apply IH|].
    rewrite fmap_cons. constructor; [|apply IH].
    intros (r & Heq & Hr)%list_elem_of_fmap.
    apply drop_duplicates_loop_elem in Hr as [_ Hn].
    apply Hn. apply elem_of_union. left. by apply elem_of_singleton.
Qed.

(** Every unseen id keeps a row: the first one that carries it. *)
Lemma drop_duplicates_loop_first rows seen r :
  r ∈ rows → track_id r ∉ seen →
  ∃ r', r' ∈ drop_duplicates_loop rows seen
        ∧ track_id r' = track_id r
        ∧ (r' = r ∨ ∃ l1 l2, rows = l1 ++ r' :: l2 ∧ r ∈ l2).
Proof.
  revert seen. induction rows as [|x rows IH]; intros seen Hr Hn.
  { by apply elem_of_nil in Hr. }
  simpl. destruct (bool_decide_reflect (track_id x ∈ seen)) as [Hx|Hx].
  - apply elem_of_cons in Hr as [->|Hr]; [done|].
    destruct (IH seen Hr Hn) as (r' & Hin & Heq & Hpos).
    exists r'. split_and!; [done|done|].
    destruct Hpos as [->|(l1 & l2 & -> & Hl2)]; [by left|right].
    by exists (x :: l1), l2.
  - destruct (decide (track_id r = track_id x)) as [Heq|Hne].
    + exists x. split_and!; [by left|done|].
      apply elem_of_cons in Hr as [->|Hr]; [by left|right].
      by exists [], rows.
    + apply elem_of_cons in Hr as [->|Hr]; [done|].
      destruct (IH ({[track_id x]} ∪ seen) Hr) as (r' & Hin & Heq & Hpos).
      { rewrite elem_of_union, elem_of_singleton. tauto. }
      exists r'. split_and!; [by right|done|].
      destruct Hpos as [->|(l1 & l2 & -> & Hl2)]; [by left|right].
      by exists (x :: l1), l2.
Qed.

(** *** The canonical catalogue *)

Lemma canonicalize_elem all_rows r : r ∈ canonicalize all_rows → r ∈ all_rows.
Proof.
  unfold canonicalize, drop_duplicates.
  intros [Hr _]%drop_duplicates_loop_elem. by apply elem_of_sorted_by in Hr.
Qed.

Lemma canonicalize_max all_rows r :
  r ∈ all_rows →
  ∃ kept, kept ∈ canonicalize all_rows
          ∧ track_id kept = track_id r
          ∧ (weight r <= weight kept)%Q.
Proof.
  intros Hr. unfold canonicalize, drop_duplicates.
  pose proof (sorted_by_sorted catalog_key catalog_leb catalog_leb_total
                catalog_leb_trans all_rows) as Hsorted.
  apply (elem_of_sorted_by catalog_key catalog_leb) in Hr.
  destruct (drop_duplicates_loop_first _ ∅ r Hr) as (kept & Hin & Heq & Hpos).
  { apply not_elem_of_empty. }
  exists kept. split_and!; [done|done|].
  destruct Hpos as [->|(l1 & l2 & Hsplit & Hl2)]; [apply Qle_refl|].
  rewrite Hsplit in Hsorted.
  apply StronglySorted_app_1_r, StronglySorted_cons in Hsorted as [Hall _].
  rewrite Forall_forall in Hall.
  by apply catalog_key_le_same_id; [apply Hall|].
Qed.

(** Scenario 2: a saved and a recently played record of one track. *)
Lemma scenario2_recent_wins (s r : RawRow) :
  raw_track_id s = raw_track_id r →
  canonicalize (concat_frames [s] [] [r]) = [tag_recent r].
Proof.
  intros Heq. unfold canonicalize, drop_duplicates, concat_frames.
  cbn [map app sorted_by insert_by].
  unfold catalog_leb, catalog_key. cbn [fst snd tag_saved tag_recent
    track_id weight].
  rewrite (proj2 (track_id_compare_eq _ _) Heq).
  change (Qle_bool (22 # 10) 1) with false.
  cbn [drop_duplicates_loop tag_recent tag_saved track_id].
  rewrite bool_decide_eq_false_2 by apply not_elem_of_empty.
  rewrite bool_decide_eq_true_2; [done|].
  rewrite Heq, elem_of_union, elem_of_singleton. by left.
Qed.

(** C5.  The canonical catalogue holds exactly one record for each
    [track_id] of the merged input, a record of the input, and no input
    record with that [track_id] weighs more.  A saved record (weight 1.0) and
    a recently played one (weight 2.2) of the same track leave the recently
    played one alone in the catalogue. *)
Theorem C5_highest_weight_retained (all_rows : list CatRow) (s r : RawRow) :
  let catalog := canonicalize all_rows in
  NoDup (track_id <$> catalog)
  ∧ (∀ row, row ∈ catalog → row ∈ all_rows)
  ∧ (∀ row, row ∈ all_rows →
       ∃ kept, kept ∈ catalog
               ∧ track_id kept = track_id row
               ∧ (weight row <= weight kept)%Q)
  ∧ (raw_track_id s = raw_track_id r →
     weight (tag_saved s) = 1%Q
     ∧ weight (tag_recent r) = (22 # 10)%Q
     ∧ canonicalize (concat_frames [s] [] [r]) = [tag_recent r]).
Proof.
  intros catalog. split_and!.
  - apply drop_duplicates_loop_NoDup.
  - intros row. apply canonicalize_elem.
  - intros row. apply canonicalize_max.
  - intros Heq. split_and!; [done|done|by apply scenario2_recent_wins].
Qed.

Lemma C5_highest_weight_retained_witness :
  canonicalize
    (concat_frames [raw_row "t1" "a1" "A"] [] [raw_row "t1" "a1" "A"])
  = [tag_recent (raw_row "t1" "a1" "A")].
Proof.
  apply (C5_highest_weight_retained [] (raw_row "t1" "a1" "A")
           (raw_row "t1" "a1" "A")).
  reflexivity.
Defined.

(** *** The artist accumulator *)

Lemma counter_add_keys {K : Type} `{EqDecision K} (k : K) (w : Q)
    (c : Counter K) :
  (counter_add k w c).*1 = if decide (k ∈ c.*1) then c.*1 else c.*1 ++ [k].
Proof.
  induction c as [|[k' v] c IH].
  - cbn [counter_add fmap list_fmap fst].
    destruct (decide (k ∈ [])) as [Hin|_]; [|done].
    by apply elem_of_nil in Hin.
  - cbn [counter_add]. rewrite !fmap_cons. cbn [fst].
    destruct (decide (k = k')) as [->|Hne].
    + rewrite fmap_cons. cbn [fst].
      destruct (decide (k' ∈ k' :: c.*1)) as [_|Hn]; [done|].
      destruct Hn. by left.
    + rewrite fmap_cons, IH. cbn [fst].
      destruct (decide (k ∈ c.*1)) as [Hin|Hin];
        destruct (decide (k ∈ k' :: c.*1)) as [Hin'|Hin']; try done.
      * destruct Hin'. by right.
      * apply elem_of_cons in Hin' as [?|?]; done.
Qed.

Lemma counter_add_elem {K : Type} `{EqDecision K} (k k' : K) (w : Q)
    (c : Counter K) :
  k' ∈ (counter_add k w c).*1 ↔ k' = k ∨ k' ∈ c.*1.
Proof.
  rewrite counter_add_keys. destruct (decide (k ∈ c.*1)) as [Hin|Hin].
  - split; [auto|]. by intros [->|?].
  - rewrite elem_of_app, list_elem_of_singleton. tauto.
Qed.

Lemma counter_add_NoDup {K : Type} `{EqDecision K} (k : K) (w : Q)
    (c : Counter K) :
  NoDup c.*1 → NoDup (counter_add k w c).*1.
Proof.
  intros Hnd. rewrite counter_add_keys.
  destruct (decide (k ∈ c.*1)) as [Hin|Hin]; [done|].
  apply NoDup_app. split_and!; [done| |apply NoDup_singleton].
  intros x Hx ->%list_elem_of_singleton. done.
Qed.





Lemma aggregate_snoc rows row :
  aggregate (rows ++ [row]) = aggregate_row (aggregate rows) row.
Proof. unfold aggregate. by rewrite foldl_app. Qed.






End BuildCatalogFacts.

(** ** Genre tokens *)
Module GenreFacts.

(** *** Stripping *)

Lemma lstrip_head (s : string) :
  lstrip s = EmptyString
  ∨ ∃ c s', lstrip s = String c s' ∧ is_space c = false.
Proof.
  induction s as [|c s IH]; simpl; [by left|].
  destruct (is_space c) eqn:Hc; [done|]. right. eauto.
Qed.

Lemma rstrip_head (c : ascii) (s : string) :
  is_space c = false → ∃ s', rstrip (String c s) = String c s'.
Proof.
  intros Hc. simpl. rewrite Hc. destruct (rstrip s); eauto.
Qed.

Lemma rstrip_idem (s : string) : rstrip (rstrip s) = rstrip s.
Proof.
  induction s as [|c s IH]; simpl; [done|].
  destruct (rstrip s) as [|d r] eqn:Hr.
  - destruct (is_space c) eqn:Hc; simpl; [done|]. by rewrite Hc.
  - cbn [rstrip] in IH |- *. by rewrite IH.
Qed.

Lemma strip_idem (s : string) : strip (strip s) = strip s.
Proof.
  unfold strip. destruct (lstrip_head s) as [->|(c & s' & -> & Hc)]; [done|].
  destruct (rstrip_head c s' Hc) as [r Hr]. rewrite Hr.
  cbn [lstrip]. rewrite Hc, <-Hr. apply rstrip_idem.
Qed.

(** *** What each script keeps *)

Lemma split_genres_not_blank (x : option string) :
  Forall (λ g, ¬ blank g) (BuildCatalog.split_genres x).
Proof.
  unfold BuildCatalog.split_genres. destruct x as [s|]; [|constructor].
  destruct (String.eqb (strip s) ""); [constructor|].
  apply Forall_forall. intros g (g0 & _ & Hg)%list_elem_of_omap.
  destruct (String.eqb_spec (strip g0) "") as [|Hne]; [done|].
  injection Hg as <-. unfold blank. by rewrite strip_idem.
Qed.

Lemma genre_list_clean (val : option string) :
  Forall (λ g, ¬ blank g ∧ lower g ≠ "nan"%string)
         (CompareRecs.genre_list val).
Proof.
  unfold CompareRecs.genre_list. destruct val as [s|]; [|constructor].
  destruct (String.eqb (strip s) ""); [constructor|].
  apply Forall_forall. intros g (g0 & _ & Hg)%list_elem_of_omap.
  destruct (String.eqb_spec (strip g0) "") as [|Hne]; [done|].
  destruct (String.eqb_spec (lower (strip g0)) "nan") as [|Hnan]; [done|].
  injection Hg as <-. unfold blank. by rewrite strip_idem.
Qed.

Lemma genres_map_clean (artists_df : list CompareRecs.ArtistsRow)
    (aid : string) (glist : list string) :
  CompareRecs.genres_map_from_artists artists_df !! aid = Some glist →
  Forall (λ g, ¬ blank g ∧ lower g ≠ "nan"%string) glist.
Proof.
  unfold CompareRecs.genres_map_from_artists.
  induction artists_df as [|row rows IH] using rev_ind; [done|].
  rewrite foldl_app. cbn [foldl]. rewrite lookup_insert.
  case_decide; [|done]. intros [= <-]. apply genre_list_clean.
Qed.

(** C8 at the input where the code departs from it.  For an artist whose
    genre text is [rock,nan] (the genres [rock] and [nan] as
    [fetch_api.py] joins them), [split_genres] of [build_catalog.py] returns
    the token [nan], which is scored in the genre accumulator and shows in
    the profile's [top_genres]; [compare_recs.py] drops that token from the
    same text. *)
Theorem C8_profile_scores_nan_token :
  BuildCatalog.split_genres (Some "rock,nan"%string) = ["rock"; "nan"]%string
  ∧ lower "nan" = "nan"%string
  ∧ (BuildCatalog.aggregate
       [BuildCatalog.cat_row "t1" "a1" "A" (Some "rock,nan"%string)]).2.*1
    = ["rock"; "nan"]%string
  ∧ (BuildCatalog.top_genres <$> (snd <$>
       BuildCatalog.main [BuildCatalog.raw_row "t1" "a1" "A"] [] []
         [{| BuildCatalog.meta_artist_id := Some "a1"%string;
             BuildCatalog.meta_artist_name := Some "A"%string;
             BuildCatalog.meta_genres := Some "rock,nan"%string |}]))
    = Some [("rock"%string, 1%Q); ("nan"%string, 1%Q)]
  ∧ CompareRecs.genre_list (Some "rock,nan"%string) = ["rock"%string]
  ∧ CompareRecs.genres_map_from_artists
      [{| CompareRecs.artist_id := Some "a1"%string;
          CompareRecs.genres := Some "rock,nan"%string |}] !! "a1"%string
    = Some ["rock"%string].
Proof.
  split_and!; vm_compute; reflexivity.
Qed.

End GenreFacts.

(** ** make_recs.py: more on the seed loop and the pipeline *)
Module MakeRecsMore.
Import MakeRecs MakeRecsFacts.

(** *** How much a run asks of the provider *)

Lemma slice_to_length_nat {A : Type} (n : Z) (l : list A) :
  0 ≤ n → (length (slice_to n l) ≤ Z.to_nat n)%nat.
Proof. intros Hn. pose proof (slice_to_length_le n l Hn). lia. Qed.

Lemma seed_body_calls cfg sp seed st log :
  (length (seed_body cfg sp seed st log).2
   ≤ length log + (if (0 <? related_per_seed cfg)%Z
                   then 2 + Z.to_nat (related_per_seed cfg) else 1))%nat.
Proof.
  destruct (Z.ltb_spec 0 (related_per_seed cfg)) as [Hrel|Hrel].
  - rewrite seed_body_related by lia. cbn [snd].
    rewrite fetch_each_log. unfold get_related, call. cbn [fst snd].
    rewrite tracks_from_artist_log, !length_app, length_fmap. cbn [length].
    pose proof (sublist_length _ _
      (fresh_ids_sublist st.2
         (slice_to (related_per_seed cfg)
            (related_ids
               (or_empty
                  (artist_related_artists sp
                     (log ++ [ArtistTopTracks seed (market cfg)]) seed))))))
      as Hsub.
    pose proof (slice_to_length_nat (related_per_seed cfg)
      (related_ids
         (or_empty
            (artist_related_artists sp
               (log ++ [ArtistTopTracks seed (market cfg)]) seed)))) as Hcut.
    lia.
  - rewrite seed_body_unrelated by lia. cbn [snd].
    rewrite tracks_from_artist_log, length_app. cbn [length]. lia.
Qed.

Lemma seed_loop_calls cfg sp seeds st log :
  (length (seed_loop cfg sp seeds st log).2
   ≤ length log
     + length seeds * (if (0 <? related_per_seed cfg)%Z
                       then 2 + Z.to_nat (related_per_seed cfg) else 1))%nat.
Proof.
  revert st log. induction seeds as [|seed rest IH]; intros st log.
  - simpl. lia.
  - rewrite seed_loop_cons. cbv zeta.
    pose proof (seed_body_calls cfg sp seed st log) as Hbody.
    destruct (_ >=? _).
    + cbn [length]. lia.
    + specialize (IH (seed_body cfg sp seed st log).1
                     (seed_body cfg sp seed st log).2).
      cbn [length]. lia.
Qed.

(** X1.  A run calls the provider at most once per seed when related
    artists are switched off, and at most [2 + related_per_seed] times per
    seed otherwise. *)
Theorem X1_calls_bounded_per_seed (cfg : Config) (sp : Spotify)
    (seeds : list string) (catalog_df : Catalog) :
  (length (calls_made cfg sp seeds catalog_df)
   ≤ length seeds * (if (0 <? related_per_seed cfg)%Z
                     then 2 + Z.to_nat (related_per_seed cfg) else 1))%nat.
Proof.
  unfold calls_made. rewrite gen_for_seeds_log.
  pose proof (seed_loop_calls cfg sp seeds ([], ∅) []) as H.
  cbn [length] in H. lia.
Qed.

(** *** How many rows a run collects *)

Lemma tracks_from_artist_length cfg sp artist n log :
  0 ≤ n → (length (tracks_from_artist cfg sp artist n log).1 ≤ Z.to_nat n)%nat.
Proof.
  intros Hn. unfold tracks_from_artist, get_top_tracks, call, mbind, IO_bind.
  cbn [fst mret IO_ret].
  destruct (or_empty _) as [|t ts]; [simpl; lia|].
  by apply slice_to_length_nat.
Qed.

Lemma fetch_each_rows cfg sp src artists log :
  0 ≤ top_per_artist cfg →
  (length (concat (tag src <$> (fetch_each cfg sp artists log).1))
   ≤ length artists * Z.to_nat (top_per_artist cfg))%nat.
Proof.
  intros Hn. revert log.
  induction artists as [|a rest IH]; intros log; [simpl; lia|].
  cbn [fetch_each]. unfold mbind, IO_bind.
  pose proof (tracks_from_artist_length cfg sp a (top_per_artist cfg) log Hn)
    as Ha.
  destruct (tracks_from_artist cfg sp a (top_per_artist cfg) log)
    as [tracks log1].
  specialize (IH log1). destruct (fetch_each cfg sp rest log1) as [more log2].
  cbn [fst mret IO_ret] in *. rewrite fmap_cons. cbn [concat].
  rewrite length_app. unfold tag at 1. rewrite length_map.
  cbn [length]. lia.
Qed.

Lemma seed_body_rows cfg sp seed st log :
  0 ≤ top_per_artist cfg →
  (length (seed_body cfg sp seed st log).1.1
   ≤ length st.1
     + (1 + Z.to_nat (related_per_seed cfg))
       * Z.to_nat (top_per_artist cfg))%nat.
Proof.
  intros Hn.
  pose proof (tracks_from_artist_length cfg sp seed (top_per_artist cfg)
                log Hn) as Hseed.
  destruct (Z.ltb_spec 0 (related_per_seed cfg)) as [Hrel|Hrel].
  - rewrite seed_body_related by lia. cbn [fst snd].
    rewrite !length_app. unfold tag at 1. rewrite length_map.
    match goal with
    | |- context [fetch_each cfg sp ?l ?lg] =>
        pose proof (fetch_each_rows cfg sp "by_related_top" l lg Hn) as Hrows;
        pose proof (sublist_length _ _
          (fresh_ids_sublist st.2
             (slice_to (related_per_seed cfg)
                (related_ids (get_related sp seed
                   (tracks_from_artist cfg sp seed (top_per_artist cfg)
                      log).2).1)))) as Hsub
    end.
    pose proof (slice_to_length_nat (related_per_seed cfg)
      (related_ids (get_related sp seed
         (tracks_from_artist cfg sp seed (top_per_artist cfg) log).2).1))
      as Hcut.
    nia.
  - rewrite seed_body_unrelated by lia. cbn [fst snd].
    rewrite length_app. unfold tag. rewrite length_map. nia.
Qed.

Lemma seed_loop_rows cfg sp seeds st log :
  0 ≤ top_per_artist cfg →
  (length st.1 ≤ Z.to_nat (2 * target_tracks cfg - 1))%nat →
  (length (seed_loop cfg sp seeds st log).1.1
   ≤ Z.to_nat (2 * target_tracks cfg - 1)
     + (1 + Z.to_nat (related_per_seed cfg))
       * Z.to_nat (top_per_artist cfg))%nat.
Proof.
  intros Hn. revert st log.
  induction seeds as [|seed rest IH]; intros st log Hst; [simpl; lia|].
  rewrite seed_loop_cons. cbv zeta.
  pose proof (seed_body_rows cfg sp seed st log Hn) as Hbody.
  destruct (Z.geb_spec
              (Z.of_nat (length (seed_body cfg sp seed st log).1.1))
              (target_tracks cfg * 2)) as [Hstop|Hgo].
  - lia.
  - apply IH. lia.
Qed.

(** X2.  With a per-artist limit that is not negative, the rows collected
    before de-duplication never exceed [2 * target_tracks - 1] (or 0 when
    that is negative) plus what one seed can add, that is
    [(1 + related_per_seed) * top_per_artist] rows: the length check after
    each seed caps the collection however many seeds there are. *)
Theorem X2_collected_rows_capped (cfg : Config) (sp : Spotify)
    (seeds : list string) (log : list Call) :
  0 ≤ top_per_artist cfg →
  Z.of_nat (length (seed_loop cfg sp seeds ([], ∅) log).1.1)
  ≤ Z.max 0 (2 * target_tracks cfg - 1)
    + (1 + Z.max 0 (related_per_seed cfg)) * top_per_artist cfg.
Proof.
  intros Hn.
  pose proof (seed_loop_rows cfg sp seeds ([], ∅) log Hn) as H.
  cbn [fst length] in H. specialize (H ltac:(lia)). nia.
Qed.

Lemma X2_collected_rows_capped_witness :
  Z.of_nat
    (length (seed_loop shared_cfg shared_sp ["s1"; "s2"]%string ([], ∅) []).1.1)
  ≤ Z.max 0 (2 * target_tracks shared_cfg - 1)
    + (1 + Z.max 0 (related_per_seed shared_cfg)) * top_per_artist shared_cfg.
Proof.
  apply (X2_collected_rows_capped shared_cfg shared_sp ["s1"; "s2"]%string []).
  vm_compute. discriminate.
Defined.

(** *** De-duplication keeps the first occurrence *)

Lemma dedup_loop_find rows seen t :
  t ≠ ""%string → t ∉ seen →
  List.find (λ r, String.eqb (tid r) t) (dedup_loop rows seen [])
  = List.find (λ r, String.eqb (tid r) t) rows.
Proof.
  intros Ht. revert seen. induction rows as [|x rows IH]; intros seen Hns.
  - done.
  - rewrite dedup_loop_cons.
    destruct (negb (String.eqb (tid x) "") && bool_decide (tid x ∉ seen))
      eqn:Hkeep.
    + cbn [List.find]. destruct (String.eqb_spec (tid x) t) as [Hx|Hx];
        [done|].
      apply IH. rewrite elem_of_union, elem_of_singleton.
      intros [?|?]; [by apply Hx|done].
    + cbn [List.find]. destruct (String.eqb_spec (tid x) t) as [Hx|Hx].
      * apply andb_false_iff in Hkeep as [Hk|Hk].
        -- apply negb_false_iff, String.eqb_eq in Hk. congruence.
        -- apply bool_decide_eq_false in Hk. destruct Hk. by rewrite Hx.
      * by apply IH.
Qed.

(** X3.  Of the rows that carry one non-empty track id, de-duplication
    keeps the first one collected: looking an id up in the list gives the
    same row before and after [dedup_rows]. *)
Theorem X3_dedup_keeps_first_occurrence (rows : list Row) (t : string) :
  t ≠ ""%string →
  List.find (λ r, String.eqb (tid r) t) (dedup_rows rows)
  = List.find (λ r, String.eqb (tid r) t) rows.
Proof.
  intros Ht. apply dedup_loop_find; [done|apply not_elem_of_empty].
Qed.

Lemma X3_dedup_keeps_first_occurrence_witness :
  List.find (λ r, String.eqb (tid r) "t1")
    (dedup_rows [as_row (track "t1" 5) "seed_top";
                 as_row (track "t1" 9) "by_related_top"])
  = Some (as_row (track "t1" 5) "seed_top").
Proof.
  rewrite (X3_dedup_keeps_first_occurrence
             [as_row (track "t1" 5) "seed_top";
              as_row (track "t1" 9) "by_related_top"] "t1").
  - reflexivity.
  - discriminate.
Defined.

(** X4.  [dedup_rows] only removes rows, leaving the others in collection
    order, and doing it twice changes nothing more. *)
Theorem X4_dedup_idempotent (rows : list Row) :
  dedup_rows rows `sublist_of` rows
  ∧ dedup_rows (dedup_rows rows) = dedup_rows rows.
Proof.
  split; [apply dedup_loop_sublist|].
  unfold dedup_rows at 1. apply dedup_loop_id.
  - apply dedup_loop_NoDup.
  - apply dedup_loop_Forall.
Qed.

(** *** What the pipeline keeps *)

Lemma dedup_rows_complete rows r :
  r ∈ rows → tid r ≠ ""%string →
  ∃ r', r' ∈ dedup_rows rows ∧ tid r' = tid r.
Proof.
  intros Hr Hne.
  pose proof (dedup_loop_find rows ∅ (tid r) Hne (not_elem_of_empty _)) as Hf.
  destruct (List.find (λ r0, String.eqb (tid r0) (tid r)) rows) as [r0|]
    eqn:Hfind.
  - apply find_some in Hf as [Hin Heq].
    exists r0. split; [by apply list_elem_of_In|by apply String.eqb_eq].
  - apply list_elem_of_In in Hr.
    pose proof (find_none _ _ Hfind r Hr) as Hr'. cbv beta in Hr'.
    by rewrite String.eqb_refl in Hr'.
Qed.

(** X5.  A collected row with a non-empty id that is not owned is lost to
    nothing but the truncation: when the filtered list fits the target, its
    id is in the output. *)
Theorem X5_unowned_id_survives (cfg : Config) (catalog_df : Catalog)
    (raw : list Row) (r : Row) :
  r ∈ raw → tid r ≠ ""%string → tid r ∉ owned_ids catalog_df →
  Z.of_nat (length (remove_owned (dedup_rows raw) catalog_df))
  ≤ target_tracks cfg →
  tid r ∈ tid <$> post_process cfg catalog_df raw.
Proof.
  intros Hr Hne Hown Hfit.
  destruct (dedup_rows_complete raw r Hr Hne) as (r' & Hin & Heq).
  rewrite <-Heq. apply list_elem_of_fmap_2.
  unfold post_process, truncate.
  unfold sort_rows at 1. rewrite sorted_by_length.
  destruct (Z.gtb_spec
    (Z.of_nat (length (remove_owned (dedup_rows raw) catalog_df)))
    (target_tracks cfg)); [lia|].
  unfold sort_rows. apply elem_of_sorted_by.
  rewrite remove_owned_filter. apply list_elem_of_filter.
  split; [by rewrite Heq|done].
Qed.

Lemma X5_unowned_id_survives_witness :
  "t10"%string
  ∈ tid <$> post_process scenario3_cfg None
              [as_row (track "t10" 10) "seed_top";
               as_row (track "t50" 50) "seed_top"].
Proof.
  apply (X5_unowned_id_survives scenario3_cfg None
           [as_row (track "t10" 10) "seed_top";
            as_row (track "t50" 50) "seed_top"]
           (as_row (track "t10" 10) "seed_top")).
  - by left.
  - discriminate.
  - apply not_elem_of_empty.
  - vm_compute. discriminate.
Defined.

(** X6.  The truncation cuts the ranked list at its end: the output is a
    prefix of the ranking, so no dropped row ranks before a kept one. *)
Theorem X6_truncation_drops_the_tail (cfg : Config) (catalog_df : Catalog)
    (raw : list Row) :
  ∃ dropped,
    sort_rows (remove_owned (dedup_rows raw) catalog_df)
    = post_process cfg catalog_df raw ++ dropped
    ∧ (∀ a b, a ∈ post_process cfg catalog_df raw → b ∈ dropped →
         (sort_key a).1 < (sort_key b).1
         ∨ ((sort_key a).1 = (sort_key b).1
            ∧ (sort_key a).2 ≤ (sort_key b).2)).
Proof.
  unfold post_process.
  destruct (truncate_take cfg
              (sort_rows (remove_owned (dedup_rows raw) catalog_df)))
    as [k ->].
  exists (drop k (sort_rows (remove_owned (dedup_rows raw) catalog_df))).
  split; [by rewrite take_drop|].
  intros a b Ha Hb. apply tuple_leb_le.
  pose proof (sort_rows_sorted (remove_owned (dedup_rows raw) catalog_df))
    as Hs.
  rewrite <-(take_drop k) in Hs.
  by apply (StronglySorted_app_1_elem_of _ _ _ a b Hs).
Qed.

(** *** Sources *)

Lemma tag_Forall (P : Row → Prop) src tracks :
  (∀ t, P (as_row t src)) → Forall P (tag src tracks).
Proof. intros HP. unfold tag. apply Forall_forall. intros r Hr.
  apply list_elem_of_In, in_map_iff in Hr as (t & <- & _). apply HP.
Qed.

Lemma concat_tag_Forall (P : Row → Prop) src (fetched : list (list Track)) :
  (∀ t, P (as_row t src)) → Forall P (concat (tag src <$> fetched)).
Proof.
  intros HP. induction fetched as [|ts rest IH]; [constructor|].
  rewrite fmap_cons. cbn [concat]. apply Forall_app. split; [|done].
  by apply tag_Forall.
Qed.

Lemma seed_body_Forall (P : Row → Prop) cfg sp seed st log :
  (∀ t, P (as_row t "seed_top")) → (∀ t, P (as_row t "by_related_top")) →
  Forall P st.1 → Forall P (seed_body cfg sp seed st log).1.1.
Proof.
  intros Hs Hr Hst.
  destruct (Z.ltb_spec 0 (related_per_seed cfg)) as [Hrel|Hrel].
  - rewrite seed_body_related by lia. cbn [fst].
    rewrite !Forall_app. split_and!; [done|by apply tag_Forall|].
    by apply concat_tag_Forall.
  - rewrite seed_body_unrelated by lia. cbn [fst].
    rewrite Forall_app. split; [done|by apply tag_Forall].
Qed.

Lemma seed_loop_Forall (P : Row → Prop) cfg sp seeds st log :
  (∀ t, P (as_row t "seed_top")) → (∀ t, P (as_row t "by_related_top")) →
  Forall P st.1 → Forall P (seed_loop cfg sp seeds st log).1.1.
Proof.
  intros Hs Hr. revert st log.
  induction seeds as [|seed rest IH]; intros st log Hst; [done|].
  rewrite seed_loop_cons. cbv zeta.
  pose proof (seed_body_Forall P cfg sp seed st log Hs Hr Hst) as Hbody.
  destruct (_ >=? _); [done|by apply IH].
Qed.

(** In a list ordered by the ranking key, the rows of [seed_top] come
    first. *)
Lemma ranked_seed_rows_first (l : list Row) :
  StronglySorted (key_le sort_key tuple_leb) l →
  l = filter (λ r, source r = "seed_top"%string) l
      ++ filter (λ r, source r ≠ "seed_top"%string) l.
Proof.
  induction 1 as [|x l Hl IH Hx]; [done|].
  rewrite !filter_cons.
  destruct (decide (source x = "seed_top"%string)) as [Hsrc|Hsrc].
  - rewrite decide_False by tauto. simpl. by rewrite <-IH.
  - rewrite decide_True by done.
    assert (Forall (λ r, source r ≠ "seed_top"%string) l) as Hrest.
    { eapply Forall_impl; [exact Hx|]. intros y Hxy Hy.
      apply tuple_leb_le in Hxy. unfold sort_key in Hxy.
      cbn [fst snd] in Hxy. rewrite Hy in Hxy.
      apply String.eqb_neq in Hsrc. rewrite Hsrc in Hxy.
      change (String.eqb "seed_top" "seed_top") with true in Hxy. lia. }
    rewrite (filter_all _ l Hrest).
    assert (filter (λ r, source r = "seed_top"%string) l = []) as ->; [|done].
    clear -Hrest. induction Hrest as [|y l Hy _ IH']; [done|].
    by rewrite filter_cons, decide_False, IH'.
Qed.

(** X7.  In the list a run returns, the rows tagged [seed_top] come before
    all the others, and every other row is tagged [by_related_top]. *)
Theorem X7_seed_rows_first (cfg : Config) (sp : Spotify)
    (seeds : list string) (catalog_df : Catalog) (log : list Call) :
  ∃ from_seeds from_related,
    (gen_for_seeds cfg sp seeds catalog_df log).1.1
    = from_seeds ++ from_related
    ∧ Forall (λ r, source r = "seed_top"%string) from_seeds
    ∧ Forall (λ r, source r = "by_related_top"%string) from_related.
Proof.
  rewrite gen_for_seeds_rows.
  set (raw := (seed_loop cfg sp seeds ([], ∅) log).1.1).
  set (out := post_process cfg catalog_df raw).
  assert (Forall (λ r, source r = "seed_top"%string
                       ∨ source r = "by_related_top"%string) out) as Htags.
  { apply post_process_Forall.
    eapply Forall_sublist_of; [|apply dedup_loop_sublist].
    apply seed_loop_Forall; [by left|by right|constructor]. }
  assert (StronglySorted (key_le sort_key tuple_leb) out) as Hsorted.
  { unfold out, post_process.
    destruct (truncate_take cfg
                (sort_rows (remove_owned (dedup_rows raw) catalog_df)))
      as [k ->].
    pose proof (sort_rows_sorted (remove_owned (dedup_rows raw) catalog_df))
      as Hs.
    rewrite <-(take_drop k) in Hs. by apply StronglySorted_app_1_l in Hs. }
  exists (filter (λ r, source r = "seed_top"%string) out),
         (filter (λ r, source r ≠ "seed_top"%string) out).
  split_and!.
  - by apply ranked_seed_rows_first.
  - apply Forall_forall. by intros r [? _]%list_elem_of_filter.
  - apply Forall_forall. intros r [Hne Hr]%list_elem_of_filter.
    rewrite Forall_forall in Htags. destruct (Htags r Hr); done.
Qed.

(** *** No related artist is expanded twice *)

Lemma occurrences_app {K : Type} `{EqDecision K} (k : K) (l1 l2 : list K) :
  occurrences k (l1 ++ l2) = (occurrences k l1 + occurrences k l2)%nat.
Proof. unfold occurrences. by rewrite filter_app, length_app. Qed.

Lemma occurrences_cons {K : Type} `{EqDecision K} (k x : K) (l : list K) :
  occurrences k (x :: l)
  = ((if decide (x = k) then 1 else 0) + occurrences k l)%nat.
Proof.
  unfold occurrences. rewrite filter_cons. by destruct (decide (x = k)).
Qed.

Lemma occurrences_top_calls (a mkt : string) (artists : list string) :
  NoDup artists →
  occurrences (ArtistTopTracks a mkt)
              ((λ x, ArtistTopTracks x mkt) <$> artists)
  = if decide (a ∈ artists) then 1%nat else 0%nat.
Proof.
  induction 1 as [|x l Hx Hl IH]; [done|].
  rewrite fmap_cons, occurrences_cons, IH.
  destruct (decide (x = a)) as [->|Hne].
  - rewrite decide_True by done. rewrite decide_False by done.
    rewrite decide_True by by left. done.
  - rewrite decide_False by congruence.
    destruct (decide (a ∈ l)) as [Hin|Hin].
    + rewrite decide_True by by right. done.
    + rewrite decide_False; [done|]. rewrite elem_of_cons.
      intros [?|?]; [congruence|done].
Qed.

Lemma seed_body_top_calls cfg sp seed st log (a : string) :
  let r := seed_body cfg sp seed st log in
  (occurrences (ArtistTopTracks a (market cfg)) r.2
   + (if decide (a ∈ r.1.2) then 0 else 1)
   ≤ occurrences (ArtistTopTracks a (market cfg)) log
     + (if decide (a ∈ st.2) then 0 else 1)
     + (if decide (seed = a) then 1 else 0))%nat.
Proof.
  cbv zeta. destruct (Z.ltb_spec 0 (related_per_seed cfg)) as [Hrel|Hrel].
  - rewrite seed_body_related by lia. cbn [fst snd].
    rewrite fetch_each_log. unfold get_related, call. cbn [fst snd].
    rewrite tracks_from_artist_log.
    set (rel_ids := slice_to (related_per_seed cfg) _).
    rewrite !occurrences_app, !occurrences_cons.
    rewrite occurrences_top_calls by apply fresh_ids_NoDup.
    change (occurrences (ArtistTopTracks a (market cfg)) []) with 0%nat.
    pose proof (fresh_ids_elem st.2 rel_ids a) as Hfresh.
    pose proof (elem_of_union (list_to_set rel_ids : gset string) st.2 a)
      as Hunion.
    rewrite elem_of_list_to_set in Hunion.
    repeat case_decide; simplify_eq; try lia; exfalso; tauto.
  - rewrite seed_body_unrelated by lia. cbn [fst snd].
    rewrite tracks_from_artist_log, occurrences_app, occurrences_cons.
    change (occurrences (ArtistTopTracks a (market cfg)) []) with 0%nat.
    repeat case_decide; simplify_eq; lia.
Qed.

Lemma seed_loop_top_calls cfg sp seeds st log (a : string) :
  let r := seed_loop cfg sp seeds st log in
  (occurrences (ArtistTopTracks a (market cfg)) r.2
   + (if decide (a ∈ r.1.2) then 0 else 1)
   ≤ occurrences (ArtistTopTracks a (market cfg)) log
     + (if decide (a ∈ st.2) then 0 else 1)
     + occurrences a seeds)%nat.
Proof.
  cbv zeta. revert st log.
  induction seeds as [|seed rest IH]; intros st log.
  - cbn. unfold occurrences. cbn. lia.
  - rewrite seed_loop_cons. cbv zeta.
    pose proof (seed_body_top_calls cfg sp seed st log a) as Hbody.
    cbv zeta in Hbody. rewrite occurrences_cons.
    destruct (_ >=? _).
    + lia.
    + specialize (IH (seed_body cfg sp seed st log).1
                     (seed_body cfg sp seed st log).2). lia.
Qed.

(** X25.  In one run the top tracks of an artist are asked for once for
    every time the artist is a seed, and at most once more, as a related
    artist: the set of expanded artists spans the whole run. *)
Theorem X25_related_artist_expanded_once (cfg : Config) (sp : Spotify)
    (seeds : list string) (catalog_df : Catalog) (a : string) :
  (occurrences (ArtistTopTracks a (market cfg))
               (calls_made cfg sp seeds catalog_df)
   ≤ occurrences a seeds + 1)%nat.
Proof.
  unfold calls_made. rewrite gen_for_seeds_log.
  pose proof (seed_loop_top_calls cfg sp seeds ([], ∅) [] a) as H.
  cbv zeta in H. cbn [snd] in H.
  rewrite (decide_False (P := a ∈ ∅)) in H by apply not_elem_of_empty.
  change (occurrences (ArtistTopTracks a (market cfg)) []) with 0%nat in H.
  lia.
Qed.

End MakeRecsMore.

(** ** Counting occurrences *)
Section TallyFacts.
Context {K : Type} `{EqDecision K}.

Lemma tally_add_keys (k : K) (c : Tally K) :
  (tally_add k c).*1 = if decide (k ∈ c.*1) then c.*1 else c.*1 ++ [k].
Proof.
  induction c as [|[k' n] c IH].
  - cbn [tally_add fmap list_fmap fst].
    destruct (decide (k ∈ [])) as [Hin|_]; [|done].
    by apply elem_of_nil in Hin.
  - cbn [tally_add]. rewrite !fmap_cons. cbn [fst].
    destruct (decide (k = k')) as [->|Hne].
    + rewrite fmap_cons. cbn [fst].
      destruct (decide (k' ∈ k' :: c.*1)) as [_|Hn]; [done|].
      destruct Hn. by left.
    + rewrite fmap_cons, IH. cbn [fst].
      destruct (decide (k ∈ c.*1)) as [Hin|Hin];
        destruct (decide (k ∈ k' :: c.*1)) as [Hin'|Hin']; try done.
      * destruct Hin'. by right.
      * apply elem_of_cons in Hin' as [?|?]; done.
Qed.

Lemma tally_snoc (l : list K) (k : K) :
  tally (l ++ [k]) = tally_add k (tally l).
Proof. unfold tally. by rewrite foldl_app. Qed.

Lemma tally_keys_elem (l : list K) (k : K) : k ∈ (tally l).*1 ↔ k ∈ l.
Proof.
  induction l as [|x l IH] using rev_ind; [done|].
  rewrite tally_snoc, tally_add_keys, elem_of_app, list_elem_of_singleton.
  destruct (decide (x ∈ (tally l).*1)) as [Hin|Hin].
  - rewrite IH. split; [auto|]. intros [?|Heq]; [done|].
    subst k. by apply IH.
  - rewrite elem_of_app, list_elem_of_singleton, IH. done.
Qed.

Lemma tally_keys_NoDup (l : list K) : NoDup (tally l).*1.
Proof.
  induction l as [|x l IH] using rev_ind; [constructor|].
  rewrite tally_snoc, tally_add_keys.
  destruct (decide (x ∈ (tally l).*1)) as [Hin|Hin]; [done|].
  apply NoDup_app. split_and!; [done| |apply NoDup_singleton].
  intros y Hy Hy'%list_elem_of_singleton. by subst y.
Qed.

(** The counts of [tally_add k c] are those of [c], with one more for [k]. *)
Lemma tally_add_counts (f g : K → nat) (k : K) (c : Tally K) :
  (∀ k', g k' = (f k' + if decide (k' = k) then 1 else 0)%nat) →
  (k ∉ c.*1 → f k = 0%nat) → NoDup c.*1 →
  Forall (λ e, e.2 = f e.1) c → Forall (λ e, e.2 = g e.1) (tally_add k c).
Proof.
  intros Hg. induction c as [|[k' n] c IH]; intros Hnew Hnd Hc.
  - cbn [tally_add]. constructor; [|constructor]. cbn [fst snd].
    rewrite Hg, decide_True, Hnew by (done || apply not_elem_of_nil). done.
  - apply Forall_cons in Hc as [Hn Hc]. cbn [fst snd] in Hn.
    rewrite fmap_cons in Hnd. cbn [fst] in Hnd.
    apply NoDup_cons in Hnd as [Hk' Hnd].
    cbn [tally_add]. destruct (decide (k = k')) as [->|Hne].
    + constructor.
      * cbn [fst snd]. rewrite Hg, decide_True by done. lia.
      * apply Forall_forall. intros [k2 m] Hin.
        rewrite Forall_forall in Hc. specialize (Hc _ Hin).
        cbn [fst snd] in *. rewrite Hg, decide_False; [lia|].
        intros ->. apply Hk'.
        by apply (list_elem_of_fmap_2 fst) in Hin.
    + constructor.
      * cbn [fst snd]. rewrite Hg, decide_False by done. lia.
      * apply IH; [|done|done]. intros Hk. apply Hnew. rewrite fmap_cons.
        cbn [fst]. rewrite elem_of_cons. tauto.
Qed.

Lemma occurrences_snoc (k x : K) (l : list K) :
  occurrences k (l ++ [x])
  = (occurrences k l + if decide (k = x) then 1 else 0)%nat.
Proof.
  unfold occurrences. rewrite filter_app, length_app, filter_cons, filter_nil.
  destruct (decide (x = k)) as [->|Hne].
  - by rewrite decide_True.
  - by rewrite decide_False by congruence.
Qed.

Lemma occurrences_not_elem (k : K) (l : list K) :
  k ∉ l → occurrences k l = 0%nat.
Proof.
  unfold occurrences. induction l as [|y l IH]; [done|].
  rewrite not_elem_of_cons. intros [Hne Hk].
  rewrite filter_cons, decide_False by congruence. auto.
Qed.

(** Each entry counts the occurrences of its key. *)
Lemma tally_counts (l : list K) :
  Forall (λ e, e.2 = occurrences e.1 l) (tally l).
Proof.
  induction l as [|x l IH] using rev_ind; [constructor|].
  rewrite tally_snoc.
  apply (tally_add_counts (λ k, occurrences k l)
           (λ k, occurrences k (l ++ [x])));
    [| |apply tally_keys_NoDup|done].
  - intros k'. apply occurrences_snoc.
  - rewrite tally_keys_elem. apply occurrences_not_elem.
Qed.

Lemma tally_most_common_take (n : Z) (c : Tally K) :
  tally_most_common n c
  = take (Z.to_nat n) (sorted_by snd (λ a b, Nat.leb b a) c).
Proof. done. Qed.

Lemma count_leb_total (a b : nat) : Nat.leb b a = true ∨ Nat.leb a b = true.
Proof. rewrite !Nat.leb_le. lia. Qed.

Lemma count_leb_trans (a b c : nat) :
  Nat.leb b a = true → Nat.leb c b = true → Nat.leb c a = true.
Proof. rewrite !Nat.leb_le. lia. Qed.

(** The entries of [most_common] are entries of the counter, taken without
    repetition, in the order of decreasing count. *)
Lemma tally_most_common_spec (n : Z) (c : Tally K) :
  NoDup c.*1 →
  NoDup (tally_most_common n c).*1
  ∧ (∀ e, e ∈ tally_most_common n c → e ∈ c)
  ∧ StronglySorted (λ a b : K * nat, (b.2 ≤ a.2)%nat) (tally_most_common n c)
  ∧ (length (tally_most_common n c) ≤ Z.to_nat n)%nat.
Proof.
  intros Hnd. unfold tally_most_common.
  set (s := sorted_by snd (λ a b, Nat.leb b a) c).
  assert (s ≡ₚ c) as Hperm by apply sorted_by_perm.
  assert (StronglySorted (λ a b : K * nat, (b.2 ≤ a.2)%nat) s) as Hs.
  { eapply StronglySorted_mono;
      [|apply (sorted_by_sorted snd (λ a b, Nat.leb b a))].
    - intros a b Hab. by apply Nat.leb_le.
    - intros a b. apply count_leb_total.
    - intros a b d. apply count_leb_trans. }
  split_and!.
  - apply (sublist_NoDup _ (s.*1)); [by rewrite Hperm|].
    apply fmap_sublist, sublist_take.
  - intros e He. rewrite <-Hperm. eapply elem_of_sublist; [done|].
    apply sublist_take.
  - rewrite <-(take_drop (Z.to_nat n) s) in Hs.
    by apply StronglySorted_app_1_l in Hs.
  - rewrite length_take. lia.
Qed.
End TallyFacts.

(** ** make_recs.py: the seeds and [main] *)
Module SeedSelectionFacts.
Import MakeRecs MakeRecsFacts SeedSelection.

Lemma slice_to_Forall {A : Type} (P : A → Prop) (n : Z) (l : list A) :
  Forall P l → Forall P (slice_to n l).
Proof.
  intros HP. destruct (slice_to_take n l) as [k ->]. by apply Forall_take.
Qed.

Lemma nonblank_Some (s a : string) :
  nonblank s = Some a → a = strip s ∧ a ≠ ""%string ∧ strip a = a.
Proof.
  unfold nonblank. destruct (String.eqb_spec (strip s) "") as [|Hne]; [done|].
  intros [= <-]. split_and!; [done|done|apply GenreFacts.strip_idem].
Qed.

Lemma nonblank_None (s : string) :
  nonblank s = None ↔ strip s = ""%string.
Proof.
  unfold nonblank. destruct (String.eqb_spec (strip s) ""); naive_solver.
Qed.

(** X8.  The history seeds are non-empty, stripped ids, at most [n] of them
    when [n] is not negative.  They are the ids of [top_artists] as soon as
    one of these is not blank, and come from [seeds.artist_ids] only when
    all of them are. *)
Theorem X8_history_seeds (profile : ProfileJson) (n : Z) :
  let top := default [] (pj_top_artists profile) in
  let fallback := default [] (pj_seed_artist_ids profile) in
  let out := pick_top_artists_from_profile profile n in
  Forall (λ a, a ≠ ""%string ∧ strip a = a) out
  ∧ (0 ≤ n → Z.of_nat (length out) ≤ n)
  ∧ ((∃ item, item ∈ top ∧ strip (str_or_empty item) ≠ ""%string) →
     Forall (λ a, ∃ item, item ∈ top ∧ a = strip (str_or_empty item)) out)
  ∧ ((∀ item, item ∈ top → strip (str_or_empty item) = ""%string) →
     Forall (λ a, ∃ x, x ∈ fallback ∧ a = strip x) out).
Proof.
  intros top fallback out. subst out. unfold pick_top_artists_from_profile.
  fold top fallback.
  set (cleaned := omap (λ item, nonblank (str_or_empty item)) top).
  assert (Forall (λ a, (a ≠ ""%string ∧ strip a = a)
                       ∧ ∃ item, item ∈ top ∧ a = strip (str_or_empty item))
                 cleaned) as Hcleaned.
  { apply Forall_forall. intros a (item & Hin & Ha)%list_elem_of_omap.
    apply nonblank_Some in Ha as (-> & ? & ?). eauto. }
  assert (Forall (λ a, (a ≠ ""%string ∧ strip a = a)
                       ∧ ∃ x, x ∈ fallback ∧ a = strip x)
                 (omap nonblank fallback)) as Hfallback.
  { apply Forall_forall. intros a (x & Hin & Ha)%list_elem_of_omap.
    apply nonblank_Some in Ha as (-> & ? & ?). eauto. }
  split_and!.
  - apply slice_to_Forall. destruct cleaned as [|c cs].
    + eapply Forall_impl; [exact Hfallback|]. by intros a [? _].
    + eapply Forall_impl; [exact Hcleaned|]. by intros a [? _].
  - intros Hn. by apply slice_to_length_le.
  - intros (item & Hin & Hne). apply slice_to_Forall.
    destruct cleaned as [|c cs] eqn:Hc.
    + exfalso. destruct (nonblank (str_or_empty item)) as [a|] eqn:Ha.
      * assert (a ∈ cleaned) as Hacl
          by (apply list_elem_of_omap; eauto).
        rewrite Hc in Hacl. by apply elem_of_nil in Hacl.
      * by apply nonblank_None in Ha.
    + eapply Forall_impl; [exact Hcleaned|]. by intros a [_ ?].
  - intros Hblank. apply slice_to_Forall.
    destruct cleaned as [|c cs] eqn:Hc.
    + eapply Forall_impl; [exact Hfallback|]. by intros a [_ ?].
    + exfalso. assert (c ∈ cleaned) as Hccl by (rewrite Hc; by left).
      apply list_elem_of_omap in Hccl as (item & Hin & Ha).
      apply nonblank_Some in Ha as (-> & Hne & _). by apply Hne, Hblank.
Qed.

Lemma X8_history_seeds_witness :
  Z.of_nat
    (length (pick_top_artists_from_profile
               {| pj_top_artists := Some [Some " a1 "; None; Some "a2"]%string;
                  pj_seed_artist_ids := Some ["a9"%string] |} 1)) ≤ 1
  ∧ Forall (λ a, ∃ item, item ∈ [Some " a1 "; None; Some "a2"]%string
                         ∧ a = strip (str_or_empty item))
      (pick_top_artists_from_profile
         {| pj_top_artists := Some [Some " a1 "; None; Some "a2"]%string;
            pj_seed_artist_ids := Some ["a9"%string] |} 1)
  ∧ Forall (λ a, ∃ x, x ∈ ["a9"%string] ∧ a = strip x)
      (pick_top_artists_from_profile
         {| pj_top_artists := Some [Some "  "; None]%string;
            pj_seed_artist_ids := Some ["a9"%string] |} 1).
Proof.
  split_and!.
  - apply (X8_history_seeds
             {| pj_top_artists := Some [Some " a1 "; None; Some "a2"]%string;
                pj_seed_artist_ids := Some ["a9"%string] |} 1). lia.
  - apply (X8_history_seeds
             {| pj_top_artists := Some [Some " a1 "; None; Some "a2"]%string;
                pj_seed_artist_ids := Some ["a9"%string] |} 1).
    exists (Some " a1 "%string). split; [by left|]. vm_compute. discriminate.
  - apply (X8_history_seeds
             {| pj_top_artists := Some [Some "  "; None]%string;
                pj_seed_artist_ids := Some ["a9"%string] |} 1).
    intros item Hin. cbn [default pj_top_artists] in Hin.
    repeat (apply elem_of_cons in Hin as [->|Hin]; [reflexivity|]).
    by apply elem_of_nil in Hin.
Defined.

Lemma StronglySorted_fmap_on {A B : Type} (R : A → A → Prop)
    (R' : B → B → Prop) (Q : A → Prop) (f : A → B) (l : list A) :
  (∀ a b, Q a → Q b → R a b → R' (f a) (f b)) →
  Forall Q l → StronglySorted R l → StronglySorted R' (f <$> l).
Proof.
  intros HR HQ Hs. induction Hs as [|x l Hl IH Hx]; [constructor|].
  apply Forall_cons in HQ as [Hqx HQ]. rewrite fmap_cons.
  constructor; [by apply IH|].
  apply Forall_fmap, Forall_forall. intros y Hy.
  rewrite Forall_forall in Hx, HQ. apply HR; auto.
Qed.

(** X9.  The preference seeds are artist ids of the saved tracks, each
    once, at most [n] of them, the more often saved first. *)
Theorem X9_preference_seeds (saved_df : SavedFrame) (n : Z) :
  let ids := omap id (default [] saved_df) in
  let out := pick_top_artists_from_saved saved_df n in
  NoDup out
  ∧ Forall (λ a, a ∈ ids) out
  ∧ StronglySorted (λ a b, (occurrences b ids ≤ occurrences a ids)%nat) out
  ∧ (length out ≤ Z.to_nat n)%nat.
Proof.
  intros ids out. subst out ids. unfold pick_top_artists_from_saved.
  destruct saved_df as [[|c col]|];
    [split_and!; try constructor; simpl; lia| |
     split_and!; try constructor; simpl; lia].
  cbn [default]. set (ids := omap id (c :: col)).
  destruct (tally_most_common_spec n (tally ids) (tally_keys_NoDup ids))
    as (Hnd & Hin & Hsorted & Hlen).
  pose proof (tally_counts ids) as Hcounts.
  assert (Forall (λ e, e.2 = occurrences e.1 ids)
                 (tally_most_common n (tally ids))) as Hc.
  { apply Forall_forall. intros e He. rewrite Forall_forall in Hcounts.
    by apply Hcounts, Hin. }
  split_and!.
  - done.
  - apply Forall_fmap, Forall_forall. intros e He. cbn.
    apply (tally_keys_elem ids). apply list_elem_of_fmap_2. by apply Hin.
  - eapply (StronglySorted_fmap_on _ _ (λ e, e.2 = occurrences e.1 ids));
      [|exact Hc|exact Hsorted].
    intros a b Ha Hb Hab.
    change (occurrences b.1 ids ≤ occurrences a.1 ids)%nat.
    rewrite <-Ha, <-Hb. exact Hab.
  - by rewrite length_fmap.
Qed.

(** *** [main] *)

(** What every list returned by [gen_for_seeds] satisfies. *)
Lemma gen_for_seeds_sound cfg sp seeds catalog_df log :
  0 ≤ target_tracks cfg →
  let rows := (gen_for_seeds cfg sp seeds catalog_df log).1.1 in
  NoDup (tid <$> rows)
  ∧ Forall (λ r, tid r ≠ ""%string
                 ∧ (∀ col, catalog_df = Some col → track_id r ∉ col)) rows
  ∧ Z.of_nat (length rows) ≤ target_tracks cfg.
Proof.
  intros Ht rows. subst rows. rewrite gen_for_seeds_rows. split_and!.
  - apply post_process_NoDup.
  - pose proof (post_process_has_id cfg catalog_df
                  (seed_loop cfg sp seeds ([], ∅) log).1.1) as Hne.
    pose proof (post_process_not_owned cfg catalog_df
                  (seed_loop cfg sp seeds ([], ∅) log).1.1) as Hno.
    rewrite Forall_forall in Hne. rewrite Forall_forall in Hno.
    apply Forall_forall. intros r Hr. split; [by apply Hne|].
    intros col -> Hin. apply (Hno r Hr). exists col. split; [done|].
    pose proof (Hne r Hr) as Hid. unfold tid in Hid |- *.
    by destruct (track_id r).
  - by apply truncate_length.
Qed.

Lemma main_unfold cfg scfg sp profile catalog saved log :
  let seeds_history :=
    pick_top_artists_from_profile profile (seeds_history_max scfg) in
  let picked := pick_top_artists_from_saved saved (seeds_prefs_max scfg) in
  let seeds_prefs :=
    match picked with
    | [] => slice_to (seeds_prefs_max scfg) seeds_history
    | _ => picked
    end in
  let hist := gen_for_seeds cfg sp seeds_history catalog log in
  let prefs := gen_for_seeds cfg sp seeds_prefs catalog hist.2 in
  main cfg scfg sp profile catalog saved log
  = ({| recs_history := hist.1.1; recs_prefs := prefs.1.1;
        out_seeds_history := seeds_history;
        out_seeds_prefs := seeds_prefs |}, prefs.2).
Proof.
  cbv zeta. unfold main, mbind, IO_bind.
  destruct (gen_for_seeds cfg sp _ catalog log) as [hist log1]. cbn [snd].
  by destruct (gen_for_seeds cfg sp _ catalog log1) as [prefs log2].
Qed.

(** X10.  Both lists [main] writes are free of duplicate and empty track
    ids, no [track_id] cell of theirs is a cell of the [track_id] column of
    the catalogue, and they are no longer than a target that is not
    negative. *)
Theorem X10_main_lists_sound (cfg : Config) (scfg : SeedConfig)
    (sp : Spotify) (profile : ProfileJson) (catalog : Catalog)
    (saved : SavedFrame) (log : list Call) :
  0 ≤ target_tracks cfg →
  let out := (main cfg scfg sp profile catalog saved log).1 in
  Forall (λ rows,
            NoDup (tid <$> rows)
            ∧ Forall (λ r, tid r ≠ ""%string
                           ∧ (∀ col, catalog = Some col → track_id r ∉ col))
                     rows
            ∧ Z.of_nat (length rows) ≤ target_tracks cfg)
         [recs_history out; recs_prefs out].
Proof.
  intros Ht out. subst out. rewrite main_unfold. cbn [fst recs_history
    recs_prefs out_seeds_history out_seeds_prefs].
  repeat constructor; by apply gen_for_seeds_sound.
Qed.

(** The seeds [s1] and [s2] of the profile lead to the tracks [t1] to [t5];
    the catalogue holds [t3], which neither list proposes. *)
Lemma X10_main_lists_sound_witness :
  let catalog : Catalog := Some [Some "t3"%string] in
  let out :=
    (main default_config default_seed_config shared_sp
       {| pj_top_artists := Some [Some "s1"; Some "s2"]%string;
          pj_seed_artist_ids := None |}
       catalog None []).1 in
  shown <$> recs_history out
  = [(Some "t2", Some 2, "seed_top"); (Some "t1", Some 1, "seed_top");
     (Some "t5", Some 5, "by_related_top");
     (Some "t4", Some 4, "by_related_top")]%string
  ∧ shown <$> recs_prefs out = shown <$> recs_history out
  ∧ Forall (λ rows, Forall (λ r, track_id r ∉ [Some "t3"%string]) rows)
           [recs_history out; recs_prefs out].
Proof.
  intros catalog out. split_and!; [vm_compute; reflexivity..|].
  assert (0 ≤ target_tracks default_config) as Ht
    by (vm_compute; discriminate).
  pose proof (X10_main_lists_sound default_config default_seed_config
                shared_sp
                {| pj_top_artists := Some [Some "s1"; Some "s2"]%string;
                   pj_seed_artist_ids := None |}
                catalog None [] Ht) as Hsound.
  eapply Forall_impl; [exact Hsound|].
  intros rows (_ & Hrows & _). eapply Forall_impl; [exact Hrows|].
  intros r [_ Hr]. by apply (Hr [Some "t3"%string]).
Defined.

Lemma gen_for_seeds_nil cfg sp catalog_df log :
  (gen_for_seeds cfg sp [] catalog_df log).1.1 = []
  ∧ (gen_for_seeds cfg sp [] catalog_df log).2 = log.
Proof.
  split; [|done]. rewrite gen_for_seeds_rows.
  change (seed_loop cfg sp [] ([], ∅) log).1.1 with (@nil Row).
  unfold post_process. change (dedup_rows []) with (@nil Row).
  rewrite remove_owned_filter, filter_nil.
  change (sort_rows []) with (@nil Row).
  destruct (truncate_take cfg (@nil Row)) as [k ->]. apply take_nil.
Qed.

(** X11.  When neither the profile nor the saved tracks give a seed, [main]
    does not call the provider and writes two empty lists; this is the case
    when [profile.json] and the saved tracks are missing. *)
Theorem X11_no_seed_no_call (cfg : Config) (scfg : SeedConfig)
    (sp : Spotify) (profile : ProfileJson) (catalog : Catalog)
    (saved : SavedFrame) (log : list Call) :
  (pick_top_artists_from_profile profile (seeds_history_max scfg) = [] →
   pick_top_artists_from_saved saved (seeds_prefs_max scfg) = [] →
   main cfg scfg sp profile catalog saved log
   = ({| recs_history := []; recs_prefs := [];
         out_seeds_history := []; out_seeds_prefs := [] |}, log))
  ∧ pick_top_artists_from_profile
      {| pj_top_artists := None; pj_seed_artist_ids := None |}
      (seeds_history_max scfg) = []
  ∧ pick_top_artists_from_saved None (seeds_prefs_max scfg) = [].
Proof.
  split_and!.
  - intros Hh Hp. rewrite main_unfold, Hh, Hp.
    assert (slice_to (seeds_prefs_max scfg) (@nil string) = []) as ->.
    { destruct (slice_to_take (seeds_prefs_max scfg) (@nil string)) as [k ->].
      apply take_nil. }
    destruct (gen_for_seeds_nil cfg sp catalog log) as [-> ->].
    by destruct (gen_for_seeds_nil cfg sp catalog log) as [-> ->].
  - unfold pick_top_artists_from_profile. cbn.
    destruct (slice_to_take (seeds_history_max scfg) (@nil string)) as [k ->].
    apply take_nil.
  - done.
Qed.

Lemma X11_no_seed_no_call_witness :
  main default_config default_seed_config shared_sp
    {| pj_top_artists := None; pj_seed_artist_ids := None |} None None []
  = ({| recs_history := []; recs_prefs := [];
        out_seeds_history := []; out_seeds_prefs := [] |}, []).
Proof.
  apply (X11_no_seed_no_call default_config default_seed_config shared_sp
           {| pj_top_artists := None; pj_seed_artist_ids := None |}
           None None []); reflexivity.
Defined.

End SeedSelectionFacts.

(** ** Counters as sums *)
Section CounterFacts.
Context {K : Type} `{EqDecision K}.

Lemma sum_in_order_snoc (ws : list Q) (w : Q) :
  sum_in_order (ws ++ [w]) = float_add (sum_in_order ws) w.
Proof. unfold sum_in_order. by rewrite foldl_app. Qed.

Lemma weights_of_snoc (k k0 : K) (w : Q) (pairs : list (K * Q)) :
  weights_of k (pairs ++ [(k0, w)])
  = if decide (k = k0) then weights_of k pairs ++ [w] else weights_of k pairs.
Proof.
  unfold weights_of. rewrite filter_app, fmap_app, filter_cons, filter_nil.
  cbn [fst]. destruct (decide (k0 = k)) as [->|Hne].
  - by rewrite decide_True.
  - rewrite decide_False by congruence. by rewrite app_nil_r.
Qed.

Lemma weights_of_absent (k : K) (pairs : list (K * Q)) :
  k ∉ pairs.*1 → weights_of k pairs = [].
Proof.
  unfold weights_of. induction pairs as [|[k' w] pairs IH]; [done|].
  rewrite fmap_cons, not_elem_of_cons. cbn [fst]. intros [Hne Hk].
  rewrite filter_cons. cbn [fst]. rewrite decide_False by congruence. auto.
Qed.

Lemma counter_of_pairs_snoc (pairs : list (K * Q)) (k : K) (w : Q) :
  counter_of_pairs (pairs ++ [(k, w)])
  = counter_add k w (counter_of_pairs pairs).
Proof. unfold counter_of_pairs. by rewrite foldl_app. Qed.

Lemma counter_of_pairs_keys (pairs : list (K * Q)) (k : K) :
  k ∈ (counter_of_pairs pairs).*1 ↔ k ∈ pairs.*1.
Proof.
  induction pairs as [|[k0 w] pairs IH] using rev_ind; [done|].
  rewrite counter_of_pairs_snoc, BuildCatalogFacts.counter_add_elem, IH.
  rewrite fmap_app, elem_of_app, fmap_cons. cbn [fst fmap list_fmap].
  rewrite list_elem_of_singleton. tauto.
Qed.

Lemma counter_of_pairs_NoDup (pairs : list (K * Q)) :
  NoDup (counter_of_pairs pairs).*1.
Proof.
  induction pairs as [|[k0 w] pairs IH] using rev_ind; [constructor|].
  rewrite counter_of_pairs_snoc. by apply BuildCatalogFacts.counter_add_NoDup.
Qed.

Lemma counter_add_values (f g : K → Q) (k : K) (w : Q) (c : Counter K) :
  (∀ k', g k' = if decide (k' = k) then float_add (f k') w else f k') →
  (k ∉ c.*1 → f k = 0%Q) → NoDup c.*1 →
  Forall (λ e, e.2 = f e.1) c → Forall (λ e, e.2 = g e.1) (counter_add k w c).
Proof.
  intros Hg. induction c as [|[k' v] c IH]; intros Hnew Hnd Hc.
  - cbn [counter_add]. constructor; [|constructor]. cbn [fst snd].
    rewrite Hg, decide_True, Hnew by (done || apply not_elem_of_nil). done.
  - apply Forall_cons in Hc as [Hv Hc]. cbn [fst snd] in Hv.
    rewrite fmap_cons in Hnd. cbn [fst] in Hnd.
    apply NoDup_cons in Hnd as [Hk' Hnd].
    cbn [counter_add]. destruct (decide (k = k')) as [->|Hne].
    + constructor.
      * cbn [fst snd]. rewrite Hg, decide_True by done. by rewrite Hv.
      * apply Forall_forall. intros [k2 v2] Hin.
        rewrite Forall_forall in Hc. specialize (Hc _ Hin).
        cbn [fst snd] in *. rewrite Hg, decide_False; [done|].
        intros ->. apply Hk'.
        by apply (list_elem_of_fmap_2 fst) in Hin.
    + constructor.
      * cbn [fst snd]. by rewrite Hg, decide_False.
      * apply IH; [|done|done]. intros Hk. apply Hnew. rewrite fmap_cons.
        cbn [fst]. rewrite elem_of_cons. tauto.
Qed.

(** Each count is the sum, in order, of the weights added under its key. *)
Lemma counter_of_pairs_values (pairs : list (K * Q)) :
  Forall (λ e, e.2 = sum_in_order (weights_of e.1 pairs))
         (counter_of_pairs pairs).
Proof.
  induction pairs as [|[k0 w] pairs IH] using rev_ind; [constructor|].
  rewrite counter_of_pairs_snoc.
  apply (counter_add_values (λ k, sum_in_order (weights_of k pairs))
           (λ k, sum_in_order (weights_of k (pairs ++ [(k0, w)]))));
    [| |apply counter_of_pairs_NoDup|done].
  - intros k'. rewrite weights_of_snoc.
    destruct (decide (k' = k0)); [apply sum_in_order_snoc|done].
  - rewrite counter_of_pairs_keys. intros Hk.
    by rewrite weights_of_absent.
Qed.
End CounterFacts.

(** ** build_catalog.py: more on the catalogue and the profile *)
Module BuildCatalogMore.
Import BuildCatalog BuildCatalogFacts Scores.

(** *** The catalogue is ordered by track id *)

Lemma StronglySorted_sublist {A : Type} (R : A → A → Prop) (l k : list A) :
  l `sublist_of` k → StronglySorted R k → StronglySorted R l.
Proof.
  induction 1 as [|x l k Hsub IH|x l k Hsub IH]; intros Hs; [done| |].
  - apply StronglySorted_inv in Hs as [Hs Hx]. constructor; [auto|].
    eapply Forall_sublist_of; [exact Hx|done].
  - apply StronglySorted_inv in Hs as [Hs _]. auto.
Qed.

Lemma sorted_by_id {A K : Type} (key : A → K) (leb : K → K → bool)
    (l : list A) :
  StronglySorted (key_le key leb) l → sorted_by key leb l = l.
Proof.
  induction 1 as [|x l Hl IH Hx]; [done|].
  cbn [sorted_by]. rewrite IH. destruct Hx as [|y l' Hxy _]; [done|].
  cbn [insert_by]. unfold key_le in Hxy. by rewrite Hxy.
Qed.

Lemma drop_duplicates_loop_sublist rows seen :
  drop_duplicates_loop rows seen `sublist_of` rows.
Proof.
  revert seen. induction rows as [|x rows IH]; intros seen; [done|].
  cbn [drop_duplicates_loop]. destruct (bool_decide (track_id x ∈ seen)).
  - by apply sublist_cons.
  - by apply sublist_skip.
Qed.

Lemma drop_duplicates_loop_id rows seen :
  NoDup (track_id <$> rows) → Forall (λ r, track_id r ∉ seen) rows →
  drop_duplicates_loop rows seen = rows.
Proof.
  revert seen. induction rows as [|x rows IH]; intros seen Hnd Hns; [done|].
  rewrite fmap_cons in Hnd. apply NoDup_cons in Hnd as [Hx Hnd].
  apply Forall_cons in Hns as [Hxs Hns].
  cbn [drop_duplicates_loop]. rewrite bool_decide_eq_false_2 by done.
  f_equal. apply IH; [done|].
  apply Forall_forall. intros r Hr. rewrite Forall_forall in Hns.
  rewrite elem_of_union, elem_of_singleton. intros [Heq|?]; [|by eapply Hns].
  apply Hx. rewrite <-Heq. by apply list_elem_of_fmap_2.
Qed.

Lemma canonicalize_sorted all_rows :
  StronglySorted (key_le catalog_key catalog_leb) (canonicalize all_rows).
Proof.
  unfold canonicalize, drop_duplicates.
  eapply StronglySorted_sublist; [apply drop_duplicates_loop_sublist|].
  apply sorted_by_sorted; [apply catalog_leb_total|apply catalog_leb_trans].
Qed.

Lemma canonicalize_NoDup all_rows : NoDup (track_id <$> canonicalize all_rows).
Proof. apply drop_duplicates_loop_NoDup. Qed.

(** X12.  The canonical catalogue is in strictly ascending order of
    [track_id] (rows without one last). *)
Theorem X12_catalogue_ordered_by_track_id (all_rows : list CatRow) :
  StronglySorted (λ a b, track_id_compare (track_id a) (track_id b) = Lt)
                 (canonicalize all_rows).
Proof.
  pose proof (canonicalize_sorted all_rows) as Hs.
  pose proof (canonicalize_NoDup all_rows) as Hnd.
  induction Hs as [|x l Hl IH Hx]; [constructor|].
  rewrite fmap_cons in Hnd. apply NoDup_cons in Hnd as [Hxl Hnd].
  constructor; [by apply IH|].
  apply Forall_forall. intros y Hy. rewrite Forall_forall in Hx.
  specialize (Hx y Hy). unfold key_le, catalog_leb, catalog_key in Hx.
  cbn [fst snd] in Hx.
  destruct (track_id_compare (track_id x) (track_id y)) eqn:Hc;
    [|done|done].
  apply track_id_compare_eq in Hc. destruct Hxl. rewrite Hc.
  by apply list_elem_of_fmap_2.
Qed.

(** X13.  Building the canonical catalogue from a canonical catalogue
    changes nothing. *)
Theorem X13_canonicalize_idempotent (all_rows : list CatRow) :
  canonicalize (canonicalize all_rows) = canonicalize all_rows.
Proof.
  unfold canonicalize at 1, drop_duplicates.
  rewrite sorted_by_id by apply canonicalize_sorted.
  apply drop_duplicates_loop_id; [apply canonicalize_NoDup|].
  apply Forall_forall. intros r _. apply not_elem_of_empty.
Qed.

(** *** Recency *)

Lemma merge_artists_elem artists rows row :
  row ∈ merge_artists artists rows →
  ∃ r g n, r ∈ rows ∧ row = set_meta g n r.
Proof.
  unfold merge_artists. destruct artists as [|a artists];
    rewrite list_elem_of_In, in_map_iff;
    intros (r & <- & Hr%list_elem_of_In); eauto.
Qed.

Lemma merge_artists_keeps artists rows r :
  r ∈ rows → ∃ g n, set_meta g n r ∈ merge_artists artists rows.
Proof.
  intros Hr%list_elem_of_In. unfold merge_artists.
  destruct artists as [|a artists]; do 2 eexists; apply list_elem_of_In;
    apply in_map_iff; exists r; split; [reflexivity|done..].
Qed.

Lemma weight_top_below_recent (bucket : option string) :
  ¬ (22 # 10 <= weight_top bucket)%Q.
Proof.
  unfold weight_top. destruct bucket as [b|]; [|by compute].
  repeat (destruct (String.eqb b _)); by compute.
Qed.

(** X14.  A track that was recently played is in the catalogue with its
    recently played record: source [recent], weight 2.2, whatever the other
    frames say about it. *)
Theorem X14_recent_play_wins (saved top recent : list RawRow)
    (artists : list ArtistMeta) (r : RawRow) :
  r ∈ recent →
  ∃ kept,
    kept ∈ canonicalize (merge_artists artists
                           (concat_frames saved top recent))
    ∧ track_id kept = raw_track_id r
    ∧ source kept = "recent"%string
    ∧ weight kept = (22 # 10)%Q.
Proof.
  intros Hr.
  assert (tag_recent r ∈ concat_frames saved top recent) as Hin.
  { unfold concat_frames. rewrite !elem_of_app. right. right.
    apply list_elem_of_In, in_map. by apply list_elem_of_In. }
  destruct (merge_artists_keeps artists _ _ Hin) as (g & n & Hg).
  destruct (canonicalize_max _ _ Hg) as (kept & Hkept & Hid & Hw).
  exists kept. split_and!; [done|done| |].
  - apply canonicalize_elem, merge_artists_elem in Hkept
      as (r0 & g0 & n0 & Hr0 & ->).
    unfold concat_frames in Hr0. rewrite !elem_of_app in Hr0.
    cbn [set_meta weight tag_recent] in Hw.
    destruct Hr0 as [Hr0|[Hr0|Hr0]];
      apply list_elem_of_In, in_map_iff in Hr0 as (raw & <- & _);
      cbn [set_meta source tag_saved tag_top tag_recent weight] in Hw |- *.
    + by compute in Hw.
    + by apply weight_top_below_recent in Hw.
    + done.
  - apply canonicalize_elem, merge_artists_elem in Hkept
      as (r0 & g0 & n0 & Hr0 & ->).
    unfold concat_frames in Hr0. rewrite !elem_of_app in Hr0.
    cbn [set_meta weight tag_recent] in Hw.
    destruct Hr0 as [Hr0|[Hr0|Hr0]];
      apply list_elem_of_In, in_map_iff in Hr0 as (raw & <- & _);
      cbn [set_meta source tag_saved tag_top tag_recent weight] in Hw |- *.
    + by compute in Hw.
    + by apply weight_top_below_recent in Hw.
    + done.
Qed.

Lemma X14_recent_play_wins_witness :
  ∃ kept,
    kept ∈ canonicalize (merge_artists []
             (concat_frames [raw_row "t1" "a1" "A"] []
                [raw_row "t1" "a1" "A"]))
    ∧ track_id kept = Some "t1"%string
    ∧ source kept = "recent"%string
    ∧ weight kept = (22 # 10)%Q.
Proof.
  apply (X14_recent_play_wins [raw_row "t1" "a1" "A"] []
           [raw_row "t1" "a1" "A"] [] (raw_row "t1" "a1" "A")).
  by left.
Defined.

(** *** The accumulators as sums *)

Lemma add_genres_pairs (w : Q) (gs : list string) (c : Counter string) :
  add_genres w gs c
  = foldl (λ c p, counter_add p.1 p.2 c) c (map (λ g, (g, w)) gs).
Proof.
  unfold add_genres. revert c. induction gs as [|g gs IH]; intros c; [done|].
  cbn [foldl map fst snd]. apply IH.
Qed.

Lemma aggregate_as_pairs (rows : list CatRow) :
  (aggregate rows).1 = counter_of_pairs (omap artist_pair rows)
  ∧ (aggregate rows).2 = counter_of_pairs (concat (map genre_pairs rows)).
Proof.
  induction rows as [|row rows [IHa IHg]] using rev_ind; [done|].
  rewrite aggregate_snoc. unfold aggregate_row. cbn [fst snd]. split.
  - rewrite omap_app. cbn [omap list_omap]. unfold artist_pair at 2.
    destruct (cell_truthy (artist_id row)).
    + by rewrite counter_of_pairs_snoc, IHa.
    + by rewrite app_nil_r.
  - rewrite map_app, concat_app. cbn [map concat]. rewrite app_nil_r.
    unfold counter_of_pairs at 1. rewrite foldl_app.
    fold (counter_of_pairs (concat (map genre_pairs rows))).
    rewrite <-IHg. apply add_genres_pairs.
Qed.



(** X16.  The genre accumulator has one entry for each genre token of the
    catalogue rows, none of them blank, and the score of a genre is the
    float sum, in catalogue order from zero, of the weight of a row for each
    time the row lists the genre: 3.5999999999999996 for the rock of three
    rows that weigh 1.0, 1.3 and 1.3. *)
Theorem X16_genre_scores (rows : list CatRow) :
  let pairs := concat (map genre_pairs rows) in
  let c := (aggregate rows).2 in
  NoDup c.*1
  ∧ (∀ g, g ∈ c.*1 ↔ ∃ row, row ∈ rows ∧ g ∈ split_genres (genres row))
  ∧ Forall (λ e, ¬ blank e.1 ∧ e.2 = sum_in_order (weights_of e.1 pairs)) c
  ∧ (aggregate
       (canonicalize
          (merge_artists close_scores_artists
             (concat_frames close_scores_saved close_scores_top [])))).2
    = [("rock"%string, float_3_5999999999999996); ("pop"%string, float_3_6)].
Proof.
  intros pairs c. subst c.
  destruct (aggregate_as_pairs rows) as [_ ->]. fold pairs.
  assert (∀ g, g ∈ pairs.*1
               ↔ ∃ row, row ∈ rows ∧ g ∈ split_genres (genres row)) as Hkeys.
  { intros g. subst pairs. split.
    - intros ([g' w] & -> & Hin)%list_elem_of_fmap.
      apply list_elem_of_In, in_concat in Hin as (ps & Hps & Hin).
      apply in_map_iff in Hps as (row & <- & Hrow).
      unfold genre_pairs in Hin. apply in_map_iff in Hin as (g0 & [= <- _] & Hg).
      exists row. split; by apply list_elem_of_In.
    - intros (row & Hrow & Hg).
      apply (list_elem_of_fmap_2' fst _ (g, row_weight row)); [|done].
      apply list_elem_of_In, in_concat. exists (genre_pairs row). split.
      + apply in_map. by apply list_elem_of_In.
      + unfold genre_pairs. apply in_map_iff. exists g.
        split; [done|by apply list_elem_of_In]. }
  split_and!.
  - apply counter_of_pairs_NoDup.
  - intros g. by rewrite counter_of_pairs_keys.
  - apply Forall_and. split; [|apply counter_of_pairs_values].
    apply Forall_forall. intros e He.
    apply (list_elem_of_fmap_2 fst) in He.
    apply counter_of_pairs_keys, Hkeys in He as (row & _ & Hg).
    pose proof (GenreFacts.split_genres_not_blank (genres row)) as Hnb.
    rewrite Forall_forall in Hnb. by apply Hnb.
  - by vm_compute.
Qed.

(** *** The ranked lists of the profile *)




Lemma catalogue_main_Some saved top recent artists catalog profile :
  main saved top recent artists = Some (catalog, profile) →
  catalog = canonicalize (merge_artists artists
                            (concat_frames saved top recent))
  ∧ top_artists profile = most_common 15 (aggregate catalog).1
  ∧ top_genres profile = most_common 20 (aggregate catalog).2.
Proof.
  unfold main. destruct (concat_frames saved top recent); [done|].
  by intros [= <- <-].
Qed.



(** X18.  [main] writes nothing exactly when the three listening frames
    are empty; otherwise every track id read is in the catalogue, once. *)
Theorem X18_catalogue_covers_input (saved top recent : list RawRow)
    (artists : list ArtistMeta) :
  (main saved top recent artists = None
   ↔ saved = [] ∧ top = [] ∧ recent = [])
  ∧ (∀ catalog profile,
       main saved top recent artists = Some (catalog, profile) →
       NoDup (track_id <$> catalog)
       ∧ (∀ r, r ∈ saved ++ top ++ recent →
               raw_track_id r ∈ track_id <$> catalog)).
Proof.
  split.
  - unfold main, concat_frames.
    destruct saved, top, recent; cbn [map app]; split; try done;
      intros (? & ? & ?); done.
  - intros catalog profile (-> & _ & _)%catalogue_main_Some.
    split; [apply canonicalize_NoDup|].
    intros r Hr.
    assert (∃ row, row ∈ concat_frames saved top recent
                   ∧ track_id row = raw_track_id r) as (row & Hrow & <-).
    { unfold concat_frames. rewrite !elem_of_app in Hr.
      destruct Hr as [Hr|[Hr|Hr]]; apply list_elem_of_In in Hr;
        [exists (tag_saved r)|exists (tag_top r)|exists (tag_recent r)];
        (split; [|done]); rewrite !elem_of_app;
        [left|right; left|right; right];
        by apply list_elem_of_In, in_map. }
    destruct (merge_artists_keeps artists _ _ Hrow) as (g & n & Hg).
    destruct (canonicalize_max _ _ Hg) as (kept & Hkept & Hid & _).
    cbn [set_meta track_id] in Hid. rewrite <-Hid.
    by apply list_elem_of_fmap_2.
Qed.

Lemma X18_catalogue_covers_input_witness :
  ∃ catalog profile,
    main [raw_row "t1" "a1" "A"] [] [raw_row "t2" "a2" "B"] []
    = Some (catalog, profile)
    ∧ NoDup (track_id <$> catalog)
    ∧ Some "t2"%string ∈ track_id <$> catalog.
Proof.
  destruct (main [raw_row "t1" "a1" "A"] [] [raw_row "t2" "a2" "B"] [])
    as [[catalog profile]|] eqn:Hmain; [|discriminate Hmain].
  exists catalog, profile.
  destruct (X18_catalogue_covers_input [raw_row "t1" "a1" "A"] []
              [raw_row "t2" "a2" "B"] []) as [_ Hcov].
  destruct (Hcov catalog profile Hmain) as [Hnd Hin].
  split_and!; [done|done|].
  apply (Hin (raw_row "t2" "a2" "B")). rewrite !elem_of_app. right. right.
  by left.
Defined.

(** *** Weights *)

Lemma weight_top_range (bucket : option string) :
  (1 <= weight_top bucket)%Q ∧ (weight_top bucket <= 22 # 10)%Q
  ∧ Qeq_bool (weight_top bucket) 0 = false.
Proof.
  unfold weight_top. destruct bucket as [b|];
    repeat (destruct (String.eqb b _));
    (split_and!; [unfold Qle; simpl; lia|unfold Qle; simpl; lia|done]).
Qed.

(** X26.  Every row of the catalogue weighs between 1.0 and 2.2, so the
    fallback to 1.0 for a missing or zero weight never applies when the
    scores are added up. *)
Theorem X26_weights_in_range (saved top recent : list RawRow)
    (artists : list ArtistMeta) (catalog : list CatRow) (profile : Profile) :
  main saved top recent artists = Some (catalog, profile) →
  Forall (λ r, (1 <= weight r)%Q ∧ (weight r <= 22 # 10)%Q
               ∧ row_weight r = weight r) catalog.
Proof.
  intros (-> & _ & _)%catalogue_main_Some. apply Forall_forall. intros row Hrow.
  apply canonicalize_elem, merge_artists_elem in Hrow
    as (r0 & g & n & Hr0 & ->).
  unfold concat_frames in Hr0. rewrite !elem_of_app in Hr0.
  unfold row_weight.
  destruct Hr0 as [Hr0|[Hr0|Hr0]];
    apply list_elem_of_In, in_map_iff in Hr0 as (raw & <- & _);
    cbn [set_meta weight tag_saved tag_top tag_recent].
  - split_and!; [unfold Qle; simpl; lia|unfold Qle; simpl; lia|done].
  - destruct (weight_top_range (raw_time_range raw)) as (? & ? & ->). done.
  - split_and!; [unfold Qle; simpl; lia|unfold Qle; simpl; lia|done].
Qed.

Lemma X26_weights_in_range_witness :
  ∃ catalog profile,
    main [raw_row "t1" "a1" "A"] [raw_row "t2" "a1" "A"] [] []
    = Some (catalog, profile)
    ∧ Forall (λ r, (1 <= weight r)%Q ∧ (weight r <= 22 # 10)%Q
                   ∧ row_weight r = weight r) catalog.
Proof.
  destruct (main [raw_row "t1" "a1" "A"] [raw_row "t2" "a1" "A"] [] [])
    as [[catalog profile]|] eqn:Hmain; [|discriminate Hmain].
  exists catalog, profile. split; [done|].
  exact (X26_weights_in_range _ _ _ _ _ _ Hmain).
Defined.

(** *** The join with the artists *)

Lemma lookup_artist_first (l1 l2 : list ArtistMeta) (a : ArtistMeta)
    (aid : string) :
  str_or_empty (meta_artist_id a) = aid →
  Forall (λ b, str_or_empty (meta_artist_id b) ≠ aid) l1 →
  lookup_artist (l1 ++ a :: l2) aid = Some a.
Proof.
  intros Ha. induction 1 as [|b l1 Hb _ IH]; cbn [app lookup_artist].
  - by rewrite (proj2 (String.eqb_eq _ _) Ha).
  - by rewrite (proj2 (String.eqb_neq _ _) Hb).
Qed.

Lemma lookup_artist_none (artists : list ArtistMeta) (aid : string) :
  Forall (λ b, str_or_empty (meta_artist_id b) ≠ aid) artists →
  lookup_artist artists aid = None.
Proof.
  induction 1 as [|b l Hb _ IH]; cbn [lookup_artist]; [done|].
  by rewrite (proj2 (String.eqb_neq _ _) Hb).
Qed.

Lemma merge_artists_listed (artists : list ArtistMeta) (rows : list CatRow) :
  artists ≠ [] →
  merge_artists artists rows
  = (λ r, set_meta (str_or_empty ∘ meta_genres <$> artist_of artists r)
                   (fillna (artist_name r)
                           (str_or_empty ∘ meta_artist_name
                              <$> artist_of artists r)) r) <$> rows.
Proof. by destruct artists. Qed.

(** X27.  The join with [artists.csv] keeps the rows, in order, with their
    track id, artist id, source, time range and weight.  Without
    [artists.csv] a row keeps its name and its genres are the empty text.
    With it, a row keeps the artist name it has; a row whose artist id is
    that of a row of [artists.csv] takes the genres of the first such row
    (the empty text for NaN) and, if it has no name, that row's name; a row
    whose artist id is NaN or is not in [artists.csv] has NaN genres and
    keeps its name cell. *)
Theorem X27_artist_join (artists : list ArtistMeta) (rows : list CatRow) :
  let kept (r : CatRow) :=
    (track_id r, artist_id r, source r, time_range r, weight r) in
  let listed (aid : string) (a : ArtistMeta) :=
    ∃ l1 l2, artists = l1 ++ a :: l2
             ∧ str_or_empty (meta_artist_id a) = aid
             ∧ Forall (λ b, str_or_empty (meta_artist_id b) ≠ aid) l1 in
  let unlisted (r : CatRow) :=
    ∀ aid, artist_id r = Some aid →
           Forall (λ b, str_or_empty (meta_artist_id b) ≠ aid) artists in
  kept <$> merge_artists artists rows = kept <$> rows
  ∧ (artists = [] →
     Forall2 (λ r m, artist_name m = artist_name r
                     ∧ genres m = Some ""%string)
             rows (merge_artists artists rows))
  ∧ (artists ≠ [] →
     Forall2 (λ r m,
                (∀ n, artist_name r = Some n → artist_name m = Some n)
                ∧ (∀ aid a, artist_id r = Some aid → listed aid a →
                     genres m = Some (str_or_empty (meta_genres a))
                     ∧ (artist_name r = None →
                        artist_name m
                        = Some (str_or_empty (meta_artist_name a))))
                ∧ (unlisted r →
                   genres m = None ∧ artist_name m = artist_name r))
             rows (merge_artists artists rows)).
Proof.
  intros kept listed unlisted. split_and!.
  - unfold merge_artists. destruct artists;
      rewrite <-list_fmap_compose; by apply list_fmap_ext.
  - intros ->. cbn [merge_artists]. apply Forall2_fmap_r.
    by apply Forall_Forall2_diag, Forall_forall.
  - intros Hne. rewrite merge_artists_listed by done. apply Forall2_fmap_r.
    apply Forall_Forall2_diag, Forall_forall. intros r _.
    cbn [set_meta artist_name genres]. split_and!.
    + by intros n ->.
    + intros aid a Hid (l1 & l2 & Hsplit & Ha & Hl1).
      unfold artist_of. rewrite Hid. cbn [mbind option_bind].
      rewrite Hsplit, (lookup_artist_first l1 l2 a aid) by done.
      split; [done|]. by intros ->.
    + intros Hun. unfold artist_of.
      destruct (artist_id r) as [aid|] eqn:Hid; cbn [mbind option_bind].
      * rewrite lookup_artist_none by by apply Hun.
        split; [done|]. by destruct (artist_name r).
      * split; [done|]. by destruct (artist_name r).
Qed.

(** The unnamed record of [aY] is named [Y] by [artists.csv], the record
    named [Z] keeps its name, and the record of the unlisted artist stays
    without name and genres. *)
Lemma X27_artist_join_witness :
  let merged := merge_artists close_scores_artists unnamed_rows in
  (λ m, (artist_name m, genres m)) <$> merged
  = [(Some "Y", Some "rock"); (Some "Z", Some "rock"); (None, None)]%string
  ∧ track_id <$> merged = [Some "t1"; Some "t2"; Some "t3"]%string
  ∧ length merged = 3%nat.
Proof.
  intros merged. split_and!; [by vm_compute..|].
  destruct (X27_artist_join close_scores_artists unnamed_rows)
    as (Hkept & _ & _).
  apply (f_equal length) in Hkept. by rewrite !length_fmap in Hkept.
Defined.

End BuildCatalogMore.

(** ** Joining and splitting genre lists *)
Module JoinSplitFacts.

Lemma split_no_sep (sep : ascii) (g : string) :
  has_char sep g = false → split sep g = [g].
Proof.
  induction g as [|c g IH]; [done|].
  cbn [has_char split]. intros [Hc Hg]%orb_false_iff.
  by rewrite Hc, (IH Hg).
Qed.

Lemma split_app (sep : ascii) (g s : string) :
  has_char sep g = false →
  split sep (g +:+ String sep s) = g :: split sep s.
Proof.
  induction g as [|c g IH].
  - intros _. change ("" +:+ String sep s) with (String sep s).
    cbn [split]. by rewrite Ascii.eqb_refl.
  - cbn [has_char]. intros [Hc Hg]%orb_false_iff.
    change (String c g +:+ String sep s) with (String c (g +:+ String sep s)).
    cbn [split]. by rewrite Hc, (IH Hg).
Qed.

Lemma split_parts_no_sep (sep : ascii) (s : string) :
  Forall (λ g, has_char sep g = false) (split sep s).
Proof.
  induction s as [|c s IH]; [by repeat constructor|].
  cbn [split]. destruct (Ascii.eqb c sep) eqn:Hc.
  - by constructor.
  - destruct (split sep s) as [|w ws].
    { constructor; [|constructor]. cbn [has_char]. by rewrite Hc. }
    apply Forall_cons in IH as [Hw Hws].
    constructor; [|done]. cbn [has_char]. by rewrite Hc, Hw.
Qed.

Lemma has_char_lstrip (c : ascii) (s : string) :
  has_char c s = false → has_char c (lstrip s) = false.
Proof.
  induction s as [|d s IH]; [done|].
  cbn [lstrip]. destruct (is_space d); [|done].
  cbn [has_char]. intros [_ Hs]%orb_false_iff. auto.
Qed.

Lemma has_char_rstrip (c : ascii) (s : string) :
  has_char c s = false → has_char c (rstrip s) = false.
Proof.
  induction s as [|d s IH]; [done|].
  cbn [has_char]. intros [Hd Hs]%orb_false_iff. cbn [rstrip].
  specialize (IH Hs). destruct (rstrip s) as [|e r].
  - destruct (is_space d); [done|]. cbn [has_char]. by rewrite Hd.
  - cbn [has_char] in *. by rewrite Hd, IH.
Qed.

Lemma has_char_strip (c : ascii) (s : string) :
  has_char c s = false → has_char c (strip s) = false.
Proof. intros Hs. by apply has_char_rstrip, has_char_lstrip. Qed.

Lemma lstrip_length (s : string) :
  (String.length (lstrip s) ≤ String.length s)%nat.
Proof.
  induction s as [|c s IH]; [done|].
  cbn [lstrip]. destruct (is_space c); cbn [String.length]; lia.
Qed.

Lemma rstrip_length (s : string) :
  (String.length (rstrip s) ≤ String.length s)%nat.
Proof.
  induction s as [|c s IH]; [done|].
  cbn [rstrip]. destruct (rstrip s) as [|d r].
  - destruct (is_space c); cbn [String.length]; lia.
  - cbn [String.length] in *. lia.
Qed.

(** A stripped, non-empty text begins with a character that is not a
    space. *)
Lemma stripped_head (g : string) :
  strip g = g → g ≠ ""%string →
  ∃ c g', g = String c g' ∧ is_space c = false.
Proof.
  destruct g as [|c g']; [done|]. intros Hs _. exists c, g'.
  split; [done|]. destruct (is_space c) eqn:Hc; [|done].
  exfalso. unfold strip in Hs. cbn [lstrip] in Hs. rewrite Hc in Hs.
  pose proof (rstrip_length (lstrip g')) as H1.
  pose proof (lstrip_length g') as H2.
  rewrite Hs in H1. cbn [String.length] in H1. lia.
Qed.

Lemma strip_head_not_blank (c : ascii) (s : string) :
  is_space c = false → strip (String c s) ≠ ""%string.
Proof.
  intros Hc. unfold strip. cbn [lstrip]. rewrite Hc.
  by destruct (GenreFacts.rstrip_head c s Hc) as [r ->].
Qed.

Lemma strip_after_space (g : string) : strip (String " " g) = strip g.
Proof. done. Qed.

Lemma join_cons2 (sep x y : string) (l : list string) :
  join sep (x :: y :: l) = x +:+ sep +:+ join sep (y :: l).
Proof. done. Qed.

Lemma string_app_empty (g : string) : g +:+ "" = g.
Proof.
  induction g as [|c g IH]; [done|].
  change (String c g +:+ "") with (String c (g +:+ "")). by rewrite IH.
Qed.

Lemma join_head (sep g : string) (rest : list string) :
  ∃ t, join sep (g :: rest) = g +:+ t.
Proof.
  destruct rest as [|y rest].
  - exists ""%string. cbn [join]. by rewrite string_app_empty.
  - eexists. apply join_cons2.
Qed.

Lemma join_not_blank (sep g : string) (rest : list string) :
  strip g = g → g ≠ ""%string → strip (join sep (g :: rest)) ≠ ""%string.
Proof.
  intros Hs Hne. destruct (stripped_head g Hs Hne) as (c & g' & -> & Hc).
  destruct (join_head sep (String c g') rest) as [t ->].
  by apply strip_head_not_blank.
Qed.

Lemma split_join_comma (gs : list string) :
  Forall (λ g, has_char "," g = false) gs → gs ≠ [] →
  split "," (join "," gs) = gs.
Proof.
  induction 1 as [|g gs Hg Hgs IH]; [done|]. intros _.
  destruct gs as [|y gs]; [by apply split_no_sep|].
  rewrite join_cons2.
  change ("," +:+ join "," (y :: gs))%string
    with (String "," (join "," (y :: gs))).
  rewrite split_app by done. f_equal. by apply IH.
Qed.

Lemma join_push (c : ascii) (sep y : string) (rest : list string) :
  String c (join sep (y :: rest)) = join sep (String c y :: rest).
Proof. by destruct rest. Qed.

Lemma split_join_comma_space (rest : list string) (g : string) :
  has_char "," g = false →
  Forall (λ g, has_char "," g = false) rest →
  split "," (join ", " (g :: rest)) = g :: map (String " ") rest.
Proof.
  revert g. induction rest as [|y rest IH]; intros g Hg Hrest.
  - by apply split_no_sep.
  - apply Forall_cons in Hrest as [Hy Hrest]. rewrite join_cons2.
    change (", " +:+ join ", " (y :: rest))%string
      with (String "," (String " " (join ", " (y :: rest)))).
    rewrite join_push.
    rewrite split_app by done. cbn [map]. f_equal. by apply IH.
Qed.

(** X19.  A list of genres written as [fetch_api.py] does, joined by
    commas, is read back unchanged by [split_genres] as long as each genre
    is a stripped, non-empty text without a comma; [compare_recs.py] reads
    it back unchanged too if, moreover, no genre reads [nan] in any case. *)
Theorem X19_genres_read_back (gs : list string) :
  Forall (λ g, has_char "," g = false ∧ strip g = g ∧ g ≠ ""%string) gs →
  BuildCatalog.split_genres (Some (join "," gs)) = gs
  ∧ (Forall (λ g, lower g ≠ "nan"%string) gs →
     CompareRecs.genre_list (Some (join "," gs)) = gs).
Proof.
  intros Hclean. destruct gs as [|g rest]; [by split|].
  assert (strip (join "," (g :: rest)) ≠ ""%string) as Hnb.
  { apply Forall_cons in Hclean as [(_ & ? & ?) _]. by apply join_not_blank. }
  apply String.eqb_neq in Hnb.
  assert (split "," (join "," (g :: rest)) = g :: rest) as Hsplit.
  { apply split_join_comma; [|done].
    eapply Forall_impl; [exact Hclean|]. by intros x (? & _). }
  unfold BuildCatalog.split_genres, CompareRecs.genre_list.
  rewrite Hnb, Hsplit. split.
  - clear Hnb Hsplit. induction Hclean as [|x l (_ & Hs & Hne) _ IH]; [done|].
    cbn [omap list_omap]. rewrite Hs.
    apply String.eqb_neq in Hne. rewrite Hne. by rewrite IH.
  - intros Hnan. clear Hnb Hsplit. revert Hnan.
    induction Hclean as [|x l (_ & Hs & Hne) _ IH]; [done|].
    intros [Hx Hl]%Forall_cons. cbn [omap list_omap]. rewrite Hs.
    apply String.eqb_neq in Hne, Hx. rewrite Hne, Hx. cbn [negb andb].
    by rewrite IH.
Qed.

Lemma X19_genres_read_back_witness :
  BuildCatalog.split_genres (Some (join "," ["indie rock"; "pop"]%string))
  = ["indie rock"; "pop"]%string
  ∧ CompareRecs.genre_list (Some (join "," ["indie rock"; "pop"]%string))
    = ["indie rock"; "pop"]%string.
Proof.
  destruct (X19_genres_read_back ["indie rock"; "pop"]%string) as [H1 H2].
  - repeat constructor; try reflexivity; discriminate.
  - split; [exact H1|]. apply H2. repeat constructor; discriminate.
Defined.

End JoinSplitFacts.

(** ** compare_recs.py: flags, diversity and overlap *)
Module CompareMetricsFacts.
Import CompareRecs CompareMetrics JoinSplitFacts.

(** X20.  In the artist-to-genre lookup a later row of [artists.csv]
    replaces an earlier row of the same artist: an id maps to the genre list
    of its last row, and to nothing when no row carries it. *)
Theorem X20_genres_map_last_row_wins (artists_df : list ArtistsRow)
    (aid : string) :
  genres_map_from_artists artists_df !! aid
  = (λ row, genre_list (genres row))
      <$> last (filter (λ row, str_cell (CompareRecs.artist_id row) = aid)
                       artists_df).
Proof.
  unfold genres_map_from_artists.
  induction artists_df as [|row rows IH] using rev_ind; [done|].
  rewrite foldl_app, filter_app, filter_cons, filter_nil. cbn [foldl].
  rewrite lookup_insert.
  destruct (decide (str_cell (CompareRecs.artist_id row) = aid)) as [Heq|Hne].
  - by rewrite last_snoc.
  - by rewrite app_nil_r.
Qed.

(** *** Reading the joined genres back *)

Lemma genre_list_tokens (val : option string) :
  Forall (λ g, has_char "," g = false ∧ strip g = g
               ∧ g ≠ ""%string ∧ lower g ≠ "nan"%string)
         (genre_list val).
Proof.
  unfold genre_list. destruct val as [s|]; [|constructor].
  destruct (String.eqb (strip s) ""); [constructor|].
  apply Forall_forall. intros g (g0 & Hg0 & Hg)%list_elem_of_omap.
  destruct (String.eqb_spec (strip g0) "") as [|Hne]; [done|].
  destruct (String.eqb_spec (lower (strip g0)) "nan") as [|Hnan]; [done|].
  injection Hg as <-. split_and!; [|apply GenreFacts.strip_idem|done|done].
  apply has_char_strip.
  pose proof (split_parts_no_sep "," s) as Hparts.
  rewrite Forall_forall in Hparts. by apply Hparts.
Qed.

Lemma genres_map_tokens (artists_df : list ArtistsRow) (aid : string)
    (gl : list string) :
  genres_map_from_artists artists_df !! aid = Some gl →
  Forall (λ g, has_char "," g = false ∧ strip g = g
               ∧ g ≠ ""%string ∧ lower g ≠ "nan"%string) gl.
Proof.
  unfold genres_map_from_artists.
  induction artists_df as [|row rows IH] using rev_ind; [done|].
  rewrite foldl_app. cbn [foldl]. rewrite lookup_insert.
  case_decide; [|done]. intros [= <-]. apply genre_list_tokens.
Qed.

Lemma genre_tokens_join (gl : list string) :
  Forall (λ g, has_char "," g = false ∧ strip g = g
               ∧ g ≠ ""%string ∧ lower g ≠ "nan"%string) gl →
  genre_tokens (join ", " gl) = gl.
Proof.
  intros Hclean. destruct gl as [|g rest]; [done|].
  unfold genre_tokens.
  assert (join ", " (g :: rest) ≠ ""%string) as Hne.
  { apply Forall_cons in Hclean as [(_ & _ & Hg & _) _].
    destruct (join_head ", " g rest) as [t ->]. by destruct g. }
  apply String.eqb_neq in Hne. rewrite Hne.
  rewrite split_join_comma_space; cycle 1.
  { by apply Forall_cons in Hclean as [(? & _) _]. }
  { apply Forall_cons in Hclean as [_ Hrest].
    eapply Forall_impl; [exact Hrest|]. by intros x (? & _). }
  apply Forall_cons in Hclean as [(_ & Hs & Hg & Hn) Hrest].
  cbn [omap list_omap]. rewrite Hs.
  apply String.eqb_neq in Hg, Hn. rewrite Hg, Hn. cbn [negb andb]. f_equal.
  clear -Hrest. induction Hrest as [|x l (_ & Hs & Hx & Hn) _ IH]; [done|].
  cbn [map omap list_omap]. rewrite strip_after_space, Hs.
  apply String.eqb_neq in Hx, Hn. rewrite Hx, Hn. cbn [negb andb].
  by rewrite IH.
Qed.

(** X21.  What [diversity_metrics] reads back from the [genres_join] text
    of a flagged row is exactly the genre list of the row's artist in the
    lookup (no genre when the artist is not in it). *)
Theorem X21_joined_genres_read_back (artists_df : list ArtistsRow)
    (df : list RecRow) (list_name : string) (seen_ids : gset string) :
  let gmap := genres_map_from_artists artists_df in
  Forall (λ f, genre_tokens (genres_join f)
               = default [] (gmap !! CompareMetrics.artist_id f))
         (attach_flags df list_name seen_ids gmap).
Proof.
  intros gmap. unfold attach_flags. destruct df as [|r df]; [constructor|].
  apply Forall_forall. intros f Hf.
  apply list_elem_of_In, in_map_iff in Hf as (r0 & <- & _).
  cbn [genres_join CompareMetrics.artist_id].
  apply genre_tokens_join.
  destruct (gmap !! str_cell (rec_artist_id r0)) as [gl|] eqn:Hgl;
    [|constructor].
  cbn [default]. by apply (genres_map_tokens artists_df _ _ Hgl).
Qed.

(** *** Counts of the summary *)

Lemma size_list_to_set_le (l : list string) :
  (size (list_to_set l : gset string) ≤ length l)%nat.
Proof.
  induction l as [|x l IH]; [by rewrite list_to_set_nil, size_empty|].
  rewrite list_to_set_cons, size_union_alt, size_singleton. cbn [length].
  pose proof (subseteq_size (list_to_set l ∖ {[x]}) (list_to_set l : gset string))
    as Hsub.
  assert (list_to_set l ∖ {[x]} ⊆ (list_to_set l : gset string)) as Hd.
  { intros y Hy. by apply elem_of_difference in Hy as [? _]. }
  specialize (Hsub Hd). lia.
Qed.

Lemma attach_flags_length df list_name seen_ids gmap :
  length (attach_flags df list_name seen_ids gmap) = length df.
Proof. destruct df; [done|]. unfold attach_flags. by rewrite length_map. Qed.

Lemma diversity_metrics_tracks df : tracks (diversity_metrics df) = length df.
Proof. by destruct df. Qed.

Lemma overlap_ids_size_l hist_f prefs_f :
  (size (overlap_ids hist_f prefs_f) ≤ length hist_f)%nat.
Proof.
  unfold overlap_ids.
  pose proof (size_list_to_set_le (map track_id hist_f)) as Hl.
  rewrite length_map in Hl.
  pose proof (subseteq_size _ _
    (intersection_subseteq_l (list_to_set (map track_id hist_f) : gset string)
       (list_to_set (map track_id prefs_f)))) as Hs.
  lia.
Qed.

Lemma overlap_ids_comm hist_f prefs_f :
  overlap_ids hist_f prefs_f = overlap_ids prefs_f hist_f.
Proof. unfold overlap_ids. apply (comm_L (∩)). Qed.

Lemma report_main_Some hist prefs catalog artists_df rep :
  main hist prefs catalog artists_df = Some rep →
  let seen_ids := MakeRecs.owned_ids catalog in
  let gmap := genres_map_from_artists artists_df in
  let hist_f := attach_flags hist "history" seen_ids gmap in
  let prefs_f := attach_flags prefs "prefs" seen_ids gmap in
  rep = {| summary :=
             {| history := diversity_metrics hist_f;
                history_new := count_new hist_f;
                prefs := diversity_metrics prefs_f;
                prefs_new := count_new prefs_f;
                overlap_tracks := size (overlap_ids hist_f prefs_f) |};
           details := hist_f ++ prefs_f;
           overlap :=
             filter (λ r, track_id r ∈ overlap_ids hist_f prefs_f) hist_f
             ++ filter (λ r, track_id r ∈ overlap_ids hist_f prefs_f)
                  prefs_f |}.
Proof.
  unfold main. destruct hist as [|h hist], prefs as [|p prefs];
    [done|by intros [= <-]..].
Qed.

(** X22.  The number of overlapping tracks is at most the size of either
    list and does not depend on which list comes first; the overlap table
    holds exactly the rows of both lists whose track id is in both. *)
Theorem X22_overlap_bounded_and_symmetric (hist_df prefs_df : list RecRow)
    (catalog : MakeRecs.Catalog) (artists_df : list ArtistsRow)
    (rep : Report) :
  main hist_df prefs_df catalog artists_df = Some rep →
  tracks (history (summary rep)) = length hist_df
  ∧ tracks (prefs (summary rep)) = length prefs_df
  ∧ (overlap_tracks (summary rep) ≤ length hist_df)%nat
  ∧ (overlap_tracks (summary rep) ≤ length prefs_df)%nat
  ∧ (∀ rep', main prefs_df hist_df catalog artists_df = Some rep' →
       overlap_tracks (summary rep') = overlap_tracks (summary rep))
  ∧ (∀ f, f ∈ overlap rep
          ↔ f ∈ details rep
            ∧ (∃ h, h ∈ hist_df ∧ track_id f = str_cell (rec_track_id h))
            ∧ (∃ p, p ∈ prefs_df ∧ track_id f = str_cell (rec_track_id p))).
Proof.
  intros Hmain. pose proof (report_main_Some _ _ _ _ _ Hmain) as Hrep.
  cbv zeta in Hrep. subst rep.
  cbn [summary history prefs overlap_tracks details overlap].
  set (seen_ids := MakeRecs.owned_ids catalog).
  set (gmap := genres_map_from_artists artists_df).
  assert (∀ df name t,
    t ∈ (list_to_set (map track_id (attach_flags df name seen_ids gmap))
           : gset string)
    ↔ ∃ r, r ∈ df ∧ t = str_cell (rec_track_id r)) as Hids.
  { intros df name t. rewrite elem_of_list_to_set, list_elem_of_In,
      in_map_iff. unfold attach_flags. destruct df as [|r0 df].
    - split; [by intros (? & _ & [])|by intros (? & ?%elem_of_nil & _)].
    - split.
      + intros (f & <- & (r & <- & Hr)%in_map_iff). exists r.
        split; [by apply list_elem_of_In|done].
      + intros (r & Hr%list_elem_of_In & ->). eexists. split; [|
          apply in_map_iff; exists r; split; [reflexivity|done]]. done. }
  split_and!.
  - by rewrite diversity_metrics_tracks, attach_flags_length.
  - by rewrite diversity_metrics_tracks, attach_flags_length.
  - rewrite <-(attach_flags_length hist_df "history" seen_ids gmap).
    apply overlap_ids_size_l.
  - rewrite <-(attach_flags_length prefs_df "prefs" seen_ids gmap).
    rewrite overlap_ids_comm. apply overlap_ids_size_l.
  - intros rep' Hmain'. pose proof (report_main_Some _ _ _ _ _ Hmain') as Hrep'.
    cbv zeta in Hrep'. subst rep'. cbn [summary overlap_tracks].
    fold seen_ids gmap. unfold overlap_ids.
    f_equal. apply set_eq. intros t.
    rewrite !elem_of_intersection, !Hids. tauto.
  - intros f. rewrite !elem_of_app, !list_elem_of_filter.
    unfold overlap_ids. rewrite elem_of_intersection, !Hids. tauto.
Qed.

Lemma X22_overlap_bounded_and_symmetric_witness :
  ∃ rep,
    main [{| rec_track_id := Some "t1"%string; rec_artist_id := None;
             rec_artist_name := None |}]
         [{| rec_track_id := Some "t1"%string; rec_artist_id := None;
             rec_artist_name := None |};
          {| rec_track_id := Some "t2"%string; rec_artist_id := None;
             rec_artist_name := None |}] None [] = Some rep
    ∧ (overlap_tracks (summary rep) ≤ 1)%nat.
Proof.
  destruct (main [{| rec_track_id := Some "t1"%string; rec_artist_id := None;
                     rec_artist_name := None |}]
              [{| rec_track_id := Some "t1"%string; rec_artist_id := None;
                  rec_artist_name := None |};
               {| rec_track_id := Some "t2"%string; rec_artist_id := None;
                  rec_artist_name := None |}] None []) as [rep|] eqn:Hmain;
    [|discriminate Hmain].
  exists rep. split; [done|].
  by destruct (X22_overlap_bounded_and_symmetric _ _ _ _ _ Hmain)
    as (_ & _ & Hle & _).
Defined.

Lemma count_new_attach_flags df list_name seen_ids gmap :
  count_new (attach_flags df list_name seen_ids gmap)
  = length (filter (λ r, str_cell (rec_track_id r) ∉ seen_ids) df).
Proof.
  unfold count_new, attach_flags. destruct df as [|r0 df0]; [done|].
  generalize (r0 :: df0). intros df. induction df as [|r df IH]; [done|].
  cbn [map]. rewrite !filter_cons. cbn [in_catalog].
  destruct (decide (str_cell (rec_track_id r) ∉ seen_ids)) as [Hn|Hn].
  - rewrite decide_True by by apply bool_decide_eq_false.
    cbn [length]. by rewrite IH.
  - rewrite decide_False; [done|].
    intros Hb. apply bool_decide_eq_false in Hb. done.
Qed.

(** X23.  A row is flagged [in_catalog] exactly when its track id is in the
    catalogue; the new-to-user count of a list is the number of its rows
    that are not, so it is at most the size of the list, and equal to it
    when no row of the list is in the catalogue. *)
Theorem X23_new_to_user_count (hist_df prefs_df : list RecRow)
    (catalog : MakeRecs.Catalog) (artists_df : list ArtistsRow)
    (rep : Report) :
  main hist_df prefs_df catalog artists_df = Some rep →
  let owned := MakeRecs.owned_ids catalog in
  let fresh (df : list RecRow) :=
    filter (λ r, str_cell (rec_track_id r) ∉ owned) df in
  Forall (λ f, in_catalog f = true ↔ track_id f ∈ owned) (details rep)
  ∧ history_new (summary rep) = length (fresh hist_df)
  ∧ prefs_new (summary rep) = length (fresh prefs_df)
  ∧ (history_new (summary rep) ≤ length hist_df)%nat
  ∧ (prefs_new (summary rep) ≤ length prefs_df)%nat
  ∧ (fresh hist_df = hist_df → history_new (summary rep) = length hist_df).
Proof.
  intros Hmain owned fresh. pose proof (report_main_Some _ _ _ _ _ Hmain) as Hrep.
  cbv zeta in Hrep. subst rep.
  cbn [summary history_new prefs_new details]. fold owned.
  split_and!.
  - apply Forall_app.
    split; apply Forall_forall; intros f Hf; unfold attach_flags in Hf;
      [destruct hist_df as [|r0 d]|destruct prefs_df as [|r0 d]];
      try (by apply elem_of_nil in Hf);
      apply list_elem_of_In, in_map_iff in Hf as (r & <- & _);
      cbn [in_catalog track_id]; apply bool_decide_eq_true.
  - apply count_new_attach_flags.
  - apply count_new_attach_flags.
  - rewrite count_new_attach_flags. apply sublist_length, sublist_filter.
  - rewrite count_new_attach_flags. apply sublist_length, sublist_filter.
  - intros Hall. rewrite count_new_attach_flags. fold (fresh hist_df).
    by rewrite Hall.
Qed.

Lemma X23_new_to_user_count_witness :
  ∃ rep,
    main [{| rec_track_id := Some "t1"%string; rec_artist_id := None;
             rec_artist_name := None |};
          {| rec_track_id := Some "t2"%string; rec_artist_id := None;
             rec_artist_name := None |}] [] (Some [Some "t2"%string]) []
    = Some rep
    ∧ history_new (summary rep) = 1%nat.
Proof.
  destruct (main [{| rec_track_id := Some "t1"%string; rec_artist_id := None;
                     rec_artist_name := None |};
                  {| rec_track_id := Some "t2"%string; rec_artist_id := None;
                     rec_artist_name := None |}] []
              (Some [Some "t2"%string]) []) as [rep|] eqn:Hmain;
    [|discriminate Hmain].
  exists rep. split; [done|].
  destruct (X23_new_to_user_count _ _ _ _ _ Hmain) as (_ & -> & _).
  vm_compute. reflexivity.
Defined.

(** *** Diversity *)

Lemma tally_length_distinct (l : list string) :
  length (tally l) = size (list_to_set l : gset string).
Proof.
  rewrite <-(length_fmap fst), <-(size_list_to_set (C:=gset string))
    by apply tally_keys_NoDup.
  f_equal. apply set_eq. intros k.
  by rewrite !elem_of_list_to_set, tally_keys_elem.
Qed.

Lemma top5_spec (l : list string) :
  let top := tally_most_common 5 (tally l) in
  (length top ≤ 5)%nat
  ∧ NoDup top.*1
  ∧ StronglySorted (λ a b : string * nat, (b.2 ≤ a.2)%nat) top
  ∧ Forall (λ e, e.1 ∈ l ∧ e.2 = occurrences e.1 l) top.
Proof.
  intros top. subst top.
  destruct (tally_most_common_spec 5 (tally l) (tally_keys_NoDup l))
    as (Hnd & Hin & Hsorted & Hlen).
  split_and!; [done|done|done|].
  apply Forall_forall. intros e He%Hin. split.
  - apply (tally_keys_elem l). by apply list_elem_of_fmap_2.
  - pose proof (tally_counts l) as Hc. rewrite Forall_forall in Hc.
    by apply Hc.
Qed.

(** X24.  In the diversity metrics of a list, the number of genres is the
    number of distinct tokens read from its rows, the number of artists is
    at most the number of tracks, and each top list holds at most five
    entries, no key twice, each with the number of times it occurs, by
    non-increasing count. *)
Theorem X24_diversity_counts (df : list Flagged) :
  let tokens := concat (map (λ r, genre_tokens (genres_join r)) df) in
  let names := map (λ r, str_or_empty (artist_name r)) df in
  let m := diversity_metrics df in
  unique_genres m = size (list_to_set tokens : gset string)
  ∧ (unique_artists m ≤ tracks m)%nat
  ∧ ((length (top_genres m) ≤ 5)%nat
     ∧ NoDup (top_genres m).*1
     ∧ StronglySorted (λ a b, (b.2 ≤ a.2)%nat) (top_genres m)
     ∧ Forall (λ e, e.1 ∈ tokens ∧ e.2 = occurrences e.1 tokens)
              (top_genres m))
  ∧ ((length (top_artists m) ≤ 5)%nat
     ∧ NoDup (top_artists m).*1
     ∧ StronglySorted (λ a b, (b.2 ≤ a.2)%nat) (top_artists m)
     ∧ Forall (λ e, e.1 ∈ names ∧ e.2 = occurrences e.1 names)
              (top_artists m)).
Proof.
  intros tokens names m. subst m. destruct df as [|r df].
  - cbn. split_and!; first [done | lia | constructor].
  - unfold diversity_metrics.
    cbn [unique_genres unique_artists tracks top_genres top_artists].
    fold tokens names. split_and!.
    + apply tally_length_distinct.
    + pose proof (size_list_to_set_le (map CompareMetrics.artist_id (r :: df)))
        as Hle. by rewrite length_map in Hle.
    + apply (top5_spec tokens).
    + apply (top5_spec tokens).
    + apply (top5_spec tokens).
    + apply (top5_spec tokens).
    + apply (top5_spec names).
    + apply (top5_spec names).
    + apply (top5_spec names).
    + apply (top5_spec names).
Qed.

End CompareMetricsFacts.
